(** * Allocation Visualizer: the ingestion and aggregation core of [src/App.jsx]

    A shallow embedding of the tokenizer ([parseCsv], [detectDelimiter],
    [splitCsvLine], [sanitizeHeaders]), the schema inferencer
    ([detectColumns]), the row expander ([normalizeRow], [expandRows]), the
    record filter of the [App] component and the aggregator ([aggregate]),
    followed by the properties the specification states about them
    (Part II) and by further properties that the code shows (Part III):
    of the same functions and of the option lists ([uniqueValues]), the
    group selector, the captions and the colours of the [App] component.

    Modelling conventions.
    - A JavaScript string is a sequence of code units; the embedding carries
      the code units below 256 (Rocq's [ascii]), read as Latin-1, which is
      where [trim], [toLowerCase] and the regular expressions of the source
      act character by character.
    - A JavaScript number is an IEEE 754 binary64 value: [spec_float] with
      precision 53 and maximal exponent 1024, with the arithmetic of the
      standard library's [SpecFloat].
    - A row object is the finite map of its own properties, from header
      names to cell texts; a missing property reads as [None] (JavaScript's
      undefined).  The one name that an assignment cannot turn into an own
      property, [__proto__], is modelled by [setProp] and [getProp].  The
      other names that [Object.prototype] supplies ([constructor],
      [toString], ...) are writable data properties, which an assignment
      shadows by an own property: a row of [parseCsv] is read at its headers
      only and holds each of them, so that reading such a name from a row
      that lacks it is left outside the model.
    - The [Map] of [aggregate] is an association list in insertion order,
      which is the iteration order of a JavaScript [Map].
    - [Array.prototype.sort] is the stable sort that every engine computes
      for a consistent comparator.  The comparator of [aggregate] is
      consistent unless some total is NaN; the order of the groups is
      stated for finite metrics only. *)

From Stdlib Require Import ZArith NArith String Ascii List Lia Permutation.
From Stdlib Require Import Floats.SpecFloat.
From stdpp Require Import gmap strings list pretty sorting.

Import ListNotations.
Local Open Scope string_scope.
Local Open Scope list_scope.
Local Open Scope nat_scope.

(* ================================================================== *)
(** * Part I: the embedding *)
(* ================================================================== *)

(** ** JavaScript strings *)

Definition code (c : ascii) : N := N_of_ascii c.

Definition LF : ascii := ascii_of_N 10.
Definition CR : ascii := ascii_of_N 13.
Definition TAB : ascii := ascii_of_N 9.
Definition DQUOTE : ascii := ascii_of_N 34.
Definition COMMA : ascii := ",".
Definition PERCENT : ascii := "%".

Definition str1 (c : ascii) : string := String c EmptyString.

(** A string is falsy exactly when it is empty. *)
Definition isEmpty (s : string) : bool :=
  match s with EmptyString => true | String _ _ => false end.

Definition truthy (s : string) : bool := negb (isEmpty s).

(** The white space of [trim], [trimEnd] and of [Number]: TAB, LF, VT, FF,
    CR, SP and NBSP are the ones below 256. *)
Definition isWhiteSpace (c : ascii) : bool :=
  let n := code c in
  ((9 <=? n) && (n <=? 13) || (n =? 32) || (n =? 160))%N.

(** The class [[A-Za-z]]. *)
Definition isAlpha (c : ascii) : bool :=
  let n := code c in
  ((65 <=? n) && (n <=? 90) || (97 <=? n) && (n <=? 122))%N.

Definition isDigit (c : ascii) : bool :=
  let n := code c in ((48 <=? n) && (n <=? 57))%N.

(** [toLowerCase] on one code unit: A-Z, and the Latin-1 capitals 192-222
    other than the multiplication sign 215, move up by 32. *)
Definition lowerChar (c : ascii) : ascii :=
  let n := code c in
  if ((65 <=? n) && (n <=? 90)
      || (192 <=? n) && (n <=? 222) && negb (n =? 215))%N
  then ascii_of_N (n + 32) else c.

Fixpoint toLowerCase (s : string) : string :=
  match s with
  | EmptyString => EmptyString
  | String c s' => String (lowerChar c) (toLowerCase s')
  end.

Fixpoint trimStart (s : string) : string :=
  match s with
  | EmptyString => EmptyString
  | String c s' => if isWhiteSpace c then trimStart s' else s
  end.

Fixpoint trimEnd (s : string) : string :=
  match s with
  | EmptyString => EmptyString
  | String c s' =>
      match trimEnd s' with
      | EmptyString => if isWhiteSpace c then EmptyString else str1 c
      | t => String c t
      end
  end.

Definition trim (s : string) : string := trimStart (trimEnd s).

(** [s.includes(needle)] *)
Fixpoint includes (s needle : string) : bool :=
  String.prefix needle s
  || match s with
     | EmptyString => false
     | String _ s' => includes s' needle
     end.

(** [arr.includes(x)] on an array of strings *)
Definition arrayIncludes (arr : list string) (x : string) : bool :=
  existsb (String.eqb x) arr.

(** [s.split(d)] for a one-character separator *)
Fixpoint split (d : ascii) (s : string) : list string :=
  match s with
  | EmptyString => [EmptyString]
  | String c s' =>
      if Ascii.eqb c d then EmptyString :: split d s'
      else match split d s' with
           | cur :: rest => String c cur :: rest
           | [] => [str1 c]
           end
  end.

(** [arr.join(sep)] *)
Fixpoint join (sep : string) (arr : list string) : string :=
  match arr with
  | [] => EmptyString
  | x :: rest =>
      match rest with
      | [] => x
      | _ :: _ => x +:+ sep +:+ join sep rest
      end
  end.

(** [s.replace(/\r\n/g, '\n')] *)
Fixpoint replaceCRLF (s : string) : string :=
  match s with
  | EmptyString => EmptyString
  | String c s' =>
      match s' with
      | String c' s'' =>
          if Ascii.eqb c CR && Ascii.eqb c' LF
          then String LF (replaceCRLF s'')
          else String c (replaceCRLF s')
      | EmptyString => str1 c
      end
  end.

(** [s.replace(/[...]/g, '')]: drop every character of a class *)
Fixpoint removeChars (drop : ascii -> bool) (s : string) : string :=
  match s with
  | EmptyString => EmptyString
  | String c s' =>
      if drop c then removeChars drop s' else String c (removeChars drop s')
  end.

(** [(s.match(/c/g) || []).length] *)
Fixpoint countChar (d : ascii) (s : string) : nat :=
  match s with
  | EmptyString => 0
  | String c s' => (if Ascii.eqb c d then 1 else 0) + countChar d s'
  end.

(** [/[A-Za-z]/.test(s)] *)
Fixpoint hasAlpha (s : string) : bool :=
  match s with
  | EmptyString => false
  | String c s' => isAlpha c || hasAlpha s'
  end.

(** [String(v)] for a property read: undefined prints as its name. *)
Definition toStr (v : option string) : string :=
  match v with Some s => s | None => "undefined" end.

(** Truthiness of a role key that is a header name or null. *)
Definition keySet (k : option string) : bool :=
  match k with Some s => truthy s | None => false end.

(** ** JavaScript numbers: IEEE 754 binary64 *)

Definition prec : Z := 53.
Definition emax : Z := 1024.

Definition number : Type := spec_float.

Definition num0 : number := S754_zero false.

Definition add (x y : number) : number := SFadd prec emax x y.
Definition sub (x y : number) : number := SFsub prec emax x y.

Definition isNaN (x : number) : bool :=
  match x with S754_nan => true | _ => false end.

Definition isFinite (x : number) : bool :=
  match x with
  | S754_zero _ | S754_finite _ _ _ => true
  | S754_infinity _ | S754_nan => false
  end.

(** Truthiness of a number: zeros and NaN are falsy. *)
Definition numTruthy (x : number) : bool :=
  match x with
  | S754_zero _ | S754_nan => false
  | S754_infinity _ | S754_finite _ _ _ => true
  end.

(** [x > 0] *)
Definition isPositive (x : number) : bool :=
  match x with
  | S754_infinity false | S754_finite false _ _ => true
  | _ => false
  end.

(** The number nearest to an integer. *)
Definition ofZ (z : Z) : number := binary_normalize prec emax z 0 false.

(** The number nearest to [m * 10 ^ e10], for a mantissa [m >= 0]: one
    rounding to nearest even, through an exact product when the exponent is
    not negative and through a quotient with its remainder's location when
    it is. *)
Definition ofDecimal (neg : bool) (m : Z) (e10 : Z) : number :=
  match m with
  | Z0 => S754_zero neg
  | Zpos p =>
      match e10 with
      | Z0 => binary_round prec emax neg p 0
      | Zpos k => binary_round prec emax neg (p * Pos.pow 10 k) 0
      | Zneg k =>
          let '(q, e, l) :=
            SFdiv_core_binary prec emax (Zpos p) 0 (Zpos (Pos.pow 10 k)) 0 in
          binary_round_aux prec emax neg q e l
      end
  | Zneg _ => S754_nan
  end.

(** *** [Number(s)]: the StringNumericLiteral grammar *)

Fixpoint spanChars (ok : ascii -> bool) (s : string) : string * string :=
  match s with
  | EmptyString => (EmptyString, EmptyString)
  | String c s' =>
      if ok c then let '(d, r) := spanChars ok s' in (String c d, r)
      else (EmptyString, s)
  end.

Definition isHexDigit (c : ascii) : bool :=
  let n := code c in
  (isDigit c || (65 <=? n) && (n <=? 70) || (97 <=? n) && (n <=? 102))%N.

Definition isOctDigit (c : ascii) : bool :=
  let n := code c in ((48 <=? n) && (n <=? 55))%N.

Definition isBinDigit (c : ascii) : bool :=
  let n := code c in ((48 <=? n) && (n <=? 49))%N.

Definition digitValue (c : ascii) : Z :=
  let n := Z.of_N (code c) in
  if isDigit c then n - 48
  else if (97 <=? n)%Z then n - 87
  else n - 55.

Fixpoint digitsValue (base acc : Z) (s : string) : Z :=
  match s with
  | EmptyString => acc
  | String c s' => digitsValue base (acc * base + digitValue c) s'
  end.

Definition stripSign (s : string) : bool * string :=
  match s with
  | String "-" s' => (true, s')
  | String "+" s' => (false, s')
  | _ => (false, s)
  end.

(** The optional ExponentPart that ends a decimal literal. *)
Definition parseExponent (s : string) : option Z :=
  match s with
  | EmptyString => Some 0%Z
  | String c s' =>
      if Ascii.eqb c "e" || Ascii.eqb c "E" then
        let '(neg, ds) := stripSign s' in
        let '(d, r) := spanChars isDigit ds in
        if truthy d && isEmpty r
        then Some (if neg then - digitsValue 10 0 d else digitsValue 10 0 d)%Z
        else None
      else None
  end.

(** StrDecimalLiteral: an optional sign, then [Infinity], or digits with an
    optional fraction and exponent (at least one digit before the
    exponent). *)
Definition parseDecimal (s : string) : number :=
  let '(neg, u) := stripSign s in
  if String.eqb u "Infinity" then S754_infinity neg else
  let '(ip, r1) := spanChars isDigit u in
  let '(fp, r2) :=
    match r1 with
    | String "." r => spanChars isDigit r
    | _ => (EmptyString, r1)
    end in
  if isEmpty ip && isEmpty fp then S754_nan else
  match parseExponent r2 with
  | Some e =>
      ofDecimal neg (digitsValue 10 0 (ip +:+ fp))
                (e - Z.of_nat (String.length fp))
  | None => S754_nan
  end.

(** NonDecimalIntegerLiteral: [0x], [0o] and [0b] prefixes, unsigned. *)
Definition parseRadix (s : string) : option number :=
  match s with
  | String "0" (String x ds) =>
      let literal (base : Z) (ok : ascii -> bool) : number :=
        let '(d, r) := spanChars ok ds in
        if truthy d && isEmpty r then ofZ (digitsValue base 0 d)
        else S754_nan in
      if Ascii.eqb x "x" || Ascii.eqb x "X"
      then Some (literal 16%Z isHexDigit)
      else if Ascii.eqb x "o" || Ascii.eqb x "O"
      then Some (literal 8%Z isOctDigit)
      else if Ascii.eqb x "b" || Ascii.eqb x "B"
      then Some (literal 2%Z isBinDigit)
      else None
  | _ => None
  end.

Definition Number (s : string) : number :=
  let t := trim s in
  if isEmpty t then num0
  else match parseRadix t with
       | Some n => n
       | None => parseDecimal t
       end.

(** [looksNumeric] of [detectColumns]: the property read is [None] when the
    row has no such key. *)
Definition looksNumeric (value : option string) : bool :=
  match value with
  | None => false
  | Some v =>
      let cleaned :=
        trim (removeChars (fun c => Ascii.eqb c COMMA || Ascii.eqb c PERCENT)
                          v) in
      if isEmpty cleaned then false else negb (isNaN (Number cleaned))
  end.

(** [numeric] of [normalizeRow] and [expandRows], on the text [String(val)]. *)
Definition numeric (val : string) : number :=
  let n :=
    Number (trim (removeChars (Ascii.eqb PERCENT)
                              (removeChars (Ascii.eqb COMMA) val))) in
  if isNaN n then num0 else n.

(** ** Data model *)

(** A row object of the tokenizer: header name to raw cell text. *)
Abbreviation row := (gmap string string).

(** The accessor property that every object created by [{}] inherits. *)
Definition PROTO : string := "__proto__".

(** [String(Object.prototype)] *)
Definition objectText : string := "[object Object]".

(** [row[h] = v] for a string [v].  The setter of [__proto__] ignores a
    value that is neither an object nor null, so that this one assignment
    leaves the row as it is; any other name becomes an own property. *)
Definition setProp (h v : string) (r : row) : row :=
  if String.eqb h PROTO then r else <[h := v]> r.

(** [row[k]].  A row with no own property [__proto__] reads its prototype
    there: an object, truthy and not nullish, that the source only ever
    passes to [String]; it is carried by its text.  The other names that
    an object inherits ([toString], [constructor], ...) hold functions whose
    text depends on the engine; they are read here as undefined.  A row of
    [parseCsv] owns every header but [__proto__], so that such a read never
    happens on a parsed table; the properties below that range over
    arbitrary rows speak of own properties, and of a missing property only
    where undefined and any such function agree (neither reads as a
    number). *)
Definition getProp (r : row) (k : string) : option string :=
  match r !! k with
  | Some v => Some v
  | None => if String.eqb k PROTO then Some objectText else None
  end.

Module Parsed.
Record t : Type := mk {
  headers : list string;
  rows : list row;
  rawHeaders : list string
}.
End Parsed.

Module Meta.
Record t : Type := mk {
  headers : list string;
  productKey : option string;
  branchKey : option string;
  areaKey : option string;
  itemKey : option string;
  metricKey : option string;
  productColumns : list string;
  syntheticProduct : bool;
  syntheticProductLabel : string;
  rawHeaders : list string
}.
End Meta.

(** A normalized record. *)
Module Rec.
Record t : Type := mk {
  product : string;
  item : string;
  branch : string;
  area : string;
  metric : number
}.
End Rec.

Module Filters.
Record t : Type := mk {
  product : string;
  branch : string;
  area : string;
  group : string
}.
End Filters.

(** The sentinel of an unconstrained filter. *)
Definition ALL : string := "__all".

(** ** Tokenizer *)

(** [l.trim() === ''] *)
Definition isBlank (s : string) : bool := isEmpty (trim s).

Definition toLines (text : string) : list string :=
  List.filter (fun l => negb (isBlank l))
              (map trimEnd (split LF (replaceCRLF text))).

Definition detectDelimiter (lines : list string) : ascii :=
  let firstLine :=
    match List.find (fun l => negb (isBlank l)) lines with
    | Some l => l
    | None => EmptyString
    end in
  let commaCount := countChar COMMA firstLine in
  let tabCount := countChar TAB firstLine in
  if commaCount <? tabCount then TAB else COMMA.

(** The quote-aware loop of [splitCsvLine]; [line] is what is left to read. *)
Fixpoint splitQuoted (delimiter : ascii) (line current : string)
    (inQuotes : bool) (result : list string) {struct line} : list string :=
  match line with
  | EmptyString => result ++ [current]
  | String ch rest =>
      if Ascii.eqb ch DQUOTE then
        match rest with
        | String ch' rest' =>
            if inQuotes && Ascii.eqb ch' DQUOTE
            then splitQuoted delimiter rest' (current +:+ str1 DQUOTE)
                             inQuotes result
            else splitQuoted delimiter rest current (negb inQuotes) result
        | EmptyString =>
            splitQuoted delimiter rest current (negb inQuotes) result
        end
      else if Ascii.eqb ch delimiter && negb inQuotes
      then splitQuoted delimiter rest EmptyString inQuotes (result ++ [current])
      else splitQuoted delimiter rest (current +:+ str1 ch) inQuotes result
  end.

Definition splitCsvLine (line : string) (delimiter : ascii) : list string :=
  if Ascii.eqb delimiter TAB then split TAB line
  else splitQuoted delimiter line EmptyString false [].

(** [Math.ceil(n * 0.3)].  The binary64 constant 0.3 lies just below three
    tenths, so the rounded product [n * 0.3] never exceeds [3 n / 10] and
    falls short of it by far less than one tenth: its ceiling is the integer
    ceiling of [3 n / 10], for every array length. *)
Definition ceil30 (n : nat) : nat := (3 * n + 9) / 10.

Definition isHeaderRow (cells : list string) : bool :=
  let texty := length (List.filter hasAlpha cells) in
  Nat.max 2 (ceil30 (length cells)) <=? texty.

(** The header scan of [parseCsv]: [i] is the loop index, and the result is
    the final [(headerIdx, maxCols)]. *)
Fixpoint scanHeader (allCells : list (list string)) (i headerIdx maxCols : nat)
    : nat * nat :=
  match allCells with
  | [] => (headerIdx, maxCols)
  | cells :: rest =>
      if isHeaderRow cells then (i, length cells)
      else if maxCols <? length cells
           then scanHeader rest (S i) i (length cells)
           else scanHeader rest (S i) headerIdx maxCols
  end.

(** The [while] loop of [sanitizeHeaders]: [name] is the current candidate
    and [attempt] the next suffix.  [None] stands for a loop that is still
    running when the fuel is spent. *)
Fixpoint freshName (fuel : nat) (used : gset string) (base name : string)
    (attempt : nat) : option string :=
  if decide (toLowerCase name ∈ used) then
    match fuel with
    | O => None
    | S fuel' =>
        freshName fuel' used base (base +:+ "_" +:+ pretty attempt) (S attempt)
    end
  else Some name.

Definition baseName (h : string) (idx : nat) : string :=
  let t := trim h in
  if truthy t then t else "col" +:+ pretty (idx + 1).

Fixpoint sanitizeFrom (idx : nat) (used : gset string) (headers : list string)
    : option (list string) :=
  match headers with
  | [] => Some []
  | h :: rest =>
      let base := baseName h idx in
      name ← freshName (size used) used base base 1;
      names ← sanitizeFrom (S idx) ({[toLowerCase name]} ∪ used) rest;
      Some (name :: names)
  end.

Definition sanitizeHeaders (headers : list string) : option (list string) :=
  sanitizeFrom 0 ∅ headers.

(** The [forEach] of [parseCsv] that fills one row object: [idx] is the
    position of the first header of [headers] in the full header list. *)
Fixpoint fillRow (idx : nat) (headers padded : list string) (r : row) : row :=
  match headers with
  | [] => r
  | h :: rest =>
      let cell :=
        match padded !! idx with Some v => v | None => EmptyString end in
      fillRow (S idx) rest padded (setProp h cell r)
  end.

Definition mkRow (headers cells : list string) : row :=
  let padded :=
    cells ++ replicate (length headers - length cells) EmptyString in
  fillRow 0 headers padded ∅.

(** [headerCells[0] && headerCells[0].toLowerCase().includes('branch')] *)
Definition startsWithBranch (headerCells : list string) : bool :=
  match headerCells with
  | h0 :: _ => truthy h0 && includes (toLowerCase h0) "branch"
  | [] => false
  end.

(** The header cells after the two repairs of [parseCsv]. *)
Definition repairHeader (headerCells firstDataCells : list string)
    (maxCols : nat) : list string :=
  let headerCells :=
    if startsWithBranch headerCells
       && (length firstDataCells =? length headerCells + 1)
    then "Area" :: headerCells else headerCells in
  if length headerCells <? maxCols then
    headerCells
    ++ map (fun i => "col" +:+ pretty (length headerCells + i + 1))
           (seq 0 (maxCols - length headerCells))
  else headerCells.

Definition emptyTable : Parsed.t := Parsed.mk [] [] [].

(** [parseCsv]; [None] only if a renaming loop of [sanitizeHeaders] did not
    end, which Part II shows never to happen. *)
Definition parseCsv (text : string) : option Parsed.t :=
  let lines := toLines text in
  match lines with
  | [] => Some emptyTable
  | _ :: _ =>
      let delimiter := detectDelimiter lines in
      let allCells := map (fun l => splitCsvLine l delimiter) lines in
      let '(headerIdx, maxCols) := scanHeader allCells 0 0 0 in
      let headerCells := nth headerIdx allCells [] in
      let firstDataCells :=
        match List.find (existsb (fun v => negb (isBlank v)))
                        (skipn (S headerIdx) allCells) with
        | Some c => c
        | None => []
        end in
      let headerCells := repairHeader headerCells firstDataCells maxCols in
      headers ← sanitizeHeaders headerCells;
      Some (Parsed.mk headers
              (map (mkRow headers)
                   (List.filter (fun cells => negb (forallb isBlank cells))
                                (skipn (S headerIdx) allCells)))
              headerCells)
  end.

(** ** Schema inferencer *)

Fixpoint findIndex {A : Type} (p : A -> bool) (l : list A) : option nat :=
  match l with
  | [] => None
  | x :: l' => if p x then Some 0 else S <$> findIndex p l'
  end.

(** [findHeader] of [detectColumns] *)
Definition findHeader (headers candidates : list string) : option string :=
  match findIndex (arrayIncludes candidates) (map toLowerCase headers) with
  | Some idx => headers !! idx
  | None => None
  end.

(** [arr.slice(from, to)] for [from <= to] *)
Definition slice {A : Type} (from to : nat) (l : list A) : list A :=
  firstn (to - from) (skipn from l).

Definition productCandidates : list string :=
  ["product"; "item"; "sku"; "product name"; "material"; "pork bbq"].
Definition branchCandidates : list string :=
  ["branch"; "store"; "location"; "office"].
Definition areaCandidates : list string :=
  ["area"; "region"; "zone"; "territory"].
Definition itemCandidates : list string :=
  ["item description"; "item"; "description"; "item desc"].
Definition metricCandidates : list string :=
  ["alloc"; "average"; "avg"; "value"; "amount"; "metric"; "qty"; "quantity";
   "total"; "sales"; "volume"; "pork bbq"; "daily sales";
   "kg conversion per pc"].

Definition fixedProducts : list string :=
  ["backribs"; "chicken paa"; "chicken pecho"; "pork bbq"; "spareribs"].

Definition banned : list string :=
  ["sum"; "avg"; "average"; "alloc"; "allocation"; "conversion"; "target";
   "total"; "uom"; "branch"; "area"; "metric"; "value"; "amount"; "qty";
   "quantity"; "sales"; "volume"; "%"; "kg"].

Definition isProductish (h : string) : bool :=
  negb (existsb (includes (toLowerCase h)) banned).

Definition defaultLabel : string := "All Products".

(** [numericHeaders] *)
Definition numericHeaders (headers : list string) (rows : list row)
    : list string :=
  List.filter
    (fun h => existsb (fun r : row => looksNumeric (getProp r h)) rows)
    headers.

(** The area fallback: the first column stands in for a missing area column
    when a branch column exists. *)
Definition areaFallback (headers : list string) (rows : list row)
    (branchKey areaKey : option string) : option string :=
  if negb (keySet areaKey) && keySet branchKey then
    let firstHeader := headers !! 0 in
    let sampleValues :=
      List.filter truthy
        (map (fun r : row =>
                match firstHeader ≫= getProp r with
                | Some v => trim v
                | None => EmptyString
                end) rows) in
    let allNumeric :=
      (0 <? length sampleValues)
      && forallb (fun v => looksNumeric (Some v)) sampleValues in
    if negb (bool_decide (firstHeader = branchKey))
       && (3 <? length sampleValues) && negb allNumeric
    then firstHeader else areaKey
  else areaKey.

(** The lower-cased truthy role keys, as the [Set] named [reserved]. *)
Definition reservedSet (keys : list (option string)) : gset string :=
  list_to_set
    (map toLowerCase
         (omap (fun k : option string => if keySet k then k else None) keys)).

(** The product columns: the numeric headers that are no role key, the
    fixed-position override, and the positional fallback. *)
Definition detectProductColumns (headers : list string) (computed : list string)
    : list string :=
  let fixedSlice := List.filter truthy (slice 2 7 headers) in
  let fixedMatch :=
    List.filter (fun h => arrayIncludes fixedProducts (toLowerCase h))
                fixedSlice in
  if 0 <? length fixedMatch then fixedMatch
  else if (length computed =? 0) && (3 <=? length headers) then
    let sl :=
      List.filter (fun h => truthy h && truthy (trim h))
                  (slice 2 (Nat.min (length headers) 7) headers) in
    if 0 <? length sl then sl else computed
  else computed.

(** The synthetic product label, computed when no product key and no product
    column was found. *)
Definition syntheticLabel (rawHeaders : list string)
    (finalMetricKey : option string) : string :=
  let cleanedRaw := List.filter truthy (map trim rawHeaders) in
  let productish := List.find isProductish cleanedRaw in
  let label :=
    match productish with
    | Some p => if truthy p then p else defaultLabel
    | None => defaultLabel
    end in
  if negb (truthy label) && keySet finalMetricKey
  then default label finalMetricKey
  else label.

Definition detectColumns (headers : list string) (rows : list row)
    (rawHeaders : list string) : Meta.t :=
  let productKey := findHeader headers productCandidates in
  let branchKey := findHeader headers branchCandidates in
  let areaKey := findHeader headers areaCandidates in
  let itemKey := findHeader headers itemCandidates in
  let areaKey := areaFallback headers rows branchKey areaKey in
  let metricKey := findHeader headers metricCandidates in
  let reserved := reservedSet [productKey; branchKey; areaKey; itemKey] in
  let productColumns :=
    List.filter (fun h => negb (bool_decide (toLowerCase h ∈ reserved)))
                (numericHeaders headers rows) in
  let productColumns := detectProductColumns headers productColumns in
  let finalMetricKey :=
    if keySet metricKey then metricKey
    else if length productColumns =? 1 then productColumns !! 0 else None in
  let synthetic := negb (keySet productKey) && (length productColumns =? 0) in
  Meta.mk headers productKey branchKey areaKey itemKey finalMetricKey
          productColumns synthetic
          (if synthetic then syntheticLabel rawHeaders finalMetricKey
           else defaultLabel)
          rawHeaders.

(** ** Row expander *)

(** [cleanText]: [key ? String(row[key] ?? '').trim() : ''] *)
Definition cleanText (r : row) (key : option string) : string :=
  match key with
  | Some k =>
      if truthy k
      then trim (default EmptyString (getProp r k))
      else EmptyString
  | None => EmptyString
  end.

Definition normalizeRow (r : row) (meta : Meta.t) : Rec.t :=
  let syntheticLabel :=
    if truthy (Meta.syntheticProductLabel meta)
    then Meta.syntheticProductLabel meta else defaultLabel in
  let productValue :=
    if keySet (Meta.productKey meta) then cleanText r (Meta.productKey meta)
    else syntheticLabel in
  Rec.mk productValue
         (cleanText r (Meta.itemKey meta))
         (cleanText r (Meta.branchKey meta))
         (cleanText r (Meta.areaKey meta))
         (numeric (match Meta.metricKey meta with
                   | Some k => if truthy k then toStr (getProp r k) else "0"
                   | None => "0"
                   end)).

(** The records one row pushes on the wide path, after [expanded]. *)
Definition expandRow (meta : Meta.t) (expanded : list Rec.t) (r : row)
    : list Rec.t :=
  let baseArea := cleanText r (Meta.areaKey meta) in
  let baseBranch := cleanText r (Meta.branchKey meta) in
  let baseItem := cleanText r (Meta.itemKey meta) in
  fold_left
    (fun expanded col =>
       expanded ++ [Rec.mk col baseItem baseBranch baseArea
                           (numeric (toStr (getProp r col)))])
    (Meta.productColumns meta) expanded.

Definition expandRows (rows : list row) (meta : Meta.t) : list Rec.t :=
  if 0 <? length (Meta.productColumns meta)
  then fold_left (expandRow meta) rows []
  else map (fun r => normalizeRow r meta) rows.

(** ** Record filter of the [App] component *)

Definition rowPasses (meta : Meta.t) (filters : Filters.t) (r : Rec.t) : bool :=
  let productOk :=
    String.eqb (Filters.product filters) ALL
    || String.eqb (Rec.product r) (Filters.product filters) in
  let branchOk :=
    negb (keySet (Meta.branchKey meta))
    || String.eqb (Filters.branch filters) ALL
    || String.eqb (Rec.branch r) (Filters.branch filters) in
  let areaOk :=
    negb (keySet (Meta.areaKey meta))
    || String.eqb (Filters.area filters) ALL
    || String.eqb (Rec.area r) (Filters.area filters) in
  productOk && branchOk && areaOk.

Definition filteredRows (dataRows : list Rec.t) (meta : Meta.t)
    (filters : Filters.t) : list Rec.t :=
  List.filter (rowPasses meta filters) dataRows.

(** ** Aggregator *)

(** [r[key]] for the key that [aggregate] derives from the dimension. *)
Definition dimValue (dimension : string) (r : Rec.t) : string :=
  if String.eqb dimension "branch" then Rec.branch r
  else if String.eqb dimension "area" then Rec.area r
  else Rec.product r.

(** [r[key] || 'Unspecified'] *)
Definition labelOf (dimension : string) (r : Rec.t) : string :=
  let v := dimValue dimension r in
  if truthy v then v else "Unspecified".

(** A [Map] from labels to numbers, in insertion order. *)
Definition totalsMap : Type := list (string * number).

Fixpoint mapGet (k : string) (m : totalsMap) : option number :=
  match m with
  | [] => None
  | (k', v) :: m' => if String.eqb k' k then Some v else mapGet k m'
  end.

Fixpoint mapSet (k : string) (v : number) (m : totalsMap) : totalsMap :=
  match m with
  | [] => [(k, v)]
  | (k', v') :: m' =>
      if String.eqb k' k then (k', v) :: m' else (k', v') :: mapSet k v m'
  end.

(** [totals.get(label) || 0] *)
Definition getOrZero (k : string) (m : totalsMap) : number :=
  match mapGet k m with
  | Some v => if numTruthy v then v else num0
  | None => num0
  end.

Definition accumulate (dimension : string) (totals : totalsMap) (r : Rec.t)
    : totalsMap :=
  let label := labelOf dimension r in
  mapSet label (add (getOrZero label totals) (Rec.metric r)) totals.

(** [Array.prototype.sort] is stable; with a comparator that is a consistent
    ordering the result is the one sorted arrangement that keeps equal
    elements in their order, which insertion from the left computes.  The
    comparator returns a number; a positive one puts its first argument
    after its second; NaN counts as zero.  With an inconsistent comparator
    the order is the engine's own and [sort] does not model it: for
    [byValueDesc] that is the case exactly when some total is NaN, which
    needs an infinite metric.  What is stated below about the order of
    [aggregate] is stated for finite metrics or for a single group; with
    a NaN total only the groups and their totals are meant. *)
Fixpoint insertSorted {A : Type} (comparefn : A -> A -> number) (x : A)
    (sorted : list A) : list A :=
  match sorted with
  | [] => [x]
  | y :: rest =>
      if isPositive (comparefn y x) then x :: y :: rest
      else y :: insertSorted comparefn x rest
  end.

Definition sort {A : Type} (comparefn : A -> A -> number) (l : list A)
    : list A :=
  fold_left (fun sorted x => insertSorted comparefn x sorted) l [].

(** [(a, b) => b.value - a.value] *)
Definition byValueDesc (a b : string * number) : number := sub (snd b) (snd a).

Definition aggregate (rows : list Rec.t) (dimension : string)
    : list (string * number) :=
  sort byValueDesc (fold_left (accumulate dimension) rows []).

(** [filteredRows.reduce((sum, r) => sum + r.metric, 0)] *)
Definition sumMetric (rows : list Rec.t) : number :=
  fold_left (fun sum r => add sum (Rec.metric r)) rows num0.

(** ** Ingestion: the [onload] handler of [handleFileChange] *)

Inductive Outcome : Type :=
  | NoDataRows
  | MissingColumns
  | Loaded (rows : list Rec.t) (meta : Meta.t) (group : string).

Definition insufficient (detected : Meta.t) : bool :=
  negb (keySet (Meta.metricKey detected))
  && (length (Meta.productColumns detected) =? 0).

Definition ingestParsed (parsed : Parsed.t) : Outcome :=
  if length (Parsed.rows parsed) =? 0 then NoDataRows
  else
    let detected :=
      detectColumns (Parsed.headers parsed) (Parsed.rows parsed)
                    (Parsed.rawHeaders parsed) in
    if insufficient detected then MissingColumns
    else
      Loaded (expandRows (Parsed.rows parsed) detected) detected
             (if keySet (Meta.branchKey detected) then "branch"
              else if keySet (Meta.areaKey detected) then "area"
              else "product").

Definition ingest (text : string) : option Outcome :=
  ingestParsed <$> parseCsv text.

(** ** Selectors of the [App] component *)

(** [groupOptions]: the value and the label of each option of the group
    selector. *)
Definition groupOptions (meta : Meta.t) : list (string * string) :=
  [("product", "Product")]
  ++ (if keySet (Meta.branchKey meta) then [("branch", "Branch")] else [])
  ++ (if keySet (Meta.areaKey meta) then [("area", "Area")] else []).

(** The effect that follows [groupOptions]: a group that is no option is
    replaced by the first option. *)
Definition groupFallback (meta : Meta.t) (filters : Filters.t) : Filters.t :=
  if existsb (fun opt => String.eqb (fst opt) (Filters.group filters))
             (groupOptions meta)
  then filters
  else
    let fallback :=
      match groupOptions meta with
      | opt :: _ => if truthy (fst opt) then fst opt else "product"
      | [] => "product"
      end in
    Filters.mk (Filters.product filters) (Filters.branch filters)
               (Filters.area filters) fallback.

(** [groupDimension] *)
Definition groupDimension (meta : Meta.t) (filters : Filters.t) : string :=
  if keySet (Meta.branchKey meta)
     && negb (String.eqb (Filters.branch filters) ALL)
  then "product"
  else if truthy (Filters.group filters) then Filters.group filters
       else "product".

(** The filters that [handleFileChange] sets after a load. *)
Definition loadedFilters (group : string) : Filters.t :=
  Filters.mk ALL ALL ALL group.

(** ** Option lists of the [App] component *)

(** [new Set(values)], as the array of its elements: a value is added at
    the end unless the set has it. *)
Definition setAdd (set : list string) (x : string) : list string :=
  if existsb (String.eqb x) set then set else set ++ [x].

Definition newSet (values : list string) : list string :=
  fold_left setAdd values [].

(** The comparison of [sort()] without a comparator, on strings: by code
    units, a proper prefix first. *)
Definition defaultCompare (x y : string) : number :=
  if String.ltb x y then ofZ (-1)
  else if String.ltb y x then ofZ 1
  else num0.

(** [uniqueValues(rows, key)], for a key whose values are strings; the key
    is given as the field it reads. *)
Definition uniqueValues (rows : list Rec.t) (key : Rec.t -> string)
    : list string :=
  sort defaultCompare (newSet (List.filter truthy (map key rows))).

Definition productOptions (dataRows : list Rec.t) : list string :=
  uniqueValues dataRows Rec.product.

Definition areaOptions (dataRows : list Rec.t) (meta : Meta.t) : list string :=
  if keySet (Meta.areaKey meta) then uniqueValues dataRows Rec.area else [].

Definition branchOptions (dataRows : list Rec.t) (meta : Meta.t)
    (filters : Filters.t) : list string :=
  if negb (keySet (Meta.branchKey meta)) then []
  else
    let scopedRows :=
      if String.eqb (Filters.area filters) ALL
         || negb (keySet (Meta.areaKey meta))
      then dataRows
      else List.filter
             (fun r => String.eqb (Rec.area r) (Filters.area filters))
             dataRows in
    uniqueValues scopedRows Rec.branch.

(** ** Captions and colours of the [App] component *)

(** [filterState]: the caption that names the active filters. *)
Definition filterState (meta : Meta.t) (filters : Filters.t) : string :=
  let parts :=
    (if negb (String.eqb (Filters.product filters) ALL)
     then ["Product: " +:+ Filters.product filters] else [])
    ++ (if keySet (Meta.branchKey meta)
           && negb (String.eqb (Filters.branch filters) ALL)
        then ["Branch: " +:+ Filters.branch filters] else [])
    ++ (if keySet (Meta.areaKey meta)
           && negb (String.eqb (Filters.area filters) ALL)
        then ["Area: " +:+ Filters.area filters] else []) in
  if 0 <? length parts then join " | " parts else "No filters".

(** [metricLabel]: the caption that names the source of the metric. *)
Definition metricLabel (meta : Meta.t) : string :=
  if 0 <? length (Meta.productColumns meta)
  then "Metric: product column values"
  else "Metric: "
       +:+ match Meta.metricKey meta with
           | Some k => if truthy k then k else "first numeric column"
           | None => "first numeric column"
           end.

Definition palette : list string :=
  ["#2f80ed"; "#56ccf2"; "#7bc86c"; "#f2994a"; "#eb5757"; "#bb6bd9";
   "#6fcf97"; "#f2c94c"].

(** [pickColor], for the index of a bar; [None] is undefined. *)
Definition pickColor (index : nat) : option string :=
  palette !! (index mod length palette).

(** The record that the wide path emits for row [r] and column [col]. *)
Definition wideRecord (meta : Meta.t) (r : row) (col : string) : Rec.t :=
  Rec.mk col
         (cleanText r (Meta.itemKey meta))
         (cleanText r (Meta.branchKey meta))
         (cleanText r (Meta.areaKey meta))
         (numeric (toStr (getProp r col))).

(** The column set computed from the numeric headers, before the
    fixed-position override: the numeric headers that are no role key. *)
Definition computedColumns (headers : list string) (rows : list row)
    : list string :=
  let productKey := findHeader headers productCandidates in
  let branchKey := findHeader headers branchCandidates in
  let areaKey :=
    areaFallback headers rows branchKey (findHeader headers areaCandidates) in
  let itemKey := findHeader headers itemCandidates in
  let reserved := reservedSet [productKey; branchKey; areaKey; itemKey] in
  List.filter (fun h => negb (bool_decide (toLowerCase h ∈ reserved)))
              (numericHeaders headers rows).

(** The headers at positions 3 to 7 that name a known product. *)
Definition fixedMatches (headers : list string) : list string :=
  List.filter (fun h => arrayIncludes fixedProducts (toLowerCase h))
              (slice 2 7 headers).

Definition isNil {A : Type} (l : list A) : bool :=
  match l with [] => true | _ :: _ => false end.

(** The header scan without the texty test: the widest row so far. *)
Fixpoint scanWidest (allCells : list (list string)) (i headerIdx maxCols : nat)
    : nat * nat :=
  match allCells with
  | [] => (headerIdx, maxCols)
  | cells :: rest =>
      if maxCols <? length cells
      then scanWidest rest (S i) i (length cells)
      else scanWidest rest (S i) headerIdx maxCols
  end.

(** The names the renaming loop tries, in order: the base, then the base
    with suffix 1, 2, ... *)
Definition candidate (base : string) (k : nat) : string :=
  match k with
  | O => base
  | S _ => base +:+ "_" +:+ pretty k
  end.

(** ** Specification vocabulary for numbers and aggregation *)

(** The least exponent of a binary64 number. *)
Definition emin : Z := SpecFloat.emin prec emax.

(** Well-formed numbers: the exponent of a finite one is at least [emin],
    so that it is a whole multiple of [2 ^ emin]. *)
Definition wellFormed (x : number) : bool :=
  match x with
  | S754_finite _ _ e => (emin <=? e)%Z
  | _ => true
  end.

(** The exact value of a finite number, in units of [2 ^ emin]. *)
Definition scaled (x : number) : Z :=
  match x with
  | S754_finite s m e => cond_Zopp s (Zpos m * 2 ^ (e - emin))
  | _ => 0%Z
  end.

Definition rank (x : number) : Z :=
  match x with
  | S754_infinity false => 1%Z
  | S754_infinity true => (-1)%Z
  | _ => 0%Z
  end.

(** [x < y] on numbers that are not NaN: by exact value, the infinities at
    the two ends. *)
Definition numLtb (x y : number) : bool :=
  ((rank x <? rank y) || (rank x =? rank y) && (scaled x <? scaled y))%Z.

(** What the running total of [aggregate] satisfies: no NaN, no negative
    zero, well-formed. *)
Definition accOK (x : number) : Prop :=
  isNaN x = false /\ x <> S754_zero true /\ wellFormed x = true.

(** The labels of a list in order of first appearance. *)
Fixpoint firstSeen (labels : list string) : list string :=
  match labels with
  | [] => []
  | l :: rest =>
      l :: List.filter (fun x => negb (String.eqb x l)) (firstSeen rest)
  end.

(** The position at which a label first appears. *)
Fixpoint firstPos (l : string) (labels : list string) : nat :=
  match labels with
  | [] => 0
  | x :: rest => if String.eqb x l then 0 else S (firstPos l rest)
  end.

(** The metrics of the records that carry a label, in record order. *)
Definition groupMetrics (dimension : string) (rows : list Rec.t)
    (label : string) : list number :=
  map Rec.metric
      (List.filter (fun r => String.eqb (labelOf dimension r) label) rows).

(** The sum of a list of numbers, added from the left starting at 0. *)
Definition jsSum (ms : list number) : number := fold_left add ms num0.

(** The total of a group as [aggregate] accumulates it: [(acc || 0) + m]. *)
Definition runningTotal (ms : list number) : number :=
  fold_left (fun acc m => add (if numTruthy acc then acc else num0) m) ms num0.

(** The entries of a [Map] whose value at each key is [f] of the key. *)
Definition keyed (f : string -> number) (keys : list string) : totalsMap :=
  map (fun l => (l, f l)) keys.

(** The integer that a finite number denotes when its value is one. *)
Definition intValue (x : number) : Z :=
  match x with
  | S754_finite s m e => cond_Zopp s (Z.shiftl (Zpos m) e)
  | _ => 0%Z
  end.

Definition Zsum (zs : list Z) : Z := fold_right Z.add 0%Z zs.

Definition ZsumAbs (zs : list Z) : Z :=
  fold_right (fun z acc => (Z.abs z + acc)%Z) 0%Z zs.

(** The table of a two-line file whose first header is [__proto__]. *)
Definition protoTable : Parsed.t :=
  Parsed.mk ["__proto__"; "Name"] [{["Name" := "2"]}] ["__proto__"; "Name"].

(** ** Specification vocabulary for texts and tables *)

(** The text of a cell between quotes, each quote of the cell doubled. *)
Fixpoint doubleQuotes (cell : string) : string :=
  match cell with
  | EmptyString => EmptyString
  | String c rest =>
      if Ascii.eqb c DQUOTE then String DQUOTE (String DQUOTE (doubleQuotes rest))
      else String c (doubleQuotes rest)
  end.

Definition quoteCell (cell : string) : string :=
  str1 DQUOTE +:+ doubleQuotes cell +:+ str1 DQUOTE.

(** The text that [looksNumeric] and [numeric] pass to [Number]: commas
    and percent signs removed, then trimmed. *)
Definition cleanNumber (v : string) : string :=
  trim (removeChars (fun c => Ascii.eqb c COMMA || Ascii.eqb c PERCENT) v).

(** A cell that can be written as it is: no comma, quote, line feed or tab
    in it, and no white space around it. *)
Definition plainCell (c : string) : bool :=
  (countChar COMMA c =? 0) && (countChar DQUOTE c =? 0)
  && (countChar LF c =? 0) && (countChar TAB c =? 0)
  && String.eqb (trim c) c.

(** The text of a table: one line of comma-joined cells for the headers
    and one for each row. *)
Definition writeCsv (headers : list string) (rows : list (list string))
    : string :=
  join (str1 LF) (map (join (str1 COMMA)) (headers :: rows)).

(** ** Specification vocabulary for records *)

(** A role key that is null or the empty header name. *)
Definition unset (key : option string) : Prop :=
  key = None \/ key = Some EmptyString.

(** [out] is the text of row [r] at role [key]: empty when the key is
    unset, the trimmed cell when the row owns the key. *)
Definition textAt (r : row) (key : option string) (out : string) : Prop :=
  (unset key -> out = EmptyString)
  /\ forall k v : string,
       key = Some k -> k <> EmptyString -> r !! k = Some v -> out = trim v.

(** [m] is the metric of row [r] at column [k]: the number that the cell
    spells once commas and percent signs are removed and the rest trimmed,
    0 when it spells none; 0 when the row does not own the column. *)
Definition metricAt (r : row) (k : string) (m : number) : Prop :=
  match r !! k with
  | Some v =>
      let n := Number (cleanNumber v) in
      m = if isNaN n then num0 else n
  | None => m = num0
  end.

(** The value of a record on a grouping dimension, and its group label. *)
Definition fieldOf (dimension : string) (r : Rec.t) : string :=
  if String.eqb dimension "branch" then Rec.branch r
  else if String.eqb dimension "area" then Rec.area r
  else Rec.product r.

Definition groupOf (dimension : string) (r : Rec.t) : string :=
  if isEmpty (fieldOf dimension r) then "Unspecified" else fieldOf dimension r.

(** The cells of the data lines of a text: the lines after the header line
    that are not blank in every cell. *)
Definition dataCells (text : string) : list (list string) :=
  let lines := toLines text in
  let table :=
    map (fun line => splitCsvLine line (detectDelimiter lines)) lines in
  List.filter (fun cells => negb (forallb isBlank cells))
              (skipn (S (fst (scanHeader table 0 0 0))) table).

(* ================================================================== *)
(** * Part II: properties *)
(* ================================================================== *)

(** ** Record filter *)

Lemma eqb_true_iff (s t : string) : String.eqb s t = true <-> s = t.
Proof. apply String.eqb_eq. Qed.

Lemma keySet_false (key : option string) : keySet key = false <-> unset key.
Proof.
  unfold unset, keySet, truthy.
  destruct key as [[|c k]|]; cbn [isEmpty negb]; split; intros H;
    auto; try discriminate H; destruct H; discriminate.
Qed.

(** The predicate of the filter, as a proposition. *)
Lemma rowPasses_iff (meta : Meta.t) (filters : Filters.t) (r : Rec.t) :
  rowPasses meta filters r = true <->
  (Filters.product filters = ALL \/ Rec.product r = Filters.product filters)
  /\ (keySet (Meta.branchKey meta) = false
      \/ Filters.branch filters = ALL
      \/ Rec.branch r = Filters.branch filters)
  /\ (keySet (Meta.areaKey meta) = false
      \/ Filters.area filters = ALL
      \/ Rec.area r = Filters.area filters).
Proof.
  unfold rowPasses.
  rewrite !andb_true_iff, !orb_true_iff, !eqb_true_iff, !negb_true_iff.
  tauto.
Qed.

(** C5.  The filtered records are exactly the loaded records for which the
    product filter is the unconstrained sentinel or equals the record's
    product, and likewise for branch and for area unless the schema has no
    such key: a dimension whose key is unset rejects no record, whatever
    its filter value.  The accepted records are kept in their order, as
    often as they occur. *)
Theorem filteredRows_accepts (dataRows : list Rec.t) (meta : Meta.t)
    (filters : Filters.t) :
  let accepted (r : Rec.t) : Prop :=
    (Filters.product filters = ALL \/ Rec.product r = Filters.product filters)
    /\ (unset (Meta.branchKey meta)
        \/ Filters.branch filters = ALL
        \/ Rec.branch r = Filters.branch filters)
    /\ (unset (Meta.areaKey meta)
        \/ Filters.area filters = ALL
        \/ Rec.area r = Filters.area filters) in
  (forall r : Rec.t,
     In r (filteredRows dataRows meta filters) <-> In r dataRows /\ accepted r)
  /\ sublist (filteredRows dataRows meta filters) dataRows
  /\ (forall l : list Rec.t,
        sublist l dataRows -> Forall accepted l ->
        sublist l (filteredRows dataRows meta filters)).
Proof.
  intros accepted.
  assert (Hacc : forall r, rowPasses meta filters r = true <-> accepted r).
  { intros r. unfold accepted. rewrite rowPasses_iff, !keySet_false. done. }
  unfold filteredRows. split; [|split].
  - intros r. rewrite filter_In, Hacc. done.
  - induction dataRows as [|x rows IH]; simpl; [constructor|].
    destruct (rowPasses meta filters x); by constructor.
  - intros l Hsub. induction Hsub as [|x l rows Hsub IH|x l rows Hsub IH];
      intros Hl; simpl.
    + constructor.
    + apply Forall_cons in Hl as [Hx Hl]. apply Hacc in Hx. rewrite Hx.
      constructor. by apply IH.
    + destruct (rowPasses meta filters x); [constructor|]; by apply IH.
Qed.

(** ** Row expander *)

(** The text at a role key: empty when the key is unset, the trimmed cell
    when the row holds the key. *)
Lemma cleanText_unset (r : row) (key : option string) :
  keySet key = false -> cleanText r key = EmptyString.
Proof.
  destruct key as [k|]; simpl; [|done].
  unfold cleanText. by intros ->.
Qed.

Lemma cleanText_own (r : row) (k v : string) :
  truthy k = true -> r !! k = Some v -> cleanText r (Some k) = trim v.
Proof.
  intros Hk Hv. unfold cleanText, getProp. by rewrite Hk, Hv.
Qed.

(** Numeric coercion: thousands separators and percent signs are dropped
    before the text is read; 1234.5 is [2469 / 2]. *)
Example numeric_separators :
  numeric "1,234.5%" = S754_finite false (2469 * 2 ^ 41) (-42).
Proof. vm_compute. reflexivity. Qed.

Example numeric_unparsable : numeric "n/a" = num0.
Proof. vm_compute. reflexivity. Qed.

Lemma expandRow_app (meta : Meta.t) (expanded : list Rec.t) (r : row) :
  expandRow meta expanded r
  = expanded ++ map (wideRecord meta r) (Meta.productColumns meta).
Proof.
  unfold expandRow.
  generalize (Meta.productColumns meta) as cols.
  intros cols; revert expanded.
  induction cols as [|col cols IH]; intros expanded; simpl.
  - by rewrite app_nil_r.
  - rewrite IH. by rewrite <- app_assoc.
Qed.

Lemma fold_expandRow (meta : Meta.t) (rows : list row) (expanded : list Rec.t) :
  fold_left (expandRow meta) rows expanded
  = expanded
    ++ flat_map (fun r => map (wideRecord meta r) (Meta.productColumns meta))
                rows.
Proof.
  revert expanded.
  induction rows as [|r rows IH]; intros expanded; simpl.
  - by rewrite app_nil_r.
  - rewrite IH, expandRow_app. by rewrite <- app_assoc.
Qed.

Lemma expandRows_wide (rows : list row) (meta : Meta.t) :
  Meta.productColumns meta <> [] ->
  expandRows rows meta
  = flat_map (fun r => map (wideRecord meta r) (Meta.productColumns meta)) rows.
Proof.
  intros Hne. unfold expandRows.
  destruct (Meta.productColumns meta) as [|c cs] eqn:Hpc; [done|].
  simpl. rewrite fold_expandRow, Hpc. done.
Qed.

Lemma expandRows_long (rows : list row) (meta : Meta.t) :
  Meta.productColumns meta = [] ->
  expandRows rows meta = map (fun r => normalizeRow r meta) rows.
Proof. intros Hpc. unfold expandRows. by rewrite Hpc. Qed.

(** Reading a block-structured list: block [i], offset [j]. *)
Lemma flat_map_lookup_block {A B : Type} (f : A -> list B) (n : nat)
    (l : list A) (i j : nat) (x : A) :
  (forall a, length (f a) = n) ->
  l !! i = Some x -> j < n ->
  flat_map f l !! (i * n + j) = f x !! j.
Proof.
  intros Hlen. revert i.
  induction l as [|a l IH]; intros i Hi Hj; [done|].
  destruct i as [|i]; simpl in *.
  - injection Hi as ->. rewrite lookup_app_l; [done|]. rewrite Hlen. lia.
  - rewrite lookup_app_r; rewrite Hlen; [|lia].
    replace (n + i * n + j - n) with (i * n + j) by lia. by apply IH.
Qed.

Lemma flat_map_length_block {A B : Type} (f : A -> list B) (n : nat)
    (l : list A) :
  (forall a, length (f a) = n) -> length (flat_map f l) = length l * n.
Proof.
  intros Hlen. induction l as [|a l IH]; simpl; [done|].
  rewrite length_app, Hlen, IH. done.
Qed.

Lemma removeChars_twice (p q : ascii -> bool) (s : string) :
  removeChars q (removeChars p s) = removeChars (fun c => p c || q c) s.
Proof.
  induction s as [|c s IH]; [done|]. simpl.
  destruct (p c); simpl; [done|]. destruct (q c); by rewrite IH.
Qed.

Lemma removeChars_ext (p q : ascii -> bool) (s : string) :
  (forall c, p c = q c) -> removeChars p s = removeChars q s.
Proof.
  intros Hpq. induction s as [|c s IH]; [done|]. simpl.
  by rewrite Hpq, IH.
Qed.

Lemma numeric_cleanNumber (v : string) :
  numeric v
  = if isNaN (Number (cleanNumber v)) then num0 else Number (cleanNumber v).
Proof.
  unfold numeric, cleanNumber. rewrite removeChars_twice.
  rewrite (removeChars_ext
             _ (fun c => Ascii.eqb c COMMA || Ascii.eqb c PERCENT)); [done|].
  intros c. by rewrite (Ascii.eqb_sym COMMA), (Ascii.eqb_sym PERCENT).
Qed.

Lemma cleanText_textAt (r : row) (key : option string) :
  textAt r key (cleanText r key).
Proof.
  split.
  - intros Hkey. apply cleanText_unset. by apply keySet_false.
  - intros k v -> Hk Hv. apply cleanText_own; [|done]. by destruct k.
Qed.

Lemma numeric_metricAt (r : row) (k : string) :
  metricAt r k (numeric (toStr (getProp r k))).
Proof.
  unfold metricAt, getProp. destruct (r !! k) as [v|].
  - apply numeric_cleanNumber.
  - destruct (String.eqb k PROTO); vm_compute; reflexivity.
Qed.

(** C3.  On the wide path the expander emits, for the row at position [i]
    and the product column at position [j], the record at position
    [i * |productColumns| + j]: its product is the column's header name, its
    metric the number that the row's cell at that column spells once commas
    and percent signs are removed and the rest trimmed (0 when it spells
    none), its item, branch and area the trimmed cells of the row at the
    role keys (empty when a key is unset); there are
    [|rows| * |productColumns|] records in all. *)
Theorem expandRows_wide_spec (rows : list row) (meta : Meta.t)
    (Hwide : Meta.productColumns meta <> []) :
  length (expandRows rows meta)
  = length rows * length (Meta.productColumns meta)
  /\ forall (i j : nat) (r : row) (col : string),
       rows !! i = Some r ->
       Meta.productColumns meta !! j = Some col ->
       exists rec : Rec.t,
         expandRows rows meta !! (i * length (Meta.productColumns meta) + j)
         = Some rec
         /\ Rec.product rec = col
         /\ metricAt r col (Rec.metric rec)
         /\ textAt r (Meta.itemKey meta) (Rec.item rec)
         /\ textAt r (Meta.branchKey meta) (Rec.branch rec)
         /\ textAt r (Meta.areaKey meta) (Rec.area rec).
Proof.
  rewrite expandRows_wide by done. split.
  - apply flat_map_length_block. intros a. by rewrite length_map.
  - intros i j r col Hi Hj. exists (wideRecord meta r col).
    split; [|split; [|split; [|split; [|split]]]].
    + rewrite (flat_map_lookup_block
                 _ (length (Meta.productColumns meta)) _ _ _ r).
      * rewrite list_lookup_fmap, Hj. done.
      * intros a. by rewrite length_map.
      * done.
      * by eapply lookup_lt_Some.
    + done.
    + apply numeric_metricAt.
    + apply cleanText_textAt.
    + apply cleanText_textAt.
    + apply cleanText_textAt.
Qed.

(** The wide expansion of the specification: product columns Backribs and
    Spareribs with cells 10 and 5, branch East. *)
Example expandRows_wide_example :
  expandRows
    [ <["Branch" := "East"]> (<["Spareribs" := "5"]> {["Backribs" := "10"]}) ]
    (Meta.mk ["Branch"; "Backribs"; "Spareribs"] None (Some "Branch") None None
             None ["Backribs"; "Spareribs"] false defaultLabel
             ["Branch"; "Backribs"; "Spareribs"])
  = [ Rec.mk "Backribs" EmptyString "East" EmptyString (ofZ 10);
      Rec.mk "Spareribs" EmptyString "East" EmptyString (ofZ 5) ].
Proof. vm_compute. reflexivity. Qed.

Lemma expandRows_wide_spec_witness :
  let rows : list row :=
    [ <["Branch" := "East"]> (<["Spareribs" := "5"]> {["Backribs" := "10"]}) ] in
  let meta :=
    Meta.mk ["Branch"; "Backribs"; "Spareribs"] None (Some "Branch") None None
            None ["Backribs"; "Spareribs"] false defaultLabel
            ["Branch"; "Backribs"; "Spareribs"] in
  Meta.productColumns meta <> []
  /\ (length (expandRows rows meta)
      = length rows * length (Meta.productColumns meta)
      /\ forall (i j : nat) (r : row) (col : string),
           rows !! i = Some r ->
           Meta.productColumns meta !! j = Some col ->
           exists rec : Rec.t,
             expandRows rows meta !! (i * length (Meta.productColumns meta) + j)
             = Some rec
             /\ Rec.product rec = col
             /\ metricAt r col (Rec.metric rec)
             /\ textAt r (Meta.itemKey meta) (Rec.item rec)
             /\ textAt r (Meta.branchKey meta) (Rec.branch rec)
             /\ textAt r (Meta.areaKey meta) (Rec.area rec)).
Proof.
  intros rows meta.
  assert (Hwide : Meta.productColumns meta <> []) by discriminate.
  exact (conj Hwide (expandRows_wide_spec rows meta Hwide)).
Defined.

(** Both paths read the metric through [numeric], from a cell of the row or
    from the literal 0 when no metric key is set. *)
Lemma expandRows_metric_source (rows : list row) (meta : Meta.t) (r : Rec.t) :
  In r (expandRows rows meta) ->
  exists val : string, Rec.metric r = numeric val.
Proof.
  intros Hin.
  destruct (Meta.productColumns meta) as [|c cs] eqn:Hpc.
  - rewrite expandRows_long in Hin by done.
    apply in_map_iff in Hin as (r0 & <- & _). simpl. eauto.
  - rewrite expandRows_wide in Hin by (rewrite Hpc; done).
    apply in_flat_map in Hin as (r0 & _ & Hin).
    apply in_map_iff in Hin as (col & <- & _). simpl. eauto.
Qed.

Lemma numeric_not_NaN (val : string) : isNaN (numeric val) = false.
Proof.
  unfold numeric.
  destruct (isNaN (Number _)) eqn:Hn; [reflexivity | exact Hn].
Qed.

(** The metric of the long path: the cell at the metric key, 0 without a
    metric key. *)
Lemma normalizeRow_metric (r : row) (meta : Meta.t) :
  (unset (Meta.metricKey meta) -> Rec.metric (normalizeRow r meta) = num0)
  /\ forall k : string,
       Meta.metricKey meta = Some k -> k <> EmptyString ->
       metricAt r k (Rec.metric (normalizeRow r meta)).
Proof.
  unfold normalizeRow. cbn [Rec.metric]. split.
  - intros [-> | ->]; vm_compute; reflexivity.
  - intros k -> Hk. destruct k as [|c k]; [done|]. cbn [truthy isEmpty negb].
    apply numeric_metricAt.
Qed.

(** C2, as the code has it.  No record of the expander, on either path,
    carries a NaN metric.  On the wide path the record at position
    [i * |productColumns| + j] has the metric of row [i] at product column
    [j]; on the long path the record at position [i] has the metric of row
    [i] at the metric key, and 0 when no metric key is set.  The metric of
    a row at a column is the number that the cell spells once commas and
    percent signs are removed and the rest trimmed, 0 when it spells none
    or the row has no such cell.  (That number, and so the metric, may be an
    infinity.) *)
Theorem expandRows_metric_not_NaN (rows : list row) (meta : Meta.t) :
  Forall (fun rec : Rec.t => isNaN (Rec.metric rec) = false)
         (expandRows rows meta)
  /\ (Meta.productColumns meta <> [] ->
      length (expandRows rows meta)
      = length rows * length (Meta.productColumns meta)
      /\ forall (i j : nat) (r : row) (col : string),
           rows !! i = Some r ->
           Meta.productColumns meta !! j = Some col ->
           exists rec : Rec.t,
             expandRows rows meta !! (i * length (Meta.productColumns meta) + j)
             = Some rec
             /\ metricAt r col (Rec.metric rec))
  /\ (Meta.productColumns meta = [] ->
      length (expandRows rows meta) = length rows
      /\ forall (i : nat) (r : row),
           rows !! i = Some r ->
           exists rec : Rec.t,
             expandRows rows meta !! i = Some rec
             /\ (unset (Meta.metricKey meta) -> Rec.metric rec = num0)
             /\ forall k : string,
                  Meta.metricKey meta = Some k -> k <> EmptyString ->
                  metricAt r k (Rec.metric rec)).
Proof.
  split; [|split].
  - apply List.Forall_forall. intros rec Hin.
    destruct (expandRows_metric_source rows meta rec Hin) as [val ->].
    apply numeric_not_NaN.
  - intros Hwide. rewrite expandRows_wide by done. split.
    + apply flat_map_length_block. intros a. by rewrite length_map.
    + intros i j r col Hi Hj. exists (wideRecord meta r col). split.
      * rewrite (flat_map_lookup_block
                   _ (length (Meta.productColumns meta)) _ _ _ r).
        -- rewrite list_lookup_fmap, Hj. done.
        -- intros a. by rewrite length_map.
        -- done.
        -- by eapply lookup_lt_Some.
      * apply numeric_metricAt.
  - intros Hlong. rewrite expandRows_long by done. split.
    + by rewrite length_map.
    + intros i r Hi. exists (normalizeRow r meta). split.
      * by rewrite list_lookup_fmap, Hi.
      * apply normalizeRow_metric.
Qed.

(** C2, as the specification has it, fails: a cell that spells Infinity is
    read as the number Infinity, which is no NaN and is kept. *)
Lemma expandRows_metric_infinite :
  exists (recs : list Rec.t) (meta : Meta.t) (group : string) (r : Rec.t),
    ingest ("Branch,Total" +:+ str1 LF +:+ "East,Infinity")
    = Some (Loaded recs meta group)
    /\ In r recs
    /\ isFinite (Rec.metric r) = false.
Proof.
  eexists _, _, _, _. split; [vm_compute; reflexivity|].
  split; [left; reflexivity | reflexivity].
Qed.

(** ** Schema inferencer *)

Lemma detectColumns_productColumns (headers : list string) (rows : list row)
    (rawHeaders : list string) :
  Meta.productColumns (detectColumns headers rows rawHeaders)
  = detectProductColumns headers (computedColumns headers rows).
Proof. reflexivity. Qed.

Lemma filter_filter_absorb {A : Type} (p q : A -> bool) (l : list A) :
  (forall x, p x = true -> q x = true) ->
  List.filter p (List.filter q l) = List.filter p l.
Proof.
  intros Hpq. induction l as [|x l IH]; simpl; [done|].
  destruct (q x) eqn:Hq; simpl.
  - by rewrite IH.
  - destruct (p x) eqn:Hp; [|done]. apply Hpq in Hp. congruence.
Qed.

Lemma filter_ext_bool {A : Type} (p q : A -> bool) (l : list A) :
  (forall x, p x = q x) -> List.filter p l = List.filter q l.
Proof.
  intros Hpq. induction l as [|x l IH]; simpl; [done|].
  by rewrite Hpq, IH.
Qed.

Lemma slice_min {A : Type} (l : list A) (from to : nat) :
  slice from (Nat.min (length l) to) l = slice from to l.
Proof.
  unfold slice.
  destruct (Nat.le_ge_cases (length l) to) as [Hle|Hge].
  - rewrite Nat.min_l by done.
    rewrite !firstn_all2; [done | | ]; rewrite length_skipn; lia.
  - by rewrite Nat.min_r.
Qed.

Lemma length_zero_isNil {A : Type} (l : list A) :
  (length l =? 0) = isNil l.
Proof. by destruct l. Qed.

Lemma length_pos_isNil {A : Type} (l : list A) :
  (0 <? length l) = negb (isNil l).
Proof. by destruct l. Qed.

(** C6.  The product columns are the fixed-position matches whenever a
    header at positions 3 to 7 is, up to case, a known product name; failing
    that, when the computed set is empty and there are at least 3 headers,
    they are the headers at positions 3 to 7 that are not blank; otherwise
    they are the computed set. *)
Theorem detectColumns_productColumns_spec (headers : list string)
    (rows : list row) (rawHeaders : list string) :
  Meta.productColumns (detectColumns headers rows rawHeaders)
  = if negb (isNil (fixedMatches headers)) then fixedMatches headers
    else if isNil (computedColumns headers rows) && (3 <=? length headers)
         then List.filter (fun h => negb (isBlank h)) (slice 2 7 headers)
         else computedColumns headers rows.
Proof.
  rewrite detectColumns_productColumns. unfold detectProductColumns.
  rewrite slice_min, length_zero_isNil, !length_pos_isNil.
  assert (Hfixed :
    List.filter (fun h => arrayIncludes fixedProducts (toLowerCase h))
                (List.filter truthy (slice 2 7 headers))
    = fixedMatches headers).
  { apply filter_filter_absorb. intros [|c s]; [discriminate | done]. }
  rewrite Hfixed.
  destruct (isNil (fixedMatches headers)); cbn [negb]; [|done].
  destruct (isNil (computedColumns headers rows)) eqn:Hc; cbn [andb]; [|done].
  destruct (3 <=? length headers); [|done].
  assert (Hsl :
    List.filter (fun h => truthy h && truthy (trim h)) (slice 2 7 headers)
    = List.filter (fun h => negb (isBlank h)) (slice 2 7 headers)).
  { apply filter_ext_bool. intros [|c s]; reflexivity. }
  rewrite Hsl.
  destruct (List.filter (fun h => negb (isBlank h)) (slice 2 7 headers));
    cbn [isNil negb]; [|done].
  by destruct (computedColumns headers rows).
Qed.

(** The label is the first product-like raw header, or the default: the
    metric key never enters, because the default that replaces a missing
    header is a non-empty string. *)
Lemma syntheticLabel_spec (rawHeaders : list string) (key : option string) :
  syntheticLabel rawHeaders key
  = default defaultLabel
            (List.find isProductish (List.filter truthy (map trim rawHeaders))).
Proof.
  unfold syntheticLabel.
  destruct (List.find _ _) as [p|] eqn:Hfind; simpl.
  - apply find_some in Hfind as [Hin _].
    apply filter_In in Hin as [_ Hp]. by rewrite !Hp.
  - done.
Qed.

(** C1, the divergence.  On the table with header Branch,Total and the data
    row East,n/a every raw header is on the deny list and the metric key
    resolves to Total, yet the synthetic label is the default; and whatever
    the headers, the label never depends on the metric key. *)
Theorem syntheticLabel_skips_metricKey :
  (exists (recs : list Rec.t) (meta : Meta.t) (group : string),
     ingest ("Branch,Total" +:+ str1 LF +:+ "East,n/a")
     = Some (Loaded recs meta group)
     /\ Meta.syntheticProduct meta = true
     /\ List.find isProductish
                  (List.filter truthy (map trim (Meta.rawHeaders meta))) = None
     /\ Meta.metricKey meta = Some "Total"
     /\ Meta.syntheticProductLabel meta = defaultLabel)
  /\ forall (rawHeaders : list string) (key key' : option string),
       syntheticLabel rawHeaders key = syntheticLabel rawHeaders key'.
Proof.
  split.
  - eexists _, _, _. split; [vm_compute; reflexivity|]. by vm_compute.
  - intros rawHeaders key key'. by rewrite !syntheticLabel_spec.
Qed.

(** ** Ingestion *)

Lemma filter_none {A : Type} (p : A -> bool) (l : list A) :
  (forall x, In x l -> p x = false) -> List.filter p l = [].
Proof.
  induction l as [|x l IH]; intros Hp; simpl; [done|].
  rewrite (Hp x) by (by left). apply IH. intros y Hy. apply Hp. by right.
Qed.

Lemma numericHeaders_nil (headers : list string) (rows : list row) :
  forallb (fun r : row =>
             forallb (fun h => negb (looksNumeric (getProp r h))) headers) rows
  = true ->
  numericHeaders headers rows = [].
Proof.
  intros Hall. apply filter_none. intros h Hh.
  apply not_true_is_false. intros Hex.
  apply existsb_exists in Hex as (r & Hr & Hnum).
  rewrite forallb_forall in Hall. specialize (Hall r Hr).
  rewrite forallb_forall in Hall. specialize (Hall h Hh).
  rewrite Hnum in Hall. discriminate.
Qed.

Lemma detectColumns_metricKey (headers : list string) (rows : list row)
    (rawHeaders : list string) :
  Meta.metricKey (detectColumns headers rows rawHeaders)
  = let columns := Meta.productColumns (detectColumns headers rows rawHeaders) in
    if keySet (findHeader headers metricCandidates)
    then findHeader headers metricCandidates
    else if length columns =? 1 then columns !! 0 else None.
Proof. reflexivity. Qed.

Lemma ingestParsed_missing_iff (parsed : Parsed.t) :
  ingestParsed parsed = MissingColumns <->
  Parsed.rows parsed <> []
  /\ keySet (Meta.metricKey
               (detectColumns (Parsed.headers parsed) (Parsed.rows parsed)
                              (Parsed.rawHeaders parsed))) = false
  /\ Meta.productColumns
       (detectColumns (Parsed.headers parsed) (Parsed.rows parsed)
                      (Parsed.rawHeaders parsed)) = [].
Proof.
  unfold ingestParsed, insufficient.
  remember (detectColumns _ _ _) as d eqn:Hd. clear Hd.
  rewrite !length_zero_isNil.
  destruct (Parsed.rows parsed) as [|r rs]; cbn [isNil].
  - split; [discriminate | intros [H _]; done].
  - destruct (keySet (Meta.metricKey d)); cbn [negb andb].
    + split; [discriminate | intros (_ & H & _); discriminate].
    + destruct (Meta.productColumns d); cbn [isNil].
      * split; [intros _; split; [discriminate | split; reflexivity]
               | reflexivity].
      * split; [discriminate | intros (_ & _ & H); discriminate].
Qed.

(** C9.  Ingestion answers with the missing-columns condition exactly when
    there are data rows and the inferred role map has neither a metric key
    nor a product column.  A table with header Notes,Comments, at least one
    data row and no numeric cell is such a case, as is the two-line file
    made of that header and the row foo,bar. *)
Theorem ingest_missing_columns (rows : list row)
    (Hrows : rows <> [])
    (Hnum : forallb (fun r : row =>
                       forallb (fun h => negb (looksNumeric (getProp r h)))
                               ["Notes"; "Comments"]) rows = true) :
  (forall parsed : Parsed.t,
     ingestParsed parsed = MissingColumns <->
     Parsed.rows parsed <> []
     /\ keySet (Meta.metricKey
                  (detectColumns (Parsed.headers parsed) (Parsed.rows parsed)
                                 (Parsed.rawHeaders parsed))) = false
     /\ Meta.productColumns
          (detectColumns (Parsed.headers parsed) (Parsed.rows parsed)
                         (Parsed.rawHeaders parsed)) = [])
  /\ ingestParsed (Parsed.mk ["Notes"; "Comments"] rows ["Notes"; "Comments"])
     = MissingColumns
  /\ ingest ("Notes,Comments" +:+ str1 LF +:+ "foo,bar") = Some MissingColumns.
Proof.
  split; [exact ingestParsed_missing_iff|].
  split; [|vm_compute; reflexivity].
  apply ingestParsed_missing_iff. cbn [Parsed.rows Parsed.headers Parsed.rawHeaders].
  split; [exact Hrows|].
  assert (Hcols :
    Meta.productColumns
      (detectColumns ["Notes"; "Comments"] rows ["Notes"; "Comments"]) = []).
  { rewrite detectColumns_productColumns. unfold computedColumns.
    rewrite numericHeaders_nil by exact Hnum. reflexivity. }
  split; [|exact Hcols].
  rewrite detectColumns_metricKey, Hcols. reflexivity.
Qed.

Lemma ingest_missing_columns_witness :
  let rows : list row := [ <["Comments" := "bar"]> {["Notes" := "foo"]} ] in
  rows <> []
  /\ forallb (fun r : row =>
                forallb (fun h => negb (looksNumeric (getProp r h)))
                        ["Notes"; "Comments"]) rows = true
  /\ ((forall parsed : Parsed.t,
         ingestParsed parsed = MissingColumns <->
         Parsed.rows parsed <> []
         /\ keySet (Meta.metricKey
                      (detectColumns (Parsed.headers parsed)
                                     (Parsed.rows parsed)
                                     (Parsed.rawHeaders parsed))) = false
         /\ Meta.productColumns
              (detectColumns (Parsed.headers parsed) (Parsed.rows parsed)
                             (Parsed.rawHeaders parsed)) = [])
      /\ ingestParsed
           (Parsed.mk ["Notes"; "Comments"] rows ["Notes"; "Comments"])
         = MissingColumns
      /\ ingest ("Notes,Comments" +:+ str1 LF +:+ "foo,bar")
         = Some MissingColumns).
Proof.
  intros rows.
  assert (Hrows : rows <> []) by discriminate.
  assert (Hnum : forallb (fun r : row =>
                            forallb (fun h => negb (looksNumeric (getProp r h)))
                                    ["Notes"; "Comments"]) rows = true)
    by (vm_compute; reflexivity).
  exact (conj Hrows (conj Hnum (ingest_missing_columns rows Hrows Hnum))).
Defined.

(** C9, as the specification has it, fails on the file that is the one
    line Notes,Comments: the role map inferred from its table has neither a
    metric key nor a product column, and ingestion answers that there are
    no data rows. *)
Lemma ingest_header_only :
  exists parsed : Parsed.t,
    parseCsv "Notes,Comments" = Some parsed
    /\ Parsed.headers parsed = ["Notes"; "Comments"]
    /\ Meta.metricKey
         (detectColumns (Parsed.headers parsed) (Parsed.rows parsed)
                        (Parsed.rawHeaders parsed)) = None
    /\ Meta.productColumns
         (detectColumns (Parsed.headers parsed) (Parsed.rows parsed)
                        (Parsed.rawHeaders parsed)) = []
    /\ ingest "Notes,Comments" = Some NoDataRows
    /\ ingest "Notes,Comments" <> Some MissingColumns.
Proof.
  eexists. split; [vm_compute; reflexivity|].
  split; [reflexivity|]. split; [vm_compute; reflexivity|].
  split; [vm_compute; reflexivity|].
  split; [vm_compute; reflexivity | vm_compute; discriminate].
Qed.

(** ** Tokenizer: delimiter and cells *)

(** The tab is chosen exactly when the first non-blank line has more tabs
    than commas. *)
Lemma detectDelimiter_tab (lines : list string) :
  detectDelimiter lines = TAB <->
  countChar COMMA (default EmptyString
                           (List.find (fun l => negb (isBlank l)) lines))
  < countChar TAB (default EmptyString
                           (List.find (fun l => negb (isBlank l)) lines)).
Proof.
  unfold detectDelimiter.
  replace (match List.find (fun l => negb (isBlank l)) lines with
           | Some l => l
           | None => EmptyString
           end)
    with (default EmptyString (List.find (fun l => negb (isBlank l)) lines))
    by (by destruct (List.find _ lines)).
  generalize (default EmptyString
                      (List.find (fun l => negb (isBlank l)) lines)).
  intros firstLine. cbv zeta.
  destruct (Nat.ltb_spec (countChar COMMA firstLine)
                         (countChar TAB firstLine)) as [Hlt|Hge].
  - done.
  - split; [discriminate | lia].
Qed.

Example detectDelimiter_commas :
  detectDelimiter ["a,b,c,d" +:+ str1 TAB +:+ "e"] = COMMA.
Proof. reflexivity. Qed.

Example detectDelimiter_tabs :
  detectDelimiter
    ["a,b" +:+ str1 TAB +:+ "c" +:+ str1 TAB +:+ "d" +:+ str1 TAB +:+ "e"]
  = TAB.
Proof. reflexivity. Qed.

(** A quoted cell keeps its commas, and a doubled quote inside quotes is one
    quote. *)
Example splitCsvLine_quoted :
  splitCsvLine ("a," +:+ str1 DQUOTE +:+ "b,c" +:+ str1 DQUOTE +:+ ",d") COMMA
  = ["a"; "b,c"; "d"].
Proof. reflexivity. Qed.

Example splitCsvLine_doubled_quote :
  splitCsvLine (str1 DQUOTE +:+ "a" +:+ str1 DQUOTE +:+ str1 DQUOTE +:+ "b"
                +:+ str1 DQUOTE) COMMA
  = ["a" +:+ str1 DQUOTE +:+ "b"].
Proof. reflexivity. Qed.

(** ** Tokenizer: header detection *)

Lemma ceil30_le (n t : nat) : ceil30 n <= t <-> 3 * n <= 10 * t.
Proof.
  unfold ceil30. split; intros H.
  - pose proof (Nat.div_mod_eq (3 * n + 9) 10) as Hd.
    pose proof (Nat.mod_upper_bound (3 * n + 9) 10 ltac:(lia)) as Hm. lia.
  - apply Nat.lt_succ_r, Nat.Div0.div_lt_upper_bound. lia.
Qed.

Lemma isHeaderRow_iff (cells : list string) :
  isHeaderRow cells = true <->
  2 <= length (List.filter hasAlpha cells)
  /\ 3 * length cells <= 10 * length (List.filter hasAlpha cells).
Proof.
  unfold isHeaderRow. rewrite Nat.leb_le, Nat.max_lub_iff, ceil30_le. done.
Qed.

Lemma findIndex_Some {A : Type} (p : A -> bool) (l : list A) (k : nat) :
  findIndex p l = Some k <->
  (exists x, l !! k = Some x /\ p x = true)
  /\ Forall (fun y => p y = false) (take k l).
Proof.
  revert k. induction l as [|a l IH]; intros k; simpl.
  - split; [discriminate | intros [(x & Hx & _) _]; done].
  - destruct (p a) eqn:Hpa.
    + split.
      * intros [= <-]. split; [by exists a | constructor].
      * intros [(x & Hx & Hpx) Hall]. destruct k as [|k]; [done|].
        simpl in Hall. inversion Hall; congruence.
    + destruct k as [|k]; simpl.
      * split.
        -- destruct (findIndex p l); discriminate.
        -- intros [(x & [= <-] & Hpx) _]. congruence.
      * split.
        -- intros H. destruct (findIndex p l) as [j|] eqn:Hj; [|done].
           injection H as ->. destruct (proj1 (IH k) eq_refl) as [Hx Hall].
           split; [done|]. by constructor.
        -- intros [Hx Hall]. inversion Hall; subst.
           assert (findIndex p l = Some k) as -> by (by apply IH).
           done.
Qed.

Lemma findIndex_None {A : Type} (p : A -> bool) (l : list A) :
  findIndex p l = None <-> Forall (fun y => p y = false) l.
Proof.
  induction l as [|a l IH]; simpl; [split; [constructor | done]|].
  rewrite Forall_cons. destruct (p a); [split; [discriminate | intros [? _]; done]|].
  rewrite <- IH. destruct (findIndex p l); simpl; split; try done.
  - intros [_ H]; done.
Qed.

Lemma scanHeader_Some (allCells : list (list string)) (i headerIdx maxCols k : nat) :
  findIndex isHeaderRow allCells = Some k ->
  fst (scanHeader allCells i headerIdx maxCols) = i + k.
Proof.
  revert i headerIdx maxCols k.
  induction allCells as [|cells rest IH]; intros i h m k; simpl; [done|].
  destruct (isHeaderRow cells).
  - intros [= <-]. simpl. lia.
  - destruct (findIndex isHeaderRow rest) as [j|] eqn:Hj; [|done].
    intros [= <-]. destruct (m <? length cells); rewrite (IH _ _ _ j) by done; lia.
Qed.

Lemma scanHeader_None (allCells : list (list string)) (i headerIdx maxCols : nat) :
  findIndex isHeaderRow allCells = None ->
  scanHeader allCells i headerIdx maxCols
  = scanWidest allCells i headerIdx maxCols.
Proof.
  revert i headerIdx maxCols.
  induction allCells as [|cells rest IH]; intros i h m; simpl; [done|].
  destruct (isHeaderRow cells); [done|].
  destruct (findIndex isHeaderRow rest) eqn:Hr; [done|].
  intros _. destruct (m <? length cells); by apply IH.
Qed.

(** The widest-row scan returns the incoming pair when no row is wider than
    [maxCols], and otherwise the first row of the greatest width. *)
Lemma scanWidest_spec (allCells : list (list string)) (i headerIdx maxCols : nat) :
  let '(h', m') := scanWidest allCells i headerIdx maxCols in
  Forall (fun c => length c <= m') allCells
  /\ ((h' = headerIdx /\ m' = maxCols)
      \/ exists k c, h' = i + k /\ allCells !! k = Some c /\ length c = m'
                     /\ maxCols < m'
                     /\ Forall (fun c' => length c' < m') (take k allCells)).
Proof.
  revert i headerIdx maxCols.
  induction allCells as [|cells rest IH]; intros i h m; simpl.
  - split; [constructor | left; done].
  - destruct (m <? length cells) eqn:Hlt.
    + apply Nat.ltb_lt in Hlt.
      specialize (IH (S i) i (length cells)).
      destruct (scanWidest rest (S i) i (length cells)) as [h' m'].
      destruct IH as [Hall Hcase].
      assert (Hm' : length cells <= m').
      { destruct Hcase as [[_ ->]|(k & c & _ & _ & _ & Hk & _)]; lia. }
      split; [constructor; [lia | done]|].
      right. destruct Hcase as [[-> ->]|(k & c & -> & Hk & Hc & Hlt' & Hbefore)].
      * exists 0, cells. simpl. repeat split; try done; try lia.
      * exists (S k), c. simpl. repeat split; try done; try lia.
        constructor; [lia | done].
    + apply Nat.ltb_ge in Hlt.
      specialize (IH (S i) h m).
      destruct (scanWidest rest (S i) h m) as [h' m'].
      destruct IH as [Hall Hcase].
      assert (Hm' : m <= m').
      { destruct Hcase as [[_ ->]|(k & c & _ & _ & _ & Hk & _)]; lia. }
      split; [constructor; [lia | done]|].
      destruct Hcase as [[-> ->]|(k & c & -> & Hk & Hc & Hlt' & Hbefore)].
      * left; done.
      * right. exists (S k), c. simpl. repeat split; try done; try lia.
        constructor; [lia | done].
Qed.

Lemma scanHeader_widest (allCells : list (list string)) :
  findIndex isHeaderRow allCells = None ->
  let idx := fst (scanHeader allCells 0 0 0) in
  (idx < length allCells \/ allCells = [])
  /\ Forall (fun c => length c <= length (nth idx allCells [])) allCells
  /\ Forall (fun c => length c < length (nth idx allCells [])) (take idx allCells).
Proof.
  intros Hnone. rewrite scanHeader_None by done.
  pose proof (scanWidest_spec allCells 0 0 0) as Hspec.
  destruct (scanWidest allCells 0 0 0) as [h' m']. simpl.
  destruct Hspec as [Hall [[-> ->]|(k & c & -> & Hk & Hc & Hlt & Hbefore)]].
  - split; [destruct allCells; [by right | left; simpl; lia]|].
    split; [|constructor].
    eapply Forall_impl; [exact Hall|]. intros c Hc. simpl in Hc. lia.
  - simpl. rewrite (nth_lookup_Some _ _ _ _ Hk), Hc.
    split; [left; by eapply lookup_lt_Some|]. done.
Qed.

(** C7.  A row is a header row exactly when its texty cells number at least
    2 and at least three tenths of its cells.  The scan stops on the first
    header row; when no row is one, it ends on the first of the widest rows.
    On the three lines of the specification's example the header is the
    line at index 1. *)
Theorem header_detection (allCells : list (list string)) :
  (forall cells : list string,
     isHeaderRow cells = true <->
     2 <= length (List.filter hasAlpha cells)
     /\ 3 * length cells <= 10 * length (List.filter hasAlpha cells))
  /\ (forall k : nat,
        findIndex isHeaderRow allCells = Some k <->
        (exists cells, allCells !! k = Some cells /\ isHeaderRow cells = true)
        /\ Forall (fun c => isHeaderRow c = false) (take k allCells))
  /\ (let idx := fst (scanHeader allCells 0 0 0) in
      match findIndex isHeaderRow allCells with
      | Some k => idx = k
      | None =>
          (idx < length allCells \/ allCells = [])
          /\ Forall (fun c => length c <= length (nth idx allCells []))
                    allCells
          /\ Forall (fun c => length c < length (nth idx allCells []))
                    (take idx allCells)
      end)
  /\ (let lines := ["metadata,,"; "Product,Branch,Value"; "Widgets,East,10"] in
      fst (scanHeader (map (fun l => splitCsvLine l (detectDelimiter lines))
                           lines) 0 0 0) = 1
      /\ Parsed.headers
           <$> parseCsv ("metadata,," +:+ str1 LF +:+ "Product,Branch,Value"
                         +:+ str1 LF +:+ "Widgets,East,10")
         = Some ["Product"; "Branch"; "Value"]).
Proof.
  split; [exact isHeaderRow_iff|].
  split; [intros k; apply findIndex_Some|].
  split; [|split; vm_compute; reflexivity].
  destruct (findIndex isHeaderRow allCells) as [k|] eqn:Hfind.
  - by rewrite (scanHeader_Some _ _ _ _ k).
  - by apply scanHeader_widest.
Qed.

(** ** Tokenizer: header sanitization *)

Lemma append_cons (c : ascii) (s t : string) :
  String c s +:+ t = String c (s +:+ t).
Proof. reflexivity. Qed.

Lemma toLowerCase_app (s t : string) :
  toLowerCase (s +:+ t) = toLowerCase s +:+ toLowerCase t.
Proof.
  induction s as [|c s IH]; [done|].
  rewrite append_cons. cbn [toLowerCase]. by rewrite append_cons, IH.
Qed.

Lemma toLowerCase_length (s : string) :
  String.length (toLowerCase s) = String.length s.
Proof.
  induction s as [|c s IH]; cbn [toLowerCase String.length]; [done|].
  by rewrite IH.
Qed.

Lemma append_length (s t : string) :
  String.length (s +:+ t) = String.length s + String.length t.
Proof.
  induction s as [|c s IH]; [done|].
  rewrite append_cons. cbn [String.length]. by rewrite IH.
Qed.

Lemma append_inj_l (s t u : string) : s +:+ t = s +:+ u -> t = u.
Proof.
  induction s as [|c s IH]; [done|].
  rewrite !append_cons. intros [= H]. auto.
Qed.

Lemma lowerChar_digit (x : N) : lowerChar (pretty_N_char x) = pretty_N_char x.
Proof. unfold pretty_N_char. repeat case_match; reflexivity. Qed.

Lemma pretty_N_go_lower (x : N) (s : string) :
  toLowerCase s = s -> toLowerCase (pretty_N_go x s) = pretty_N_go x s.
Proof.
  revert s. induction (N.lt_wf_0 x) as [x _ IH]; intros s Hs.
  assert (x = 0 \/ 0 < x)%N as [->|Hpos] by lia.
  - by rewrite pretty_N_go_0.
  - rewrite pretty_N_go_step by done. apply IH.
    + by apply N.div_lt.
    + simpl. by rewrite lowerChar_digit, Hs.
Qed.

Lemma pretty_nat_lower (n : nat) : toLowerCase (pretty n) = pretty n.
Proof.
  unfold pretty, pretty_nat, pretty, pretty_N.
  case_decide; [reflexivity | by apply pretty_N_go_lower].
Qed.

(** Distinct attempts give names that differ even up to case. *)
Lemma candidate_lower_inj (base : string) (j k : nat) :
  toLowerCase (candidate base j) = toLowerCase (candidate base k) -> j = k.
Proof.
  destruct j as [|j], k as [|k]; simpl; intros H; [done| | |].
  - apply (f_equal String.length) in H.
    rewrite !toLowerCase_length, append_length in H. simpl in H. lia.
  - apply (f_equal String.length) in H.
    rewrite !toLowerCase_length, append_length in H. simpl in H. lia.
  - rewrite !toLowerCase_app in H. apply append_inj_l in H.
    apply (append_inj_l (str1 "_")) in H.
    rewrite !pretty_nat_lower in H. by apply pretty_nat_inj in H.
Qed.

(** With [fuel] turns in hand the loop ends on the first free candidate, if
    one of the next [fuel + 1] candidates is free. *)
Lemma freshName_candidate (fuel : nat) (used : gset string) (base : string)
    (k : nat) :
  (exists j, k <= j <= k + fuel /\ toLowerCase (candidate base j) ∉ used) ->
  exists j, freshName fuel used base (candidate base k) (S k)
            = Some (candidate base j)
            /\ toLowerCase (candidate base j) ∉ used.
Proof.
  revert k. induction fuel as [|fuel IH]; intros k (j & Hj & Hfresh); simpl.
  - assert (j = k) as -> by lia. rewrite decide_False by done. by exists k.
  - case_decide as Hin; [|by exists k].
    assert (j <> k) by (intros ->; done).
    apply (IH (S k)). exists j. split; [lia | done].
Qed.

(** Among [size used + 1] candidates one is free. *)
Lemma fresh_candidate_exists (used : gset string) (base : string) :
  exists j, j <= size used /\ toLowerCase (candidate base j) ∉ used.
Proof.
  set (cands := (fun j => toLowerCase (candidate base j))
                <$> seq 0 (S (size used))).
  destruct (decide (Forall (fun s => s ∈ used) cands)) as [Hall|Hnot].
  - exfalso.
    assert (Hnd : NoDup cands).
    { apply NoDup_fmap_2_strong; [|apply NoDup_seq].
      intros j k _ _. apply candidate_lower_inj. }
    assert (Hle : size (list_to_set cands : gset string) <= size used).
    { apply subseteq_size. intros s Hs. apply elem_of_list_to_set in Hs.
      rewrite Forall_forall in Hall. by apply Hall. }
    rewrite size_list_to_set in Hle by done.
    unfold cands in Hle. rewrite length_fmap, length_seq in Hle. lia.
  - apply not_Forall_Exists in Hnot; [|apply _].
    apply Exists_exists in Hnot as (s & Hs & Hns).
    apply list_elem_of_fmap in Hs as (j & -> & Hj).
    apply elem_of_seq in Hj. exists j. split; [lia | done].
Qed.

(** [sanitizeHeaders] ends, and its names are pairwise distinct up to case
    and distinct from the names already in use. *)
Lemma sanitizeFrom_spec (headers : list string) (idx : nat) (used : gset string) :
  exists names,
    sanitizeFrom idx used headers = Some names
    /\ length names = length headers
    /\ NoDup (toLowerCase <$> names)
    /\ Forall (fun n => toLowerCase n ∉ used) names.
Proof.
  revert idx used. induction headers as [|h rest IH]; intros idx used; simpl.
  - exists []. repeat split; constructor.
  - destruct (fresh_candidate_exists used (baseName h idx)) as (j & Hj & Hfresh).
    destruct (freshName_candidate (size used) used (baseName h idx) 0)
      as (j' & Hname & Hfresh'); [exists j; split; [lia | done]|].
    simpl in Hname. rewrite Hname. simpl.
    set (name := candidate (baseName h idx) j') in *.
    destruct (IH (S idx) ({[toLowerCase name]} ∪ used))
      as (names & Hs & Hlen & Hnd & Hall).
    rewrite Hs. simpl. exists (name :: names).
    split; [done|]. split; [simpl; lia|]. split.
    + simpl. constructor; [|done].
      intros Hin. apply list_elem_of_fmap in Hin as (n & Hn & Hin).
      rewrite Forall_forall in Hall. specialize (Hall n Hin).
      apply Hall. rewrite <- Hn. set_solver.
    + constructor; [done|].
      eapply Forall_impl; [exact Hall|]. intros n Hn. set_solver.
Qed.

(** ** Tokenizer: row materialization *)

Lemma setProp_dom (h v : string) (r : row) :
  dom (setProp h v r) = ({[h]} ∖ {[PROTO]}) ∪ dom r.
Proof.
  unfold setProp. destruct (String.eqb_spec h PROTO) as [->|Hne].
  - by rewrite difference_diag_L, (left_id_L ∅ (∪)).
  - rewrite dom_insert_L. f_equal. symmetry. apply difference_disjoint_L.
    by apply disjoint_singleton_l, not_elem_of_singleton.
Qed.

Lemma fillRow_dom (headers padded : list string) (idx : nat) (r : row) :
  dom (fillRow idx headers padded r)
  = (list_to_set headers ∖ {[PROTO]}) ∪ dom r.
Proof.
  revert idx r. induction headers as [|h rest IH]; intros idx r; simpl.
  - apply set_eq. intros x. set_unfold. tauto.
  - rewrite IH, setProp_dom. apply set_eq. intros x. set_unfold. tauto.
Qed.

Lemma fillRow_lookup_other (headers padded : list string) (idx : nat) (r : row)
    (h : string) :
  h ∉ headers -> fillRow idx headers padded r !! h = r !! h.
Proof.
  revert idx r. induction headers as [|h' rest IH]; intros idx r Hh; simpl.
  - done.
  - rewrite IH by set_solver. unfold setProp.
    destruct (String.eqb h' PROTO); [done|].
    apply lookup_insert_ne. set_solver.
Qed.

Lemma fillRow_lookup (headers padded : list string) (idx i : nat) (r : row)
    (h : string) :
  NoDup headers -> headers !! i = Some h -> h <> PROTO ->
  fillRow idx headers padded r !! h
  = Some (default EmptyString (padded !! (idx + i))).
Proof.
  revert idx i r. induction headers as [|h' rest IH]; intros idx i r Hnd Hi Hp.
  - done.
  - apply NoDup_cons in Hnd as [Hh' Hnd]. destruct i as [|i]; simpl in *.
    + injection Hi as ->. rewrite fillRow_lookup_other by done.
      unfold setProp. destruct (String.eqb_spec h PROTO) as [|_]; [done|].
      rewrite lookup_insert_eq, Nat.add_0_r. by destruct (padded !! idx).
    + rewrite (IH (S idx) i) by done. by rewrite Nat.add_succ_r.
Qed.

(** A row object has the header names as keys, [__proto__] apart; the cell
    at a header's position is its value, and the empty string where the
    line has no such cell. *)
Lemma mkRow_dom (headers cells : list string) :
  dom (mkRow headers cells) = list_to_set headers ∖ {[PROTO]}.
Proof.
  unfold mkRow. by rewrite fillRow_dom, dom_empty_L, (right_id_L ∅ (∪)).
Qed.

Lemma mkRow_lookup (headers cells : list string) (i : nat) (h : string) :
  NoDup headers -> headers !! i = Some h -> h <> PROTO ->
  mkRow headers cells !! h = Some (default EmptyString (cells !! i)).
Proof.
  intros Hnd Hi Hp. unfold mkRow.
  rewrite (fillRow_lookup _ _ 0 i) by done. simpl. f_equal.
  destruct (decide (i < length cells)) as [Hlt|Hge].
  - by rewrite lookup_app_l.
  - rewrite lookup_app_r by lia.
    rewrite (lookup_ge_None_2 cells i) by lia.
    destruct (replicate _ _ !! _) as [v|] eqn:Hv; [|done].
    by apply lookup_replicate in Hv as [-> _].
Qed.

(** Reading the row at the name [__proto__] gives the prototype, whatever
    the line holds in that column. *)
Lemma mkRow_getProp_PROTO (headers cells : list string) :
  getProp (mkRow headers cells) PROTO = Some objectText.
Proof.
  unfold getProp.
  destruct (mkRow headers cells !! PROTO) as [v|] eqn:Hv; [|done].
  assert (PROTO ∈ dom (mkRow headers cells)) as Hin
    by (apply elem_of_dom; eauto).
  rewrite mkRow_dom in Hin. apply elem_of_difference in Hin as [_ Hin].
  by apply not_elem_of_singleton in Hin.
Qed.

(** ** Tokenizer: a header named [__proto__] *)

(** C8.  The tokenizer assigns every header of a row, [row[h] = ...], and
    misses the header [__proto__]: for the file whose two lines are
    [__proto__,Name] and [1,2] the headers are [__proto__] and [Name], and
    the one row of the table has the key [Name] alone; it reads as the
    prototype object at its first header, not as the cell 1. *)
Lemma parseCsv_proto_header :
  let text := "__proto__,Name" +:+ str1 LF +:+ "1,2" in
  parseCsv text = Some protoTable
  /\ Forall (fun r : row => dom r <> list_to_set (Parsed.headers protoTable))
            (Parsed.rows protoTable)
  /\ Forall (fun r : row => getProp r "__proto__" = Some objectText)
            (Parsed.rows protoTable).
Proof.
  split; [by vm_compute|]. split.
  - constructor; [|constructor]. simpl. intros Heq.
    assert (PROTO ∈ dom ({["Name" := "2"]} : row)) as Hin
      by (rewrite Heq; set_solver).
    rewrite dom_singleton_L in Hin. by apply elem_of_singleton in Hin.
  - by constructor.
Qed.

(** ** Binary64 arithmetic *)

Section FloatFacts.
Local Open Scope Z_scope.

Lemma shr_1_m (r : shr_record) :
  0 <= shr_m r -> shr_m (shr_1 r) = shr_m r / 2.
Proof.
  destruct r as [m rb sb]. simpl. intros Hm.
  rewrite <- Z.div2_div.
  destruct m as [|[p|p|]|p]; try reflexivity. lia.
Qed.

Lemma pow2_xI (p : positive) : 2 ^ Z.pos p~1 = 2 * 2 ^ Z.pos p * 2 ^ Z.pos p.
Proof.
  assert (Z.pos p~1 = 1 + Z.pos p + Z.pos p) as -> by lia.
  by rewrite !Z.pow_add_r by lia.
Qed.

Lemma pow2_xO (p : positive) : 2 ^ Z.pos p~0 = 2 ^ Z.pos p * 2 ^ Z.pos p.
Proof.
  assert (Z.pos p~0 = Z.pos p + Z.pos p) as -> by lia.
  by rewrite !Z.pow_add_r by lia.
Qed.

Lemma shr_iter_m (p : positive) (r : shr_record) :
  0 <= shr_m r ->
  shr_m (SpecFloat.iter_pos shr_1 p r) = shr_m r / 2 ^ Zpos p.
Proof.
  revert r. induction p as [p IH|p IH|]; intros r Hr; simpl.
  - assert (Hp : 0 < 2 ^ Z.pos p) by (apply Z.pow_pos_nonneg; lia).
    assert (H1 : 0 <= shr_m (shr_1 r)).
    { rewrite shr_1_m by done. apply Z.div_pos; lia. }
    assert (H2 : 0 <= shr_m (SpecFloat.iter_pos shr_1 p (shr_1 r))).
    { rewrite IH by done. apply Z.div_pos; lia. }
    rewrite IH, IH, shr_1_m by done.
    rewrite !Z.div_div by lia. f_equal. rewrite pow2_xI. ring.
  - assert (Hp : 0 < 2 ^ Z.pos p) by (apply Z.pow_pos_nonneg; lia).
    assert (H2 : 0 <= shr_m (SpecFloat.iter_pos shr_1 p r)).
    { rewrite IH by done. apply Z.div_pos; lia. }
    rewrite IH, IH by done.
    rewrite !Z.div_div by lia. f_equal. rewrite pow2_xO. ring.
  - by apply shr_1_m.
Qed.

Lemma digits2_pos_size (p : positive) : digits2_pos p = Pos.size p.
Proof. induction p as [p IH|p IH|]; simpl; congruence. Qed.

(** A positive integer of [d] binary digits is at least [2 ^ (d - 1)]. *)
Lemma digits2_lower (p : positive) : 2 ^ (Zpos (digits2_pos p) - 1) <= Zpos p.
Proof.
  rewrite digits2_pos_size.
  pose proof (Pos.size_le p) as Hle.
  apply Pos2Z.pos_le_pos in Hle. rewrite Pos2Z.inj_pow in Hle.
  replace (Z.pos (Pos.size p)) with (1 + (Z.pos (Pos.size p) - 1)) in Hle by lia.
  rewrite Z.pow_add_r in Hle by lia. change (2 ^ 1) with 2 in Hle.
  lia.
Qed.

Lemma shr_record_of_loc_m (m : Z) (l : location) :
  shr_m (shr_record_of_loc m l) = m.
Proof. by destruct l as [|[]]. Qed.

(** Shifting a positive mantissa to its canonical exponent leaves it
    positive, when the exponent is at least [emin]. *)
Lemma shr_fexp_pos (m e : Z) (l : location) :
  0 < m -> emin <= e ->
  0 < shr_m (fst (shr_fexp prec emax m e l))
  /\ emin <= snd (shr_fexp prec emax m e l).
Proof.
  intros Hm He. unfold shr_fexp, shr.
  destruct m as [|p|p]; [lia| |lia]. simpl Zdigits2.
  pose proof (digits2_lower p) as Hd.
  destruct (fexp prec emax (Z.pos (digits2_pos p) + e) - e) as [|q|q] eqn:Hn;
    simpl; rewrite ?shr_record_of_loc_m; try (split; lia).
  rewrite shr_iter_m by (rewrite shr_record_of_loc_m; lia).
  rewrite shr_record_of_loc_m.
  assert (Hq : Z.pos q <= Z.pos (digits2_pos p) - 1).
  { unfold fexp in Hn. fold emin in Hn. unfold prec in Hn. lia. }
  split; [|lia].
  apply Z.div_str_pos. split; [apply Z.pow_pos_nonneg; lia|].
  etrans; [|exact Hd]. apply Z.pow_le_mono_r; lia.
Qed.

Lemma round_nearest_even_ge (m : Z) (l : location) :
  m <= round_nearest_even m l.
Proof. destruct l as [|[]]; simpl; try lia. destruct (Z.even m); lia. Qed.

(** Rounding a positive mantissa never gives a zero or a NaN, and keeps the
    sign. *)
Lemma binary_round_aux_cases (sx : bool) (m e : Z) (l : location) :
  0 < m -> emin <= e ->
  (exists m' e', binary_round_aux prec emax sx m e l = S754_finite sx m' e'
                 /\ emin <= e')
  \/ binary_round_aux prec emax sx m e l = S754_infinity sx.
Proof.
  intros Hm He. unfold binary_round_aux.
  pose proof (shr_fexp_pos m e l Hm He) as [Hm1 He1].
  destruct (shr_fexp prec emax m e l) as [mrs' e']. simpl in Hm1, He1.
  pose proof (round_nearest_even_ge (shr_m mrs') (loc_of_shr_record mrs')) as Hr.
  pose proof (shr_fexp_pos (round_nearest_even (shr_m mrs') (loc_of_shr_record mrs'))
                e' loc_Exact ltac:(lia) He1) as [Hm2 He2].
  destruct (shr_fexp prec emax _ e' loc_Exact) as [mrs'' e'']. simpl in Hm2, He2.
  destruct (shr_m mrs'') as [|p|p]; [lia| |lia].
  destruct (e'' <=? emax - prec); [left; eauto | by right].
Qed.

Lemma shl_align_exp (m : positive) (e e' : Z) :
  emin <= e -> emin <= e' -> emin <= snd (shl_align m e e').
Proof. intros He He'. unfold shl_align. by destruct (e' - e). Qed.

Lemma fexp_ge (x : Z) : emin <= fexp prec emax x.
Proof. unfold fexp. fold emin. lia. Qed.

Lemma binary_round_cases (sx : bool) (m : positive) (e : Z) :
  emin <= e ->
  (exists m' e', binary_round prec emax sx m e = S754_finite sx m' e'
                 /\ emin <= e')
  \/ binary_round prec emax sx m e = S754_infinity sx.
Proof.
  intros He. unfold binary_round.
  pose proof (shl_align_exp m e (fexp prec emax (Z.pos (digits2_pos m) + e))
                He (fexp_ge _)) as Hz.
  destruct (shl_align m e _) as [mz ez]. simpl in Hz.
  by apply binary_round_aux_cases.
Qed.

(** The sign of a normalized integer is the sign of the integer. *)
Lemma binary_normalize_cases (z e : Z) :
  emin <= e ->
  match binary_normalize prec emax z e false with
  | S754_zero s => z = 0 /\ s = false
  | S754_finite s _ e' => emin <= e' /\ s = (z <? 0) /\ z <> 0
  | S754_infinity s => s = (z <? 0) /\ z <> 0
  | S754_nan => False
  end.
Proof.
  intros He. destruct z as [|p|p]; simpl.
  - done.
  - destruct (binary_round_cases false p e He) as [(m' & e' & -> & He')| ->]; done.
  - destruct (binary_round_cases true p e He) as [(m' & e' & -> & He')| ->]; done.
Qed.

Lemma pos_iter_xO (m d : positive) :
  Zpos (Pos.iter xO m d) = Zpos m * 2 ^ Zpos d.
Proof.
  induction d as [|d IH] using Pos.peano_ind.
  - simpl. lia.
  - rewrite Pos.iter_succ, Pos2Z.inj_xO, IH, Pos2Z.inj_succ.
    rewrite Z.pow_succ_r by lia. ring.
Qed.

(** Aligning a mantissa to a smaller exponent keeps the value. *)
Lemma shl_align_value (m : positive) (e e' : Z) :
  e' <= e -> Zpos (fst (shl_align m e e')) = Zpos m * 2 ^ (e - e').
Proof.
  intros H. unfold shl_align.
  destruct (e' - e) as [|d|d] eqn:Hd; simpl.
  - replace (e - e') with 0 by lia. lia.
  - lia.
  - replace (e - e') with (Zpos d) by lia. apply pos_iter_xO.
Qed.

Lemma add_accOK (x y : number) :
  accOK x -> isFinite y = true -> wellFormed y = true -> accOK (add x y).
Proof.
  intros (Hnan & Hneg & Hwf) Hfin Hwfy. unfold add.
  destruct x as [sx|sx| |sx mx ex], y as [sy|sy| |sy my ey];
    try discriminate; simpl.
  - destruct sx; [done|]. by destruct sy.
  - done.
  - done.
  - done.
  - done.
  - simpl in Hwf, Hwfy. apply Z.leb_le in Hwf, Hwfy.
    set (z := cond_Zopp sx _ + cond_Zopp sy _).
    pose proof (binary_normalize_cases z (Z.min ex ey) ltac:(lia)) as Hc.
    destruct (binary_normalize prec emax z (Z.min ex ey) false)
      as [s|s| |s m e]; [| | done |].
    + destruct Hc as [_ ->]. done.
    + done.
    + destruct Hc as [He _]. repeat split; [done|]. simpl. by apply Z.leb_le.
Qed.

(** The sign of a difference is the comparison of the exact values. *)
Lemma sub_isPositive (x y : number) :
  wellFormed x = true -> wellFormed y = true ->
  isNaN x = false -> isNaN y = false ->
  isPositive (sub y x) = numLtb x y.
Proof.
  intros Hwx Hwy Hnx Hny. unfold sub, numLtb.
  destruct x as [sx|sx| |sx mx ex], y as [sy|sy| |sy my ey];
    try discriminate; simpl in Hwx, Hwy; try apply Z.leb_le in Hwx;
    try apply Z.leb_le in Hwy.
  - by destruct sx, sy.
  - by destruct sy.
  - simpl. destruct sy; simpl.
    + symmetry. apply Z.ltb_ge.
      assert (0 < 2 ^ (ey - emin)) by (apply Z.pow_pos_nonneg; lia). lia.
    + symmetry. apply Z.ltb_lt.
      assert (0 < 2 ^ (ey - emin)) by (apply Z.pow_pos_nonneg; lia). lia.
  - by destruct sx.
  - by destruct sx, sy.
  - by destruct sx.
  - simpl. destruct sx; simpl.
    + symmetry. apply Z.ltb_lt.
      assert (0 < 2 ^ (ex - emin)) by (apply Z.pow_pos_nonneg; lia). lia.
    + symmetry. apply Z.ltb_ge.
      assert (0 < 2 ^ (ex - emin)) by (apply Z.pow_pos_nonneg; lia). lia.
  - by destruct sy.
  - cbn [SFsub rank scaled]. cbn [Z.ltb Z.eqb Z.compare orb andb].
    set (ez := Z.min ey ex).
    rewrite !shl_align_value by lia.
    set (A := cond_Zopp sx (Z.pos mx * 2 ^ (ex - ez))).
    set (B := cond_Zopp sy (Z.pos my * 2 ^ (ey - ez))).
    assert (Hk : 0 < 2 ^ (ez - emin)) by (apply Z.pow_pos_nonneg; lia).
    assert (HA : cond_Zopp sx (Z.pos mx * 2 ^ (ex - emin)) = A * 2 ^ (ez - emin)).
    { unfold A. replace (ex - emin) with ((ex - ez) + (ez - emin)) by lia.
      rewrite Z.pow_add_r by lia. destruct sx; simpl; ring. }
    assert (HB : cond_Zopp sy (Z.pos my * 2 ^ (ey - emin)) = B * 2 ^ (ez - emin)).
    { unfold B. replace (ey - emin) with ((ey - ez) + (ez - emin)) by lia.
      rewrite Z.pow_add_r by lia. destruct sy; simpl; ring. }
    rewrite HA, HB.
    pose proof (binary_normalize_cases (B - A) ez ltac:(lia)) as Hc.
    destruct (binary_normalize prec emax (B - A) ez false) as [s|s| |s m e];
      simpl.
    + destruct Hc as [Hz _]. symmetry. apply Z.ltb_ge. nia.
    + destruct Hc as [-> Hz].
      destruct (Z.ltb_spec (B - A) 0); simpl; symmetry;
        [apply Z.ltb_ge | apply Z.ltb_lt]; nia.
    + done.
    + destruct Hc as (_ & -> & Hz).
      destruct (Z.ltb_spec (B - A) 0); simpl; symmetry;
        [apply Z.ltb_ge | apply Z.ltb_lt]; nia.
Qed.

Lemma numLtb_irrefl (x : number) : numLtb x x = false.
Proof.
  unfold numLtb. rewrite !Z.ltb_irrefl. by rewrite andb_false_r.
Qed.

Lemma numLtb_trans (x y z : number) :
  numLtb x y = true -> numLtb y z = true -> numLtb x z = true.
Proof.
  unfold numLtb.
  rewrite !orb_true_iff, !andb_true_iff, !Z.ltb_lt, !Z.eqb_eq. lia.
Qed.

(** Not being smaller is transitive too: the order is a total preorder. *)
Lemma numLtb_cotrans (x y z : number) :
  numLtb x z = true -> numLtb x y = true \/ numLtb y z = true.
Proof.
  unfold numLtb.
  rewrite !orb_true_iff, !andb_true_iff, !Z.ltb_lt, !Z.eqb_eq. lia.
Qed.

(** *** Integers below [2 ^ 53] are added without rounding *)

Lemma digits_iter_xO (m d : positive) :
  digits2_pos (Pos.iter xO m d) = (digits2_pos m + d)%positive.
Proof.
  induction d as [|d IH] using Pos.peano_ind.
  - simpl. lia.
  - rewrite Pos.iter_succ. simpl. rewrite IH. lia.
Qed.

Lemma shl_align_digits (m : positive) (e e' : Z) :
  e' <= e ->
  Zpos (digits2_pos (fst (shl_align m e e'))) = Zpos (digits2_pos m) + (e - e').
Proof.
  intros H. unfold shl_align.
  destruct (e' - e) as [|d|d] eqn:Hd; simpl; [lia | lia |].
  rewrite digits_iter_xO. lia.
Qed.

Lemma shr_1_double (x : Z) :
  0 <= x ->
  shr_1 (Build_shr_record (2 * x) false false) = Build_shr_record x false false.
Proof. intros Hx. destruct x as [|p|p]; [done | done | lia]. Qed.

Lemma shr_iter_exact (n : positive) (m : Z) :
  0 <= m ->
  SpecFloat.iter_pos shr_1 n (Build_shr_record (m * 2 ^ Zpos n) false false)
  = Build_shr_record m false false.
Proof.
  revert m. induction n as [n IH|n IH|]; intros m Hm;
    cbn [SpecFloat.iter_pos].
  - assert (Hp : 0 < 2 ^ Z.pos n) by (apply Z.pow_pos_nonneg; lia).
    rewrite pow2_xI.
    replace (m * (2 * 2 ^ Z.pos n * 2 ^ Z.pos n))
      with (2 * (m * 2 ^ Z.pos n * 2 ^ Z.pos n)) by ring.
    rewrite shr_1_double by nia. rewrite IH by nia. by apply IH.
  - assert (Hp : 0 < 2 ^ Z.pos n) by (apply Z.pow_pos_nonneg; lia).
    rewrite pow2_xO, Z.mul_assoc. rewrite IH by nia. by apply IH.
  - replace (m * 2 ^ 1) with (2 * m) by lia. by apply shr_1_double.
Qed.

(** A mantissa of 53 digits is at its canonical exponent. *)
Lemma shr_fexp_canonical (mc : positive) (ec : Z) :
  Zpos (digits2_pos mc) = prec -> emin <= ec ->
  shr_fexp prec emax (Zpos mc) ec loc_Exact
  = (Build_shr_record (Zpos mc) false false, ec).
Proof.
  intros Hd He. unfold shr_fexp. simpl Zdigits2. rewrite Hd.
  replace (fexp prec emax (prec + ec) - ec) with 0; [done|].
  unfold fexp. fold emin. lia.
Qed.

Lemma binary_round_aux_canonical (s : bool) (m e : Z) (l : location)
    (mc : positive) (ec : Z) :
  shr_fexp prec emax m e l = (Build_shr_record (Zpos mc) false false, ec) ->
  Zpos (digits2_pos mc) = prec -> emin <= ec -> ec <= emax - prec ->
  binary_round_aux prec emax s m e l = S754_finite s mc ec.
Proof.
  intros Hshr Hd He Hmax. unfold binary_round_aux. rewrite Hshr.
  cbn [shr_m loc_of_shr_record round_nearest_even].
  rewrite (shr_fexp_canonical mc ec Hd He). cbn [shr_m].
  apply Z.leb_le in Hmax. by rewrite Hmax.
Qed.

(** Rounding [q * 2 ^ (e + k)], given as the mantissa [q * 2 ^ k] at
    exponent [e], when [q] has at most 53 digits and the result is a normal
    number: the mantissa is [q] shifted to 53 digits, exactly. *)
Lemma binary_round_scaled (s : bool) (P q : positive) (e k : Z) :
  0 <= k -> Zpos P = Zpos q * 2 ^ k ->
  emin <= Zpos (digits2_pos q) + (e + k) - prec ->
  Zpos (digits2_pos q) + (e + k) - prec <= e + k ->
  Zpos (digits2_pos q) + (e + k) - prec <= emax - prec ->
  binary_round prec emax s P e
  = S754_finite s
      (fst (shl_align q (e + k) (Zpos (digits2_pos q) + (e + k) - prec)))
      (Zpos (digits2_pos q) + (e + k) - prec).
Proof.
  intros Hk HP Hmin Hle Hmax.
  set (ec := Zpos (digits2_pos q) + (e + k) - prec) in *.
  set (mc := fst (shl_align q (e + k) ec)).
  assert (Hmc : Zpos mc = Zpos q * 2 ^ (e + k - ec))
    by (by apply shl_align_value).
  assert (Hdmc : Zpos (digits2_pos mc) = prec).
  { unfold mc. rewrite shl_align_digits by done. unfold ec. lia. }
  assert (HPq : P = fst (shl_align q k 0)).
  { apply Pos2Z.inj. rewrite shl_align_value by done.
    by rewrite Z.sub_0_r. }
  assert (HdP : Zpos (digits2_pos P) = Zpos (digits2_pos q) + k).
  { rewrite HPq, shl_align_digits by done. lia. }
  unfold binary_round. rewrite HdP.
  replace (fexp prec emax (Z.pos (digits2_pos q) + k + e)) with ec
    by (unfold fexp; fold emin; unfold ec; lia).
  unfold shl_align. destruct (ec - e) as [|n|d] eqn:Hn.
  - apply binary_round_aux_canonical; try done.
    assert (P = mc) as ->.
    { apply Pos2Z.inj. rewrite HP, Hmc. f_equal. f_equal. lia. }
    replace (Build_shr_record (Z.pos mc) false false, ec)
      with (Build_shr_record (Z.pos mc) false false, e) by (f_equal; lia).
    apply shr_fexp_canonical; [done|]. lia.
  - apply binary_round_aux_canonical; try done.
    unfold shr_fexp. simpl Zdigits2. rewrite HdP.
    replace (fexp prec emax (Z.pos (digits2_pos q) + k + e) - e) with (Zpos n)
      by (unfold fexp; fold emin; unfold ec in *; lia).
    cbn [shr_record_of_loc shr]. f_equal; [|lia].
    replace (Z.pos P) with (Z.pos mc * 2 ^ Z.pos n).
    + apply shr_iter_exact. lia.
    + rewrite HP, Hmc, <- Z.mul_assoc, <- Z.pow_add_r by lia.
      f_equal. f_equal. lia.
  - apply binary_round_aux_canonical; try done.
    assert (Pos.iter xO P d = mc) as ->.
    { apply Pos2Z.inj. rewrite pos_iter_xO, HP, Hmc.
      rewrite <- Z.mul_assoc, <- Z.pow_add_r by lia. f_equal. f_equal. lia. }
    by apply shr_fexp_canonical.
Qed.

Lemma emin_value : emin = -1074.
Proof. reflexivity. Qed.

Lemma digits_upper_53 (q : positive) :
  Zpos q < 2 ^ 53 -> Zpos (digits2_pos q) <= 53.
Proof.
  intros Hq. pose proof (digits2_lower q) as Hd.
  assert (H : 2 ^ (Zpos (digits2_pos q) - 1) < 2 ^ 53) by lia.
  apply Z.pow_lt_mono_r_iff in H; lia.
Qed.

(** The number of a non-zero integer below [2 ^ 53] in magnitude. *)
Lemma binary_round_int (s : bool) (q : positive) :
  Zpos q < 2 ^ 53 ->
  binary_round prec emax s q 0
  = S754_finite s (fst (shl_align q 0 (Zpos (digits2_pos q) - prec)))
                (Zpos (digits2_pos q) - prec).
Proof.
  intros Hq. pose proof (digits_upper_53 q Hq) as Hd.
  pose proof emin_value as Hemin.
  rewrite (binary_round_scaled s q q 0 0); unfold prec, emax in *;
    rewrite ?Z.add_0_r; try lia.
  do 2 f_equal.
Qed.

(** Rewrite the number of a non-zero integer literal, whose bound is the
    hypothesis [H], into its finite form. *)
Ltac ofZ_finite H :=
  repeat match goal with
         | |- context [ofZ (Z.pos ?q)] =>
             change (ofZ (Z.pos q)) with (binary_round prec emax false q 0)
         | |- context [ofZ (Z.neg ?q)] =>
             change (ofZ (Z.neg q)) with (binary_round prec emax true q 0)
         end;
  rewrite binary_round_int by (simpl in H; lia).

Lemma add_ofZ_signed (sa sb : bool) (qa qb : positive) :
  Zpos qa < 2 ^ 53 -> Zpos qb < 2 ^ 53 ->
  Z.abs (cond_Zopp sa (Zpos qa) + cond_Zopp sb (Zpos qb)) < 2 ^ 53 ->
  add (ofZ (cond_Zopp sa (Zpos qa))) (ofZ (cond_Zopp sb (Zpos qb)))
  = ofZ (cond_Zopp sa (Zpos qa) + cond_Zopp sb (Zpos qb)).
Proof.
  intros Ha Hb Hab.
  pose proof (digits_upper_53 qa Ha) as Hda.
  pose proof (digits_upper_53 qb Hb) as Hdb.
  pose proof emin_value as Hemin.
  assert (HofZ : forall s q, Zpos q < 2 ^ 53 ->
            ofZ (cond_Zopp s (Zpos q))
            = S754_finite s (fst (shl_align q 0 (Zpos (digits2_pos q) - prec)))
                          (Zpos (digits2_pos q) - prec)).
  { intros s q Hq. destruct s; apply binary_round_int; done. }
  rewrite (HofZ sa qa Ha), (HofZ sb qb Hb). unfold add. cbn [SFadd].
  set (eca := Zpos (digits2_pos qa) - prec).
  set (ecb := Zpos (digits2_pos qb) - prec).
  set (ez := Z.min eca ecb).
  assert (Hez : ez <= 0) by (unfold ez, eca, ecb, prec; lia).
  rewrite !shl_align_value by (unfold ez, eca, ecb, prec in *; lia).
  set (Zsum := cond_Zopp sa _ + cond_Zopp sb _).
  assert (HZ : Zsum = (cond_Zopp sa (Zpos qa) + cond_Zopp sb (Zpos qb))
                      * 2 ^ (- ez)).
  { unfold Zsum.
    assert (Hpa : 2 ^ (0 - eca) * 2 ^ (eca - ez) = 2 ^ (- ez)).
    { rewrite <- Z.pow_add_r by (unfold ez, eca, ecb, prec in *; lia).
      f_equal. lia. }
    assert (Hpb : 2 ^ (0 - ecb) * 2 ^ (ecb - ez) = 2 ^ (- ez)).
    { rewrite <- Z.pow_add_r by (unfold ez, eca, ecb, prec in *; lia).
      f_equal. lia. }
    rewrite <- !Z.mul_assoc, Hpa, Hpb. destruct sa, sb; simpl; ring. }
  assert (Hk : 0 < 2 ^ (- ez)) by (apply Z.pow_pos_nonneg; lia).
  destruct (cond_Zopp sa (Zpos qa) + cond_Zopp sb (Zpos qb)) as [|q|q] eqn:Hsum.
  - rewrite HZ. reflexivity.
  - destruct Zsum as [|P|P] eqn:HP; [lia| |lia].
    ofZ_finite Hab.
    cbn [binary_normalize].
    pose proof (digits_upper_53 q ltac:(simpl in Hab; lia)) as Hdq.
    rewrite (binary_round_scaled false P q ez (- ez));
      rewrite ?Z.add_opp_diag_r; unfold prec, emax in *; try lia.
    done.
  - destruct Zsum as [|P|P] eqn:HP; [lia|lia|].
    ofZ_finite Hab.
    cbn [binary_normalize].
    pose proof (digits_upper_53 q ltac:(simpl in Hab; lia)) as Hdq.
    rewrite (binary_round_scaled true P q ez (- ez));
      rewrite ?Z.add_opp_diag_r; unfold prec, emax in *; try lia.
    done.
Qed.

(** Binary64 addition is exact on integers below [2 ^ 53]. *)
Lemma add_ofZ (a b : Z) :
  Z.abs a < 2 ^ 53 -> Z.abs b < 2 ^ 53 -> Z.abs (a + b) < 2 ^ 53 ->
  add (ofZ a) (ofZ b) = ofZ (a + b).
Proof.
  intros Ha Hb Hab.
  destruct a as [|qa|qa], b as [|qb|qb]; try reflexivity.
  - change (ofZ 0) with (S754_zero false). rewrite Z.add_0_l.
    ofZ_finite Hb. reflexivity.
  - change (ofZ 0) with (S754_zero false). rewrite Z.add_0_l.
    ofZ_finite Hb. reflexivity.
  - change (ofZ 0) with (S754_zero false). rewrite Z.add_0_r.
    ofZ_finite Ha. reflexivity.
  - apply (add_ofZ_signed false false); simpl in *; lia.
  - apply (add_ofZ_signed false true); simpl in *; lia.
  - change (ofZ 0) with (S754_zero false). rewrite Z.add_0_r.
    ofZ_finite Ha. reflexivity.
  - apply (add_ofZ_signed true false); simpl in *; lia.
  - apply (add_ofZ_signed true true); simpl in *; lia.
Qed.
Lemma ofZ_truthy (a : Z) :
  Z.abs a < 2 ^ 53 -> (if numTruthy (ofZ a) then ofZ a else num0) = ofZ a.
Proof.
  intros Ha. destruct a as [|q|q]; [done| |].
  - by ofZ_finite Ha.
  - by ofZ_finite Ha.
Qed.
End FloatFacts.

(** ** Aggregator: grouping *)

Lemma firstSeen_In (labels : list string) (l : string) :
  In l (firstSeen labels) <-> In l labels.
Proof.
  induction labels as [|x rest IH]; simpl; [done|].
  rewrite filter_In, IH, negb_true_iff, String.eqb_neq.
  destruct (String.eqb_spec l x) as [->|Hne]; [tauto|].
  split; [tauto|]. intros [->|H]; [done|]. right. done.
Qed.

Lemma firstSeen_NoDup (labels : list string) : NoDup (firstSeen labels).
Proof.
  induction labels as [|x rest IH]; simpl; [constructor|].
  constructor.
  - rewrite list_elem_of_In, filter_In, negb_true_iff, String.eqb_neq. tauto.
  - apply NoDup_ListNoDup, List.NoDup_filter, NoDup_ListNoDup, IH.
Qed.

Lemma firstSeen_snoc (labels : list string) (l : string) :
  firstSeen (labels ++ [l])
  = if existsb (String.eqb l) labels then firstSeen labels
    else firstSeen labels ++ [l].
Proof.
  induction labels as [|x rest IH]; simpl; [done|].
  rewrite IH. destruct (String.eqb_spec l x) as [->|Hne]; simpl.
  - destruct (existsb (String.eqb x) rest); [done|].
    rewrite List.filter_app. simpl. rewrite String.eqb_refl. simpl.
    by rewrite app_nil_r.
  - destruct (existsb (String.eqb l) rest); [done|].
    rewrite List.filter_app. simpl.
    apply String.eqb_neq in Hne. rewrite Hne. done.
Qed.

Lemma existsb_eqb_In (l : string) (labels : list string) :
  existsb (String.eqb l) labels = true <-> In l labels.
Proof.
  rewrite existsb_exists. split.
  - intros (x & Hx & Heq). apply String.eqb_eq in Heq. by subst.
  - intros H. exists l. split; [done | apply String.eqb_refl].
Qed.

Lemma mapGet_keyed (f : string -> number) (keys : list string) (k : string) :
  mapGet k (keyed f keys)
  = if existsb (String.eqb k) keys then Some (f k) else None.
Proof.
  induction keys as [|x rest IH]; simpl; [done|].
  rewrite (String.eqb_sym k x).
  destruct (String.eqb_spec x k) as [->|Hne]; simpl; [done | exact IH].
Qed.

Lemma mapSet_keyed_new (f : string -> number) (keys : list string)
    (k : string) (v : number) :
  ~ In k keys -> mapSet k v (keyed f keys) = keyed f keys ++ [(k, v)].
Proof.
  induction keys as [|x rest IH]; simpl; intros Hk; [done|].
  destruct (String.eqb_spec x k) as [->|Hne]; [tauto|].
  rewrite IH by tauto. done.
Qed.

Lemma mapSet_keyed_old (f : string -> number) (keys : list string)
    (k : string) (v : number) :
  NoDup keys -> In k keys ->
  mapSet k v (keyed f keys)
  = keyed (fun l => if String.eqb l k then v else f l) keys.
Proof.
  induction keys as [|x rest IH]; simpl; intros Hnd Hk; [done|].
  apply NoDup_cons in Hnd as [Hx Hnd].
  destruct (String.eqb_spec x k) as [->|Hne].
  - f_equal. apply map_ext_in. intros l Hl.
    destruct (String.eqb_spec l k) as [->|_]; [|done].
    by apply list_elem_of_In in Hl.
  - f_equal. apply IH; [done|]. destruct Hk; [done | done].
Qed.

Lemma groupMetrics_snoc (dimension : string) (rows : list Rec.t) (r : Rec.t)
    (l : string) :
  groupMetrics dimension (rows ++ [r]) l
  = groupMetrics dimension rows l
    ++ (if String.eqb (labelOf dimension r) l then [Rec.metric r] else []).
Proof.
  unfold groupMetrics. rewrite List.filter_app, map_app. simpl.
  by destruct (String.eqb (labelOf dimension r) l).
Qed.

Lemma groupMetrics_absent (dimension : string) (rows : list Rec.t) (l : string) :
  ~ In l (map (labelOf dimension) rows) -> groupMetrics dimension rows l = [].
Proof.
  intros Hl. unfold groupMetrics. rewrite filter_none; [done|].
  intros r Hr. apply String.eqb_neq. intros <-. apply Hl. by apply in_map.
Qed.

(** The [Map] that [aggregate] builds: one entry per label, in order of
    first appearance, holding the running total of the label's metrics. *)
Lemma accumulate_keyed (dimension : string) (rows : list Rec.t) :
  fold_left (accumulate dimension) rows []
  = keyed (fun l => runningTotal (groupMetrics dimension rows l))
          (firstSeen (map (labelOf dimension) rows)).
Proof.
  induction rows as [|r rows IH] using rev_ind; [done|].
  rewrite fold_left_app, IH. simpl. unfold accumulate.
  set (l0 := labelOf dimension r).
  set (labels := map (labelOf dimension) rows).
  assert (Hget : getOrZero l0
                   (keyed (fun l => runningTotal (groupMetrics dimension rows l))
                          (firstSeen labels))
                 = (if numTruthy (runningTotal (groupMetrics dimension rows l0))
                    then runningTotal (groupMetrics dimension rows l0)
                    else num0)).
  { unfold getOrZero. rewrite mapGet_keyed.
    destruct (existsb (String.eqb l0) (firstSeen labels)) eqn:Hex; [done|].
    rewrite groupMetrics_absent; [done|].
    intros Hin. apply (proj2 (firstSeen_In _ _)) in Hin.
    apply (proj2 (existsb_eqb_In _ _)) in Hin.
      unfold labels in *. congruence. }
  rewrite Hget.
  assert (Hnew : add (if numTruthy (runningTotal (groupMetrics dimension rows l0))
                      then runningTotal (groupMetrics dimension rows l0)
                      else num0) (Rec.metric r)
                 = runningTotal (groupMetrics dimension (rows ++ [r]) l0)).
  { rewrite groupMetrics_snoc. fold l0. rewrite String.eqb_refl.
    unfold runningTotal. by rewrite fold_left_app. }
  rewrite Hnew, map_app. simpl. fold l0 labels. rewrite firstSeen_snoc.
  destruct (existsb (String.eqb l0) labels) eqn:Hex.
  - rewrite mapSet_keyed_old;
      [|apply firstSeen_NoDup | by apply firstSeen_In, existsb_eqb_In].
    apply map_ext. intros l. f_equal.
    destruct (String.eqb_spec l l0) as [->|Hne]; [done|].
    rewrite groupMetrics_snoc. fold l0.
    apply not_eq_sym, String.eqb_neq in Hne. rewrite Hne.
    by rewrite app_nil_r.
  - rewrite mapSet_keyed_new.
    + unfold keyed. rewrite map_app. simpl. f_equal.
      apply map_ext_in. intros l Hl. f_equal.
      rewrite groupMetrics_snoc. fold l0.
      destruct (String.eqb_spec l0 l) as [<-|Hne]; [|by rewrite app_nil_r].
      apply (proj1 (firstSeen_In _ _)) in Hl.
      apply (proj2 (existsb_eqb_In _ _)) in Hl.
      unfold labels in *. congruence.
    + intros Hin. apply (proj1 (firstSeen_In _ _)) in Hin.
      apply (proj2 (existsb_eqb_In _ _)) in Hin.
      unfold labels in *. congruence.
Qed.

(** ** Aggregator: sorting *)

Lemma insertSorted_perm {A : Type} (comparefn : A -> A -> number) (x : A)
    (s : list A) :
  Permutation (insertSorted comparefn x s) (x :: s).
Proof.
  induction s as [|y rest IH]; simpl; [done|].
  destruct (isPositive (comparefn y x)); [done|].
  rewrite IH. apply perm_swap.
Qed.

Lemma sort_fold_perm {A : Type} (comparefn : A -> A -> number)
    (l acc : list A) :
  Permutation (fold_left (fun s x => insertSorted comparefn x s) l acc)
              (acc ++ l).
Proof.
  revert acc. induction l as [|x l IH]; intros acc; simpl.
  - by rewrite app_nil_r.
  - rewrite IH, insertSorted_perm. simpl. apply Permutation_middle.
Qed.

Lemma sort_perm {A : Type} (comparefn : A -> A -> number) (l : list A) :
  Permutation (sort comparefn l) l.
Proof. apply (sort_fold_perm comparefn l []). Qed.

Section SortFacts.
Context {A : Type} (comparefn : A -> A -> number).
Context (lt : A -> A -> bool) (pos : A -> nat) (P : A -> Prop).
Hypothesis comparefn_lt :
  forall a b, P a -> P b -> isPositive (comparefn a b) = lt a b.
Hypothesis lt_irrefl : forall a, lt a a = false.
Hypothesis lt_trans :
  forall a b c, lt a b = true -> lt b c = true -> lt a c = true.
Hypothesis lt_cotrans :
  forall a b c, lt a c = true -> lt a b = true \/ lt b c = true.

Lemma insertSorted_sorted (x : A) (s : list A) :
  P x -> Forall P s -> Forall (fun a => pos a < pos x) s ->
  StronglySorted
    (fun a b => lt a b = false /\ (lt b a = true \/ pos a < pos b)) s ->
  StronglySorted
    (fun a b => lt a b = false /\ (lt b a = true \/ pos a < pos b))
    (insertSorted comparefn x s).
Proof.
  induction s as [|y rest IH]; intros Hx Hs Hpos Hsorted; simpl.
  - repeat constructor.
  - apply Forall_cons in Hs as [Hy Hs].
    apply Forall_cons in Hpos as [Hyx Hpos].
    apply StronglySorted_inv in Hsorted as [Hrest Hall].
    rewrite comparefn_lt by done.
    destruct (lt y x) eqn:Hlt.
    + assert (Hxy : lt x y = false).
      { destruct (lt x y) eqn:Hxy; [|done].
        by rewrite <- (lt_irrefl x), (lt_trans x y x). }
      constructor; [by constructor|].
      constructor; [split; [done | by left]|].
      eapply Forall_impl; [exact Hall|].
      intros z [Hyz Hz]. split.
      * destruct (lt x z) eqn:Hxz; [|done].
        destruct (lt_cotrans x y z Hxz); congruence.
      * left. destruct (lt_cotrans y z x Hlt); congruence.
    + constructor; [by apply IH|].
      eapply Permutation_Forall; [symmetry; apply insertSorted_perm|].
      constructor; [split; [done | by right]|done].
Qed.

Lemma sort_fold_sorted (l acc : list A) :
  Forall P acc -> Forall P l ->
  StronglySorted
    (fun a b => lt a b = false /\ (lt b a = true \/ pos a < pos b))
    acc ->
  StronglySorted (fun a b => pos a < pos b) l ->
  Forall (fun a => Forall (fun b => pos a < pos b) l) acc ->
  StronglySorted
    (fun a b => lt a b = false /\ (lt b a = true \/ pos a < pos b))
    (fold_left (fun s x => insertSorted comparefn x s) l acc).
Proof.
  revert acc. induction l as [|x l IH]; intros acc Hacc Hl Hs Hsl Hbefore;
    simpl; [done|].
  apply Forall_cons in Hl as [Hx Hl].
  apply StronglySorted_inv in Hsl as [Hsl Hxl].
  apply IH; try done.
  - eapply Permutation_Forall; [symmetry; apply insertSorted_perm|].
    by constructor.
  - apply insertSorted_sorted; try done.
    eapply Forall_impl; [exact Hbefore|]. intros a Ha.
    by apply Forall_cons in Ha as [Ha _].
  - eapply Permutation_Forall; [symmetry; apply insertSorted_perm|].
    constructor; [done|].
    eapply Forall_impl; [exact Hbefore|]. intros a Ha.
    by apply Forall_cons in Ha as [_ Ha].
Qed.

Lemma sort_sorted (l : list A) :
  Forall P l -> StronglySorted (fun a b => pos a < pos b) l ->
  StronglySorted
    (fun a b => lt a b = false /\ (lt b a = true \/ pos a < pos b))
    (sort comparefn l).
Proof.
  intros Hl Hs. apply sort_fold_sorted; try done; constructor.
Qed.
End SortFacts.

Lemma StronglySorted_filter {A : Type} (R : A -> A -> Prop) (p : A -> bool)
    (l : list A) :
  StronglySorted R l -> StronglySorted R (List.filter p l).
Proof.
  induction 1 as [|x l Hs IH Hall]; simpl; [constructor|].
  destruct (p x); [|done]. constructor; [done|].
  apply Forall_forall. intros y Hy. apply list_elem_of_In, filter_In in Hy.
  rewrite Forall_forall in Hall. apply Hall, list_elem_of_In. tauto.
Qed.

Lemma StronglySorted_weaken {A : Type} (R R' : A -> A -> Prop) (Q : A -> Prop)
    (l : list A) :
  (forall a b, Q a -> Q b -> R a b -> R' a b) ->
  Forall Q l -> StronglySorted R l -> StronglySorted R' l.
Proof.
  intros HR HQ Hs. induction Hs as [|x l Hs IH Hall]; [constructor|].
  apply Forall_cons in HQ as [Hx HQ]. constructor; [by apply IH|].
  rewrite Forall_forall in *. intros y Hy. apply HR; auto.
Qed.

Lemma firstSeen_sorted (labels : list string) :
  StronglySorted (fun a b => firstPos a labels < firstPos b labels)
                 (firstSeen labels).
Proof.
  induction labels as [|x rest IH]; simpl; [constructor|].
  constructor.
  - apply (StronglySorted_weaken
             (fun a b => firstPos a rest < firstPos b rest) _
             (fun a => a <> x)).
    + intros a b Ha Hb Hab.
      apply not_eq_sym, String.eqb_neq in Ha, Hb. rewrite Ha, Hb. lia.
    + apply Forall_forall. intros y Hy.
      apply list_elem_of_In, filter_In in Hy as [_ Hy].
      by apply negb_true_iff, String.eqb_neq in Hy.
    + by apply StronglySorted_filter.
  - apply Forall_forall. intros y Hy.
    apply list_elem_of_In, filter_In in Hy as [_ Hy].
    apply negb_true_iff, String.eqb_neq in Hy.
    rewrite String.eqb_refl.
    apply not_eq_sym, String.eqb_neq in Hy. rewrite Hy. lia.
Qed.

(** ** Aggregator: totals *)

Lemma valid_wellFormed (x : number) :
  valid_binary prec emax x = true -> wellFormed x = true.
Proof.
  destruct x as [s|s| |s m e]; simpl; try done.
  unfold bounded, canonical_mantissa. intros H.
  apply andb_true_iff in H as [H _]. apply Z.eqb_eq in H.
  apply Z.leb_le. rewrite <- H. apply fexp_ge.
Qed.

Lemma accOK_orZero (acc : number) :
  accOK acc -> (if numTruthy acc then acc else num0) = acc.
Proof.
  intros (Hnan & Hneg & _). destruct acc as [[]| | |]; try done.
Qed.

Lemma runningTotal_fold (ms : list number) (acc : number) :
  accOK acc ->
  Forall (fun m => isFinite m = true /\ wellFormed m = true) ms ->
  accOK (fold_left (fun acc m => add (if numTruthy acc then acc else num0) m)
                   ms acc)
  /\ fold_left (fun acc m => add (if numTruthy acc then acc else num0) m)
               ms acc
     = fold_left add ms acc.
Proof.
  revert acc. induction ms as [|m ms IH]; intros acc Hacc Hms; simpl; [done|].
  apply Forall_cons in Hms as [[Hfin Hwf] Hms].
  rewrite (accOK_orZero acc Hacc).
  apply IH; [|done]. by apply add_accOK.
Qed.

(** With finite metrics, the running total of the code is the plain sum
    from the left. *)
Lemma runningTotal_jsSum (ms : list number) :
  Forall (fun m => isFinite m = true /\ wellFormed m = true) ms ->
  accOK (runningTotal ms) /\ runningTotal ms = jsSum ms.
Proof. intros Hms. by apply runningTotal_fold. Qed.

Lemma groupMetrics_Forall (P : number -> Prop) (dimension : string)
    (rows : list Rec.t) (l : string) :
  Forall (fun r => P (Rec.metric r)) rows ->
  Forall P (groupMetrics dimension rows l).
Proof.
  intros Hrows. unfold groupMetrics. apply Forall_forall. intros m Hm.
  apply list_elem_of_In, in_map_iff in Hm as (r & <- & Hr).
  apply filter_In in Hr as [Hr _]. rewrite Forall_forall in Hrows.
  by apply Hrows, list_elem_of_In.
Qed.

Lemma keyed_fst (f : string -> number) (keys : list string) :
  map fst (keyed f keys) = keys.
Proof. unfold keyed. rewrite map_map. simpl. apply map_id. Qed.

Lemma keyed_sorted (f : string -> number) (pos : string -> nat)
    (keys : list string) :
  StronglySorted (fun a b => pos a < pos b) keys ->
  StronglySorted (fun a b => pos (fst a) < pos (fst b)) (keyed f keys).
Proof.
  induction 1 as [|x l Hs IH Hall]; simpl; constructor; [done|].
  apply Forall_forall. intros e He.
  apply list_elem_of_In, in_map_iff in He as (y & <- & Hy). simpl.
  rewrite Forall_forall in Hall. by apply Hall, list_elem_of_In.
Qed.

Lemma finite_metrics_Forall (rows : list Rec.t) :
  forallb (fun r => isFinite (Rec.metric r)
                    && valid_binary prec emax (Rec.metric r)) rows = true ->
  Forall (fun r => isFinite (Rec.metric r) = true
                   /\ wellFormed (Rec.metric r) = true) rows.
Proof.
  intros H. apply Forall_forall. intros r Hr.
  rewrite forallb_forall in H. apply list_elem_of_In, H in Hr.
  apply andb_true_iff in Hr as [Hf Hv]. split; [done|].
  by apply valid_wellFormed.
Qed.

(** The groups of [aggregate] in terms of [labelOf], for finite metrics. *)
Lemma aggregate_finite (rows : list Rec.t) (dimension : string)
    (Hfin : forallb (fun r => isFinite (Rec.metric r)
                              && valid_binary prec emax (Rec.metric r)) rows
            = true) :
  let labels := map (labelOf dimension) rows in
  let out := aggregate rows dimension in
  (forall r, labelOf dimension r
             = if isEmpty (dimValue dimension r) then "Unspecified"
               else dimValue dimension r)
  /\ NoDup (map fst out)
  /\ (forall l, In l (map fst out) <-> In l labels)
  /\ Forall (fun e => snd e = jsSum (groupMetrics dimension rows (fst e))) out
  /\ StronglySorted
       (fun a b =>
          numLtb (snd a) (snd b) = false
          /\ (numLtb (snd b) (snd a) = true
              \/ firstPos (fst a) labels < firstPos (fst b) labels))
       out.
Proof.
  intros labels out.
  apply finite_metrics_Forall in Hfin.
  set (total := fun l => runningTotal (groupMetrics dimension rows l)).
  assert (Hout : out = sort byValueDesc (keyed total (firstSeen labels))).
  { unfold out, aggregate. by rewrite accumulate_keyed. }
  assert (Hperm : Permutation out (keyed total (firstSeen labels))).
  { rewrite Hout. apply sort_perm. }
  assert (Htotal : forall l, accOK (total l)
                             /\ total l = jsSum (groupMetrics dimension rows l)).
  { intros l. apply runningTotal_jsSum.
    by apply (groupMetrics_Forall
                (fun m => isFinite m = true /\ wellFormed m = true)). }
  assert (Hfst : Permutation (map fst out) (firstSeen labels)).
  { rewrite Hperm. by rewrite keyed_fst. }
  split; [|split; [|split; [|split]]].
  - intros r. unfold labelOf, truthy. by destruct (isEmpty _).
  - apply NoDup_ListNoDup. eapply Permutation_NoDup; [symmetry; exact Hfst|].
    apply NoDup_ListNoDup, firstSeen_NoDup.
  - intros l. rewrite <- (firstSeen_In labels l).
    split; apply Permutation_in; [done | by symmetry].
  - eapply Permutation_Forall; [symmetry; exact Hperm|].
    apply Forall_forall. intros e He.
    apply list_elem_of_In, in_map_iff in He as (l & <- & _). simpl.
    apply Htotal.
  - rewrite Hout.
    apply (sort_sorted byValueDesc
             (fun a b => numLtb (snd a) (snd b))
             (fun e => firstPos (fst e) labels)
             (fun e => isNaN (snd e) = false /\ wellFormed (snd e) = true)).
    + intros a b [Ha Hwa] [Hb Hwb]. unfold byValueDesc.
      by apply sub_isPositive.
    + intros a. apply numLtb_irrefl.
    + intros a b c. apply numLtb_trans.
    + intros a b c. apply numLtb_cotrans.
    + apply Forall_forall. intros e He.
      apply list_elem_of_In, in_map_iff in He as (l & <- & _). simpl.
      destruct (Htotal l) as [(Hn & _ & Hw) _]. done.
    + apply (keyed_sorted total (fun l => firstPos l labels)).
      apply firstSeen_sorted.
Qed.

Lemma labelOf_groupOf (dimension : string) (r : Rec.t) :
  labelOf dimension r = groupOf dimension r.
Proof.
  unfold labelOf, groupOf, dimValue, fieldOf, truthy. by destruct (isEmpty _).
Qed.

(** C4, for finite metrics.  The group of a record is its branch, area or
    product, as the dimension says, with the empty string replaced by
    Unspecified.  For records whose metrics are finite, the aggregator
    returns one pair per group; the pair's total is the sum of the metrics
    of the group's records, added in record order; the pairs are in
    descending order of total, and pairs of equal total are in the order
    in which their groups first appear in the record list. *)
Theorem aggregate_spec (rows : list Rec.t) (dimension : string)
    (Hfin : forallb (fun r => isFinite (Rec.metric r)
                              && valid_binary prec emax (Rec.metric r)) rows
            = true) :
  let labels := map (groupOf dimension) rows in
  let out := aggregate rows dimension in
  NoDup (map fst out)
  /\ (forall l, In l (map fst out) <-> In l labels)
  /\ Forall (fun e =>
               snd e
               = jsSum (map Rec.metric
                          (List.filter
                             (fun r => String.eqb (groupOf dimension r) (fst e))
                             rows)))
            out
  /\ StronglySorted
       (fun a b =>
          numLtb (snd a) (snd b) = false
          /\ (numLtb (snd b) (snd a) = true
              \/ firstPos (fst a) labels < firstPos (fst b) labels))
       out.
Proof.
  intros labels out.
  destruct (aggregate_finite rows dimension Hfin) as (_ & Hnd & Hin & Hsum & Hsort).
  assert (Hlabels : map (labelOf dimension) rows = labels).
  { apply map_ext. intros r. apply labelOf_groupOf. }
  rewrite Hlabels in Hin, Hsort.
  split; [exact Hnd|]. split; [exact Hin|]. split; [|exact Hsort].
  eapply Forall_impl; [exact Hsum|]. intros e ->.
  unfold groupMetrics. do 2 f_equal.
  apply filter_ext_bool. intros r. by rewrite labelOf_groupOf.
Qed.

Lemma aggregate_spec_witness :
  let rows :=
    [ Rec.mk "A" EmptyString EmptyString EmptyString (ofZ 3);
      Rec.mk "B" EmptyString EmptyString EmptyString (ofZ 5);
      Rec.mk "A" EmptyString EmptyString EmptyString (ofZ 2) ] in
  let labels := map (groupOf "product") rows in
  let out := aggregate rows "product" in
  forallb (fun r => isFinite (Rec.metric r)
                    && valid_binary prec emax (Rec.metric r)) rows = true
  /\ (NoDup (map fst out)
      /\ (forall l, In l (map fst out) <-> In l labels)
      /\ Forall (fun e =>
                   snd e
                   = jsSum (map Rec.metric
                              (List.filter
                                 (fun r => String.eqb (groupOf "product" r) (fst e))
                                 rows)))
                out
      /\ StronglySorted
           (fun a b =>
              numLtb (snd a) (snd b) = false
              /\ (numLtb (snd b) (snd a) = true
                  \/ firstPos (fst a) labels < firstPos (fst b) labels))
           out).
Proof.
  intros rows labels out.
  assert (Hfin : forallb (fun r => isFinite (Rec.metric r)
                                   && valid_binary prec emax (Rec.metric r))
                         rows = true)
    by (vm_compute; reflexivity).
  exact (conj Hfin (aggregate_spec rows "product" Hfin)).
Defined.

(** C4, as the specification has it, fails when a group holds both
    infinities: their sum is NaN, which the aggregator reads as no total yet
    ([totals.get(label) || 0]) and starts over from 0.  The file below has
    one group, A, with the metrics Infinity, -Infinity and 5: the sum of
    the group's metrics is NaN, the total that the aggregator returns is
    5. *)
Lemma aggregate_restarts_after_NaN :
  exists (recs : list Rec.t) (meta : Meta.t),
    ingest ("Branch,Total" +:+ str1 LF +:+ "A,Infinity" +:+ str1 LF
            +:+ "A,-Infinity" +:+ str1 LF +:+ "A,5")
    = Some (Loaded recs meta "branch")
    /\ map (groupOf "branch") recs = ["A"; "A"; "A"]
    /\ map Rec.metric recs = [S754_infinity false; S754_infinity true; ofZ 5]
    /\ jsSum (map Rec.metric recs) = S754_nan
    /\ aggregate recs "branch" = [("A", ofZ 5)].
Proof.
  eexists _, _. split; [vm_compute; reflexivity|].
  repeat split; vm_compute; reflexivity.
Qed.

(** The aggregation example of the specification: A totals 5, B totals 5,
    and the tie keeps A, first encountered, in front. *)
Example aggregate_example :
  aggregate
    [ Rec.mk "A" EmptyString EmptyString EmptyString (ofZ 3);
      Rec.mk "B" EmptyString EmptyString EmptyString (ofZ 5);
      Rec.mk "A" EmptyString EmptyString EmptyString (ofZ 2) ] "product"
  = [("A", ofZ 5); ("B", ofZ 5)].
Proof. vm_compute. reflexivity. Qed.

(** ** Aggregator: exact totals *)

Section ExactTotals.
Local Open Scope Z_scope.

Lemma ZsumAbs_nonneg (zs : list Z) : 0 <= ZsumAbs zs.
Proof. induction zs as [|z zs IH]; simpl; lia. Qed.

Lemma Zsum_abs_le (zs : list Z) : Z.abs (Zsum zs) <= ZsumAbs zs.
Proof. induction zs as [|z zs IH]; simpl; lia. Qed.

Lemma Zsum_perm (l l' : list Z) : Permutation l l' -> Zsum l = Zsum l'.
Proof. induction 1; simpl; lia. Qed.

Lemma ZsumAbs_perm (l l' : list Z) : Permutation l l' -> ZsumAbs l = ZsumAbs l'.
Proof. induction 1; simpl; lia. Qed.

(** Sums of integers stay exact while the magnitudes add up to less than
    [2 ^ 53], with or without the [|| 0] of the running total. *)
Lemma fold_add_ofZ (zs : list Z) (a : Z) :
  Z.abs a + ZsumAbs zs < 2 ^ 53 ->
  fold_left add (map ofZ zs) (ofZ a) = ofZ (a + Zsum zs).
Proof.
  revert a. induction zs as [|z zs IH]; intros a Hb; simpl in *.
  - by rewrite Z.add_0_r.
  - pose proof (ZsumAbs_nonneg zs).
    rewrite add_ofZ by lia. rewrite IH by lia. f_equal. lia.
Qed.

Lemma fold_running_ofZ (zs : list Z) (a : Z) :
  Z.abs a + ZsumAbs zs < 2 ^ 53 ->
  fold_left (fun acc m => add (if numTruthy acc then acc else num0) m)
            (map ofZ zs) (ofZ a)
  = ofZ (a + Zsum zs).
Proof.
  revert a. induction zs as [|z zs IH]; intros a Hb; simpl in *.
  - by rewrite Z.add_0_r.
  - pose proof (ZsumAbs_nonneg zs).
    rewrite ofZ_truthy by lia.
    rewrite add_ofZ by lia. rewrite IH by lia. f_equal. lia.
Qed.

Lemma jsSum_ofZ (zs : list Z) :
  ZsumAbs zs < 2 ^ 53 -> jsSum (map ofZ zs) = ofZ (Zsum zs).
Proof. intros H. apply (fold_add_ofZ zs 0). simpl. lia. Qed.

Lemma runningTotal_ofZ (zs : list Z) :
  ZsumAbs zs < 2 ^ 53 -> runningTotal (map ofZ zs) = ofZ (Zsum zs).
Proof. intros H. apply (fold_running_ofZ zs 0). simpl. lia. Qed.

(** Summing group by group is summing everything, when every record's
    label is one of the distinct keys. *)
Lemma Zsum_indicator (keys : list string) (k : string) (c : Z) :
  NoDup keys -> In k keys ->
  Zsum (map (fun l => if String.eqb k l then c else 0) keys) = c.
Proof.
  induction keys as [|x keys IH]; intros Hnd Hk; simpl; [done|].
  apply NoDup_cons in Hnd as [Hx Hnd].
  destruct (String.eqb_spec k x) as [->|Hne].
  - rewrite (map_ext_in _ (fun _ => 0)).
    + assert (H0 : forall l : list string, Zsum (map (fun _ => 0) l) = 0)
        by (induction l; simpl; lia).
      rewrite H0. lia.
    + intros l Hl. destruct (String.eqb_spec x l) as [<-|_]; [|done].
      by apply list_elem_of_In in Hl.
  - rewrite IH; [lia | done | by destruct Hk].
Qed.

Lemma Zsum_map_add {A : Type} (g h : A -> Z) (l : list A) :
  Zsum (map (fun x => g x + h x) l) = Zsum (map g l) + Zsum (map h l).
Proof. induction l as [|x l IH]; simpl; lia. Qed.

Lemma Zsum_groups (label : Rec.t -> string) (f : Rec.t -> Z)
    (rows : list Rec.t) (keys : list string) :
  NoDup keys -> (forall r, In r rows -> In (label r) keys) ->
  Zsum (map (fun l =>
               Zsum (map f (List.filter (fun r => String.eqb (label r) l)
                                        rows))) keys)
  = Zsum (map f rows).
Proof.
  intros Hnd. induction rows as [|r rows IH]; intros Hkeys; simpl.
  - induction keys; simpl; [done|]. apply NoDup_cons in Hnd as [_ Hnd].
    rewrite IHkeys by done. done.
  - rewrite <- IH by (intros r' Hr'; apply Hkeys; by right).
    rewrite <- (Zsum_indicator keys (label r) (f r) Hnd)
      by (apply Hkeys; by left).
    rewrite <- Zsum_map_add. f_equal. apply map_ext. intros l.
    by destruct (String.eqb (label r) l).
Qed.

Lemma ZsumAbs_map {A : Type} (f : A -> Z) (l : list A) :
  ZsumAbs (map f l) = Zsum (map (fun x => Z.abs (f x)) l).
Proof. induction l as [|x l IH]; simpl; lia. Qed.

Lemma ZsumAbs_filter_le {A : Type} (f : A -> Z) (p : A -> bool) (l : list A) :
  ZsumAbs (map f (List.filter p l)) <= ZsumAbs (map f l).
Proof.
  induction l as [|x l IH]; simpl; [lia|].
  destruct (p x); simpl; lia.
Qed.

Lemma ZsumAbs_le_pointwise {A : Type} (g h : A -> Z) (l : list A) :
  (forall x, Z.abs (g x) <= h x) ->
  ZsumAbs (map g l) <= Zsum (map h l).
Proof.
  intros Hgh. induction l as [|x l IH]; simpl; [lia|].
  specialize (Hgh x). lia.
Qed.

Lemma sumMetric_jsSum (rows : list Rec.t) :
  sumMetric rows = jsSum (map Rec.metric rows).
Proof.
  unfold sumMetric, jsSum. generalize num0 as acc.
  induction rows as [|r rows IH]; intros acc; simpl; [done|]. apply IH.
Qed.

(** C10, as the code has it.  When every metric is an integer and the
    magnitudes of the metrics add up to less than [2 ^ 53], no addition
    rounds, and the totals of the groups add up to the sum of the metrics
    of the records. *)
Theorem aggregate_total_exact (rows : list Rec.t) (dimension : string)
    (Hint : Forall (fun r => Rec.metric r = ofZ (intValue (Rec.metric r)))
                   rows)
    (Hbound : ZsumAbs (map (fun r => intValue (Rec.metric r)) rows) < 2 ^ 53) :
  jsSum (map snd (aggregate rows dimension)) = sumMetric rows.
Proof.
  set (z := fun r => intValue (Rec.metric r)) in *.
  set (label := labelOf dimension).
  set (keys := firstSeen (map label rows)).
  set (G := fun l => map z (List.filter (fun r => String.eqb (label r) l) rows)).
  assert (Hmetric : forall p : Rec.t -> bool,
            map Rec.metric (List.filter p rows)
            = map ofZ (map z (List.filter p rows))).
  { intros p. rewrite map_map. apply map_ext_in. intros r Hr.
    apply filter_In in Hr as [Hr _]. rewrite Forall_forall in Hint.
    by apply Hint, list_elem_of_In. }
  assert (Hall : map Rec.metric rows = map ofZ (map z rows)).
  { rewrite map_map. apply map_ext_in. intros r Hr.
    rewrite Forall_forall in Hint. by apply Hint, list_elem_of_In. }
  assert (Htotal : forall l,
            runningTotal (groupMetrics dimension rows l) = ofZ (Zsum (G l))).
  { intros l. unfold groupMetrics. rewrite Hmetric.
    apply runningTotal_ofZ. pose proof (ZsumAbs_filter_le z
      (fun r => String.eqb (labelOf dimension r) l) rows).
    unfold G, label. lia. }
  assert (Hkeys : forall r, In r rows -> In (label r) keys).
  { intros r Hr. apply firstSeen_In. by apply in_map. }
  assert (Hnd : List.NoDup keys) by apply NoDup_ListNoDup, firstSeen_NoDup.
  assert (Hperm : Permutation (map snd (aggregate rows dimension))
                              (map ofZ (map (fun l => Zsum (G l)) keys))).
  { unfold aggregate. rewrite sort_perm, accumulate_keyed.
    unfold keyed. rewrite !map_map. simpl.
    erewrite map_ext; [reflexivity|]. intros l. simpl. apply Htotal. }
  apply Permutation_map_inv in Hperm as (ws & Hws & Hpw).
  assert (Hsum : Zsum ws = Zsum (map z rows)).
  { rewrite <- (Zsum_perm _ _ Hpw).
    apply (Zsum_groups label z rows keys); [by apply NoDup_ListNoDup | done]. }
  assert (Habs : ZsumAbs ws <= ZsumAbs (map z rows)).
  { rewrite <- (ZsumAbs_perm _ _ Hpw).
    etrans; [apply (ZsumAbs_le_pointwise _
                      (fun l => Zsum (map (fun r => Z.abs (z r))
                                  (List.filter (fun r => String.eqb (label r) l)
                                               rows))))|].
    - intros l. unfold G. rewrite <- ZsumAbs_map. apply Zsum_abs_le.
    - rewrite (Zsum_groups label (fun r => Z.abs (z r)) rows keys);
        [|by apply NoDup_ListNoDup | done].
      by rewrite ZsumAbs_map. }
  rewrite Hws, jsSum_ofZ by lia.
  rewrite sumMetric_jsSum, Hall, jsSum_ofZ by done.
  by rewrite Hsum.
Qed.
End ExactTotals.

(** C10, as stated, fails: binary64 addition rounds, and it rounds
    differently along the records and along the groups.  With metrics
    1e16, 1, -1e16, 1 on products A, B, A, B the records add up to 1 and the
    group totals (B: 2, A: 0) to 2. *)
Lemma aggregate_total_rounds :
  let rows :=
    [ Rec.mk "A" EmptyString EmptyString EmptyString (numeric "10000000000000000");
      Rec.mk "B" EmptyString EmptyString EmptyString (numeric "1");
      Rec.mk "A" EmptyString EmptyString EmptyString (numeric "-10000000000000000");
      Rec.mk "B" EmptyString EmptyString EmptyString (numeric "1") ] in
  forallb (fun r => isFinite (Rec.metric r)) rows = true
  /\ aggregate rows "product" = [("B", ofZ 2); ("A", ofZ 0)]
  /\ sumMetric rows = ofZ 1
  /\ jsSum (map snd (aggregate rows "product")) <> sumMetric rows.
Proof.
  intros rows. repeat split; try (vm_compute; reflexivity).
  vm_compute. discriminate.
Qed.

Lemma aggregate_total_exact_witness :
  let rows :=
    [ Rec.mk "A" EmptyString EmptyString EmptyString (ofZ 3);
      Rec.mk "B" EmptyString EmptyString EmptyString (ofZ 5);
      Rec.mk "A" EmptyString EmptyString EmptyString (ofZ 2) ] in
  Forall (fun r => Rec.metric r = ofZ (intValue (Rec.metric r))) rows
  /\ (ZsumAbs (map (fun r => intValue (Rec.metric r)) rows) < 2 ^ 53)%Z
  /\ jsSum (map snd (aggregate rows "product")) = sumMetric rows.
Proof.
  intros rows.
  assert (Hint : Forall (fun r => Rec.metric r = ofZ (intValue (Rec.metric r)))
                        rows)
    by (repeat constructor).
  assert (Hbound : (ZsumAbs (map (fun r => intValue (Rec.metric r)) rows)
                    < 2 ^ 53)%Z)
    by (vm_compute; reflexivity).
  exact (conj Hint (conj Hbound
           (aggregate_total_exact rows "product" Hint Hbound))).
Defined.

(* ================================================================== *)
(** * Part III: further properties of the code *)
(* ================================================================== *)

Lemma trimEnd_cons (c : ascii) (s : string) :
  trimEnd (String c s)
  = match trimEnd s with
    | EmptyString => if isWhiteSpace c then EmptyString else str1 c
    | t => String c t
    end.
Proof. reflexivity. Qed.

Lemma trimEnd_idem (s : string) : trimEnd (trimEnd s) = trimEnd s.
Proof.
  induction s as [|c s IH]; [done|].
  rewrite trimEnd_cons. destruct (trimEnd s) as [|d t] eqn:Ht.
  - destruct (isWhiteSpace c) eqn:Hc; [done|].
    unfold str1. rewrite trimEnd_cons. cbn [trimEnd]. by rewrite Hc.
  - rewrite trimEnd_cons, IH. done.
Qed.

Lemma split_cons (d c : ascii) (s : string) :
  split d (String c s)
  = if Ascii.eqb c d then EmptyString :: split d s
    else match split d s with
         | cur :: rest => String c cur :: rest
         | [] => [str1 c]
         end.
Proof. reflexivity. Qed.

Lemma split_nonempty (d : ascii) (s : string) : split d s <> [].
Proof.
  induction s as [|c s IH]; [done|].
  rewrite split_cons. destruct (Ascii.eqb c d); [done|].
  by destruct (split d s).
Qed.

Lemma split_length (d : ascii) (s : string) :
  length (split d s) = S (countChar d s).
Proof.
  induction s as [|c s IH]; [done|].
  rewrite split_cons. cbn [countChar]. destruct (Ascii.eqb c d); simpl.
  - by rewrite IH.
  - destruct (split d s); simpl in *; lia.
Qed.

Lemma join_cons (sep x y : string) (rest : list string) :
  join sep (x :: y :: rest) = x +:+ sep +:+ join sep (y :: rest).
Proof. reflexivity. Qed.

(** Joining the pieces of a split with the separator gives the string
    back. *)
Lemma join_split (d : ascii) (s : string) : join (str1 d) (split d s) = s.
Proof.
  induction s as [|c s IH]; [done|].
  rewrite split_cons. destruct (Ascii.eqb_spec c d) as [->|Hne].
  - destruct (split d s) as [|cur rest] eqn:Hs;
      [by apply split_nonempty in Hs|].
    rewrite join_cons, IH. reflexivity.
  - destruct (split d s) as [|cur rest] eqn:Hs;
      [by apply split_nonempty in Hs|].
    destruct rest as [|y rest].
    + simpl in *. by rewrite IH.
    + rewrite join_cons in *. rewrite append_cons. by rewrite IH.
Qed.

Lemma split_append (d : ascii) (s t : string) :
  countChar d s = 0 ->
  split d (s +:+ String d t) = s :: split d t.
Proof.
  induction s as [|c s IH]; intros Hs.
  - change (EmptyString +:+ String d t) with (String d t).
    rewrite split_cons. by rewrite Ascii.eqb_refl.
  - simpl in Hs. destruct (Ascii.eqb c d) eqn:Hc; [done|].
    rewrite append_cons, split_cons, Hc, IH by done. done.
Qed.

Lemma split_whole (d : ascii) (s : string) :
  countChar d s = 0 -> split d s = [s].
Proof.
  induction s as [|c s IH]; intros Hs; [done|].
  simpl in Hs. destruct (Ascii.eqb c d) eqn:Hc; [done|].
  rewrite split_cons, Hc, IH by done. done.
Qed.

(** Splitting a joined array of separator-free strings gives the array
    back. *)
Lemma split_join (d : ascii) (arr : list string) :
  arr <> [] -> Forall (fun x => countChar d x = 0) arr ->
  split d (join (str1 d) arr) = arr.
Proof.
  induction arr as [|x rest IH]; intros Hne Hall; [done|].
  apply Forall_cons in Hall as [Hx Hrest].
  destruct rest as [|y rest].
  - simpl. by apply split_whole.
  - rewrite join_cons. unfold str1 at 1.
    change (String d EmptyString +:+ join (str1 d) (y :: rest))
      with (String d (join (str1 d) (y :: rest))).
    rewrite split_append by done. f_equal. by apply IH.
Qed.

(** ** Tokenizer: lines *)

Lemma replaceCRLF_cons2 (c c' : ascii) (s : string) :
  replaceCRLF (String c (String c' s))
  = if Ascii.eqb c CR && Ascii.eqb c' LF then String LF (replaceCRLF s)
    else String c (replaceCRLF (String c' s)).
Proof. reflexivity. Qed.

Lemma map_trimEnd_cons_head (c : ascii) (xs ys : list string) :
  map trimEnd xs = map trimEnd ys ->
  map trimEnd match xs with
              | cur :: rest => String c cur :: rest
              | [] => [str1 c]
              end
  = map trimEnd match ys with
                | cur :: rest => String c cur :: rest
                | [] => [str1 c]
                end.
Proof.
  destruct xs as [|x xs], ys as [|y ys]; try done.
  cbn [map]. intros [= Hxy Hrest]. by rewrite !trimEnd_cons, Hxy, Hrest.
Qed.

(** A carriage return before a line feed is trailing white space of its
    line: replacing the pair by a line feed changes no trimmed line. *)
Lemma trimEnd_split_replaceCRLF (s : string) :
  map trimEnd (split LF (replaceCRLF s)) = map trimEnd (split LF s).
Proof.
  enough (map trimEnd (split LF (replaceCRLF s)) = map trimEnd (split LF s)
          /\ forall c, map trimEnd (split LF (replaceCRLF (String c s)))
                       = map trimEnd (split LF (String c s))) as [H _]
    by exact H.
  induction s as [|c' s [IH0 IH1]]; [split; [done|by intros c]|].
  split; [apply IH1|]. intros c.
  rewrite replaceCRLF_cons2.
  destruct (Ascii.eqb_spec c CR) as [->|Hc];
    [destruct (Ascii.eqb_spec c' LF) as [->|Hc']|]; cbn [andb].
  - rewrite !split_cons. cbn [Ascii.eqb CR LF ascii_of_N ascii_of_pos].
    rewrite Ascii.eqb_refl. simpl. f_equal. exact IH0.
  - rewrite (split_cons LF CR). rewrite (split_cons LF CR (String c' s)).
    change (Ascii.eqb CR LF) with false. cbv iota.
    by apply map_trimEnd_cons_head.
  - rewrite (split_cons LF c). rewrite (split_cons LF c (String c' s)).
    destruct (Ascii.eqb c LF).
    + cbn [map]. by rewrite IH1.
    + by apply map_trimEnd_cons_head.
Qed.

Lemma trimEnd_app_blank (s w : string) :
  trimEnd w = EmptyString -> trimEnd (s +:+ w) = trimEnd s.
Proof.
  intros Hw. induction s as [|c s IH]; [done|].
  by rewrite append_cons, !trimEnd_cons, IH.
Qed.

Lemma countChar_app (d : ascii) (s t : string) :
  countChar d (s +:+ t) = countChar d s + countChar d t.
Proof.
  induction s as [|c s IH]; [done|].
  rewrite append_cons. cbn [countChar]. rewrite IH. lia.
Qed.

Lemma append_assoc (s t u : string) : (s +:+ t) +:+ u = s +:+ (t +:+ u).
Proof.
  induction s as [|c s IH]; [done|]. by rewrite !append_cons, IH.
Qed.

(** The trimmed lines of a text of joined lines, before the blank ones
    are dropped. *)
Lemma lines_joined (lines : list string) :
  lines <> [] -> Forall (fun l => countChar LF l = 0) lines ->
  map trimEnd (split LF (replaceCRLF (join (str1 LF) lines)))
  = map trimEnd lines.
Proof.
  intros Hne Hlines. by rewrite trimEnd_split_replaceCRLF, split_join.
Qed.

(** X1.  The lines of a text.  A text written as lines joined by line feeds
    is read as those lines, each without its trailing white space, the
    blank ones left out. *)
Theorem toLines_join (lines : list string)
    (Hlines : Forall (fun l => countChar LF l = 0) lines) :
  toLines (join (str1 LF) lines)
  = List.filter (fun l => negb (isBlank l)) (map trimEnd lines).
Proof.
  unfold toLines. destruct lines as [|l lines]; [done|].
  by rewrite lines_joined.
Qed.

Lemma toLines_join_witness :
  let lines := ["Product,Value  "; "   "; "A,1" +:+ str1 CR] in
  Forall (fun l => countChar LF l = 0) lines
  /\ toLines (join (str1 LF) lines)
     = List.filter (fun l => negb (isBlank l)) (map trimEnd lines).
Proof.
  intros lines.
  assert (H : Forall (fun l => countChar LF l = 0) lines)
    by (repeat constructor).
  exact (conj H (toLines_join lines H)).
Defined.

Lemma split_join_crlf (lines : list string) :
  lines <> [] -> Forall (fun l => countChar LF l = 0) lines ->
  map trimEnd (split LF (join (String CR (str1 LF)) lines))
  = map trimEnd lines.
Proof.
  induction lines as [|x rest IH]; intros Hne Hall; [done|].
  apply Forall_cons in Hall as [Hx Hrest].
  destruct rest as [|y rest].
  - simpl. by rewrite split_whole.
  - rewrite join_cons.
    replace (x +:+ String CR (str1 LF) +:+ join (String CR (str1 LF)) (y :: rest))
      with ((x +:+ str1 CR)
            +:+ String LF (join (String CR (str1 LF)) (y :: rest))).
    2:{ rewrite append_assoc. reflexivity. }
    rewrite split_append.
    2:{ rewrite countChar_app, Hx. reflexivity. }
    cbn [map]. rewrite IH by done. f_equal.
    by apply trimEnd_app_blank.
Qed.

(** X2.  Line endings.  Lines joined by carriage return and line feed are
    parsed, and ingested, as the same lines joined by line feeds. *)
Theorem parseCsv_crlf (lines : list string)
    (Hlines : Forall (fun l => countChar LF l = 0) lines) :
  toLines (join (String CR (str1 LF)) lines) = toLines (join (str1 LF) lines)
  /\ parseCsv (join (String CR (str1 LF)) lines)
     = parseCsv (join (str1 LF) lines)
  /\ ingest (join (String CR (str1 LF)) lines)
     = ingest (join (str1 LF) lines).
Proof.
  assert (Heq : toLines (join (String CR (str1 LF)) lines)
                = toLines (join (str1 LF) lines)).
  { unfold toLines. destruct lines as [|l lines]; [done|].
    rewrite lines_joined, trimEnd_split_replaceCRLF by done.
    by rewrite split_join_crlf. }
  split; [done|]. unfold ingest, parseCsv. by rewrite Heq.
Qed.

Lemma parseCsv_crlf_witness :
  let lines := ["Product,Value"; "A,1"; "B,2"] in
  Forall (fun l => countChar LF l = 0) lines
  /\ (toLines (join (String CR (str1 LF)) lines)
      = toLines (join (str1 LF) lines)
      /\ parseCsv (join (String CR (str1 LF)) lines)
         = parseCsv (join (str1 LF) lines)
      /\ ingest (join (String CR (str1 LF)) lines)
         = ingest (join (str1 LF) lines)).
Proof.
  intros lines.
  assert (H : Forall (fun l => countChar LF l = 0) lines)
    by (repeat constructor).
  exact (conj H (parseCsv_crlf lines H)).
Defined.

(** ** Tokenizer: texts without lines *)

Lemma string_length_ind (P : string -> Prop) :
  (forall s, (forall t, String.length t < String.length s -> P t) -> P s) ->
  forall s, P s.
Proof.
  intros Hstep s. remember (String.length s) as n eqn:Hn. revert s Hn.
  induction (lt_wf n) as [n _ IH]. intros s ->.
  apply Hstep. intros t Ht. by apply (IH (String.length t)).
Qed.

Lemma splitQuoted_length (d : ascii) (line current : string) (inQuotes : bool)
    (result : list string) :
  length result < length (splitQuoted d line current inQuotes result).
Proof.
  revert current inQuotes result.
  induction line as [line IH] using string_length_ind.
  intros current inQuotes result. destruct line as [|ch rest].
  - simpl. rewrite length_app. simpl. lia.
  - cbn [splitQuoted]. destruct (Ascii.eqb ch DQUOTE).
    + destruct rest as [|ch' rest']; [apply IH; simpl; lia|].
      destruct (inQuotes && Ascii.eqb ch' DQUOTE); apply IH; simpl; lia.
    + destruct (Ascii.eqb ch d && negb inQuotes); [|apply IH; simpl; lia].
      etransitivity; [|apply IH; simpl; lia].
      rewrite length_app. simpl. lia.
Qed.

Lemma splitCsvLine_nonempty (line : string) (delimiter : ascii) :
  splitCsvLine line delimiter <> [].
Proof.
  unfold splitCsvLine. destruct (Ascii.eqb delimiter TAB).
  - apply split_nonempty.
  - intros H. pose proof (splitQuoted_length delimiter line EmptyString false [])
      as Hlen.
    rewrite H in Hlen. simpl in Hlen. lia.
Qed.

Lemma scanHeader_bound (allCells : list (list string)) :
  allCells <> [] -> fst (scanHeader allCells 0 0 0) < length allCells.
Proof.
  intros Hne. destruct (findIndex isHeaderRow allCells) as [k|] eqn:Hfind.
  - rewrite (scanHeader_Some _ _ _ _ k) by done. simpl.
    apply findIndex_Some in Hfind as [(cells & Hk & _) _].
    by eapply lookup_lt_Some.
  - by destruct (scanHeader_widest allCells Hfind) as [[H|H] _].
Qed.

Lemma repairHeader_length (headerCells firstDataCells : list string)
    (maxCols : nat) :
  length headerCells
  <= length (repairHeader headerCells firstDataCells maxCols).
Proof.
  unfold repairHeader.
  set (cells := if startsWithBranch headerCells && _ then _ else _).
  assert (length headerCells <= length cells) as Hle
    by (unfold cells; case_match; simpl; lia).
  case_match; [|done]. rewrite length_app. lia.
Qed.

(** The table of a text that has lines: the cells of the lines, the header
    index, the repaired header cells and their sanitized names. *)
Lemma parseCsv_lines (text : string) :
  toLines text <> [] ->
  let lines := toLines text in
  let allCells := map (fun l => splitCsvLine l (detectDelimiter lines)) lines in
  let headerIdx := fst (scanHeader allCells 0 0 0) in
  let maxCols := snd (scanHeader allCells 0 0 0) in
  let firstDataCells :=
    default [] (List.find (existsb (fun v => negb (isBlank v)))
                          (skipn (S headerIdx) allCells)) in
  let rawHeaders :=
    repairHeader (nth headerIdx allCells []) firstDataCells maxCols in
  exists headers,
    sanitizeHeaders rawHeaders = Some headers
    /\ length headers = length rawHeaders
    /\ parseCsv text
       = Some (Parsed.mk headers
                 (map (mkRow headers)
                      (List.filter (fun cells => negb (forallb isBlank cells))
                                   (skipn (S headerIdx) allCells)))
                 rawHeaders).
Proof.
  intros Hne. unfold parseCsv.
  destruct (toLines text) as [|l ls] eqn:Hlines; [done|].
  remember (l :: ls) as lines eqn:Hl. cbv zeta.
  destruct (scanHeader _ 0 0 0) as [headerIdx maxCols]. cbn [fst snd].
  match goal with
  | |- context [sanitizeHeaders ?raw] =>
      destruct (sanitizeFrom_spec raw 0 ∅) as (names & Hs & Hlen & _)
  end.
  unfold sanitizeHeaders in *. exists names.
  assert (Hfind : forall o : option (list string),
             match o with Some c => c | None => [] end = default [] o)
    by (by intros [?|]).
  rewrite Hfind in *. rewrite Hs. done.
Qed.

(** X3.  Texts without data.  [parseCsv] returns the empty table exactly for
    a text all of whose lines are blank; the table of a text that has a
    line which is not blank has fewer rows than the text has such lines;
    and a text of at most one such line is reported as having no data
    rows. *)
Theorem parseCsv_no_lines (text : string) :
  exists t : Parsed.t,
    parseCsv text = Some t
    /\ (toLines text = [] -> t = emptyTable)
    /\ (Parsed.headers t = [] <-> toLines text = [])
    /\ (toLines text <> [] ->
        length (Parsed.rows t) < length (toLines text))
    /\ (length (toLines text) <= 1 -> ingest text = Some NoDataRows).
Proof.
  destruct (toLines text) as [|l ls] eqn:Hlines.
  - exists emptyTable. unfold ingest, parseCsv. rewrite Hlines.
    repeat split; try done.
  - destruct (parseCsv_lines text) as (headers & Hs & Hlen & Hp);
      [by rewrite Hlines|].
    rewrite Hlines in *. cbv zeta in *.
    set (lines := l :: ls) in *.
    set (allCells := map (fun l => splitCsvLine l (detectDelimiter lines))
                         lines) in *.
    assert (HallCells : allCells <> []) by done.
    pose proof (scanHeader_bound allCells HallCells) as Hidx.
    set (headerIdx := fst (scanHeader allCells 0 0 0)) in *.
    eexists. split; [exact Hp|]. cbn [Parsed.headers Parsed.rows].
    assert (Hrows : length (map (mkRow headers)
                     (List.filter (fun cells => negb (forallb isBlank cells))
                                  (skipn (S headerIdx) allCells)))
                    <= length lines - 1).
    { rewrite length_map.
      etransitivity; [apply List.filter_length_le|].
      rewrite length_skipn. unfold allCells. rewrite length_map. lia. }
    split; [done|]. split; [|split; [intros _; simpl in Hrows |- *; lia|]].
    + split; [|done]. intros ->.
      pose proof (repairHeader_length (nth headerIdx allCells [])
        (default [] (List.find (existsb (fun v => negb (isBlank v)))
                               (skipn (S headerIdx) allCells)))
        (snd (scanHeader allCells 0 0 0))) as Hrep.
      rewrite <- Hlen in Hrep.
      destruct (nth_lookup_or_length allCells headerIdx []) as [Hn|Hn]; [|lia].
      unfold allCells in Hn at 1.
      apply list_lookup_fmap_Some in Hn as (line & Hline & _).
      pose proof (splitCsvLine_nonempty line (detectDelimiter lines)) as Hcell.
      rewrite <- Hline in Hcell.
      destruct (nth headerIdx allCells []); [done | simpl in Hrep; lia].
    + intros Hle. unfold ingest. rewrite Hp.
      remember (map (mkRow headers) _) as rows eqn:Hr. clear Hr.
      destruct rows as [|r rs]; [done|].
      unfold lines in Hle, Hrows. simpl in Hle, Hrows. lia.
Qed.

(** X30.  The rows of a table.  [parseCsv] returns a table for every text.
    Its headers have no two entries equal up to case.  Its rows are the
    data lines of the text, in their order: the row of a line has as its
    keys the headers other than [__proto__], and at each such header it
    holds the cell of the line at the header's position, the empty string
    where the line is shorter.  Hence a table none of whose headers is
    [__proto__] has rows with exactly the headers as keys. *)
Theorem parseCsv_invariant (text : string) :
  exists t : Parsed.t,
    parseCsv text = Some t
    /\ NoDup (toLowerCase <$> Parsed.headers t)
    /\ Forall2 (fun (cells : list string) (r : row) =>
                  dom r = list_to_set (Parsed.headers t) ∖ {[PROTO]}
                  /\ (PROTO ∉ Parsed.headers t ->
                      dom r = list_to_set (Parsed.headers t))
                  /\ forall (i : nat) (h : string),
                       Parsed.headers t !! i = Some h -> h <> PROTO ->
                       r !! h = Some (default EmptyString (cells !! i)))
               (dataCells text) (Parsed.rows t).
Proof.
  unfold parseCsv, dataCells. destruct (toLines text) as [|l ls] eqn:Hlines.
  - exists emptyTable. repeat split; constructor.
  - remember (l :: ls) as lines eqn:Hl. clear Hl.
    destruct (scanHeader _ 0 0 0) as [headerIdx maxCols].
    unfold sanitizeHeaders.
    destruct (sanitizeFrom_spec
                (repairHeader
                   (nth headerIdx
                        (map (fun l => splitCsvLine l (detectDelimiter lines))
                             lines) [])
                   match List.find (existsb (fun v => negb (isBlank v)))
                           (skipn (S headerIdx)
                              (map (fun l => splitCsvLine l
                                                (detectDelimiter lines))
                                   lines)) with
                   | Some c => c
                   | None => []
                   end maxCols) 0 ∅)
      as (names & -> & _ & Hnd & _).
    simpl. eexists. split; [reflexivity|]. simpl. split; [done|].
    apply Forall2_fmap_r, Forall_Forall2_diag, Forall_forall.
    intros cells _.
    split; [apply mkRow_dom|]. split.
    + intros Hp. rewrite mkRow_dom. apply set_eq. intros x.
      rewrite elem_of_difference, elem_of_list_to_set, elem_of_singleton.
      split; [tauto|]. intros Hx. split; [done|]. by intros ->.
    + intros i h Hi Hp. apply mkRow_lookup; [|done..].
      by eapply NoDup_fmap_1.
Qed.

(** ** Tokenizer: cells *)

Lemma splitQuoted_cons (d ch : ascii) (rest current : string) (inQuotes : bool)
    (result : list string) :
  splitQuoted d (String ch rest) current inQuotes result
  = if Ascii.eqb ch DQUOTE then
      match rest with
      | String ch' rest' =>
          if inQuotes && Ascii.eqb ch' DQUOTE
          then splitQuoted d rest' (current +:+ str1 DQUOTE) inQuotes result
          else splitQuoted d rest current (negb inQuotes) result
      | EmptyString => splitQuoted d rest current (negb inQuotes) result
      end
    else if Ascii.eqb ch d && negb inQuotes
    then splitQuoted d rest EmptyString inQuotes (result ++ [current])
    else splitQuoted d rest (current +:+ str1 ch) inQuotes result.
Proof. reflexivity. Qed.

Lemma append_str1 (s : string) (c : ascii) (t : string) :
  (s +:+ str1 c) +:+ t = s +:+ String c t.
Proof. by rewrite append_assoc. Qed.

Lemma append_nil_r (s : string) : s +:+ EmptyString = s.
Proof. induction s as [|c s IH]; [done|]. by rewrite append_cons, IH. Qed.

(** Outside quotes, on a line without quotes, the loop splits at every
    delimiter. *)
Lemma splitQuoted_plain (d : ascii) (line current : string)
    (result : list string) :
  countChar DQUOTE line = 0 ->
  splitQuoted d line current false result
  = result ++ match split d line with
              | cur :: rest => (current +:+ cur) :: rest
              | [] => [current]
              end.
Proof.
  revert current result. induction line as [|ch line IH];
    intros current result Hq.
  - simpl. by rewrite append_nil_r.
  - simpl in Hq. rewrite splitQuoted_cons, split_cons.
    destruct (Ascii.eqb ch DQUOTE) eqn:Hch; [done|].
    simpl in Hq. cbn [negb]. rewrite andb_true_r.
    destruct (Ascii.eqb ch d).
    + rewrite IH by done. rewrite <- app_assoc. simpl.
      rewrite append_nil_r.
      destruct (split d line) as [|cur rest] eqn:Hs;
        [by apply split_nonempty in Hs | reflexivity].
    + rewrite IH by done.
      destruct (split d line) as [|cur rest] eqn:Hs;
        [by apply split_nonempty in Hs|].
      by rewrite append_str1.
Qed.

(** X4.  Plain cells.  On a line without quotes, and on any line when the
    delimiter is the tab, the cells are the pieces between the delimiters:
    one more than there are delimiters, and joined by the delimiter they
    give the line back. *)
Theorem splitCsvLine_plain (line : string) (delimiter : ascii)
    (Hplain : countChar DQUOTE line = 0 \/ delimiter = TAB) :
  splitCsvLine line delimiter = split delimiter line
  /\ length (splitCsvLine line delimiter) = S (countChar delimiter line)
  /\ join (str1 delimiter) (splitCsvLine line delimiter) = line.
Proof.
  assert (Heq : splitCsvLine line delimiter = split delimiter line).
  { unfold splitCsvLine.
    destruct (Ascii.eqb_spec delimiter TAB) as [->|Hne]; [done|].
    destruct Hplain as [Hq|]; [|done].
    rewrite splitQuoted_plain by done. simpl.
    destruct (split delimiter line) as [|cur rest] eqn:Hs;
      [by apply split_nonempty in Hs | reflexivity]. }
  rewrite Heq. split; [done|]. split; [apply split_length | apply join_split].
Qed.

Lemma splitCsvLine_plain_witness :
  let line := "East,10,,x" in
  (countChar DQUOTE line = 0 \/ COMMA = TAB)
  /\ (splitCsvLine line COMMA = split COMMA line
      /\ length (splitCsvLine line COMMA) = S (countChar COMMA line)
      /\ join (str1 COMMA) (splitCsvLine line COMMA) = line).
Proof.
  intros line.
  assert (H : countChar DQUOTE line = 0 \/ COMMA = TAB) by (left; reflexivity).
  exact (conj H (splitCsvLine_plain line COMMA H)).
Defined.

Lemma splitQuoted_open (d : ascii) (rest current : string)
    (result : list string) :
  splitQuoted d (String DQUOTE rest) current false result
  = splitQuoted d rest current true result.
Proof. by destruct rest. Qed.

(** Inside quotes the loop copies the cell, a doubled quote as one quote,
    up to the closing quote. *)
Lemma splitQuoted_inside (d : ascii) (cell rest current : string)
    (result : list string) :
  match rest with
  | String c _ => Ascii.eqb c DQUOTE = false
  | EmptyString => True
  end ->
  splitQuoted d (doubleQuotes cell +:+ String DQUOTE rest) current true result
  = splitQuoted d rest (current +:+ cell) false result.
Proof.
  intros Hrest. revert current.
  induction cell as [|c cell IH]; intros current.
  - change (doubleQuotes EmptyString +:+ String DQUOTE rest)
      with (String DQUOTE rest).
    rewrite splitQuoted_cons, append_nil_r.
    change (Ascii.eqb DQUOTE DQUOTE) with true.
    destruct rest as [|c rest]; [done|]. by rewrite Hrest.
  - cbn [doubleQuotes]. destruct (Ascii.eqb_spec c DQUOTE) as [->|Hc].
    + rewrite !append_cons, splitQuoted_cons.
      change (Ascii.eqb DQUOTE DQUOTE) with true. cbn [andb].
      rewrite IH. by rewrite append_str1.
    + rewrite append_cons, splitQuoted_cons.
      apply Ascii.eqb_neq in Hc. rewrite Hc. cbn [negb].
      rewrite andb_false_r, IH. by rewrite append_str1.
Qed.

Lemma splitQuoted_quoted_cells (cells : list string) (result : list string) :
  cells <> [] ->
  splitQuoted COMMA (join (str1 COMMA) (map quoteCell cells)) EmptyString false
              result
  = result ++ cells.
Proof.
  revert result. induction cells as [|x rest IH]; intros result Hne; [done|].
  destruct rest as [|y rest].
  - cbn [map join]. unfold quoteCell. unfold str1 at 1. rewrite append_cons.
    change (EmptyString +:+ doubleQuotes x +:+ str1 DQUOTE)
      with (doubleQuotes x +:+ String DQUOTE EmptyString).
    by rewrite splitQuoted_open, splitQuoted_inside.
  - cbn [map]. rewrite join_cons. unfold quoteCell at 1.
    unfold str1 at 1. rewrite !append_cons.
    change (EmptyString +:+ doubleQuotes x +:+ str1 DQUOTE)
      with (doubleQuotes x +:+ str1 DQUOTE).
    rewrite append_assoc. unfold str1 at 1. rewrite append_cons.
    change (EmptyString +:+ str1 COMMA +:+ join (str1 COMMA)
                                             (quoteCell y :: map quoteCell rest))
      with (String COMMA (join (str1 COMMA)
                               (quoteCell y :: map quoteCell rest))).
    rewrite splitQuoted_open, splitQuoted_inside by done.
    rewrite splitQuoted_cons. change (Ascii.eqb COMMA DQUOTE) with false.
    rewrite Ascii.eqb_refl. cbn [negb andb].
    change (quoteCell y :: map quoteCell rest) with (map quoteCell (y :: rest)).
    rewrite IH by done. by rewrite <- app_assoc.
Qed.

(** X5.  Quoted cells.  A line written with every cell between quotes, the
    quotes of a cell doubled, and the cells joined by commas is split back
    into those cells, whatever characters they hold. *)
Theorem splitCsvLine_quoted_cells (cells : list string) (Hcells : cells <> []) :
  splitCsvLine (join (str1 COMMA) (map quoteCell cells)) COMMA = cells.
Proof.
  unfold splitCsvLine. change (Ascii.eqb COMMA TAB) with false. cbv iota.
  by rewrite splitQuoted_quoted_cells.
Qed.

Lemma splitCsvLine_quoted_cells_witness :
  let cells :=
    ["a,b"; EmptyString; "say " +:+ str1 DQUOTE +:+ "hi" +:+ str1 DQUOTE] in
  cells <> []
  /\ splitCsvLine (join (str1 COMMA) (map quoteCell cells)) COMMA = cells.
Proof.
  intros cells.
  assert (H : cells <> []) by discriminate.
  exact (conj H (splitCsvLine_quoted_cells cells H)).
Defined.

(** ** Tokenizer: trimmed names *)

Lemma trimStart_idem (s : string) : trimStart (trimStart s) = trimStart s.
Proof.
  induction s as [|c s IH]; [done|].
  simpl. destruct (isWhiteSpace c) eqn:Hc; [done|]. simpl. by rewrite Hc.
Qed.

Lemma trimEnd_fixed_tail (c : ascii) (s : string) :
  trimEnd (String c s) = String c s -> trimEnd s = s.
Proof.
  rewrite trimEnd_cons. destruct (trimEnd s) as [|d t] eqn:Ht.
  - destruct (isWhiteSpace c); [done|]. by intros [= <-].
  - by intros [= <-].
Qed.

Lemma trimEnd_trimStart (t : string) :
  trimEnd t = t -> trimEnd (trimStart t) = trimStart t.
Proof.
  induction t as [|c s IH]; [done|]. intros Ht.
  simpl trimStart. destruct (isWhiteSpace c); [|done].
  apply IH. by eapply trimEnd_fixed_tail.
Qed.

Lemma trim_idem (s : string) : trim (trim s) = trim s.
Proof.
  unfold trim. rewrite trimEnd_trimStart by apply trimEnd_idem.
  apply trimStart_idem.
Qed.

Lemma trimStart_head (t : string) (c : ascii) (s : string) :
  trimStart t = String c s -> isWhiteSpace c = false.
Proof.
  induction t as [|d t IH]; [done|]. simpl.
  destruct (isWhiteSpace d) eqn:Hd; [done|]. by intros [= <- _].
Qed.

Lemma trimEnd_app_fixed (x y : string) :
  y <> EmptyString -> trimEnd y = y -> trimEnd (x +:+ y) = x +:+ y.
Proof.
  intros Hne Hy. induction x as [|d x IH]; [done|].
  rewrite append_cons, trimEnd_cons, IH.
  destruct (x +:+ y) eqn:Hxy; [|done].
  destruct x; [by subst | done].
Qed.

Lemma isWhiteSpace_digit (x : N) : isWhiteSpace (pretty_N_char x) = false.
Proof. unfold pretty_N_char. repeat case_match; reflexivity. Qed.

Lemma pretty_N_go_trimEnd (x : N) (s : string) :
  trimEnd s = s -> (0 < x)%N \/ s <> EmptyString ->
  trimEnd (pretty_N_go x s) = pretty_N_go x s
  /\ pretty_N_go x s <> EmptyString.
Proof.
  revert s. induction (N.lt_wf_0 x) as [x _ IH]; intros s Hs Hne.
  assert (x = 0 \/ 0 < x)%N as [->|Hpos] by lia.
  - rewrite pretty_N_go_0. destruct Hne as [?|?]; [lia | done].
  - rewrite pretty_N_go_step by done. apply IH.
    + by apply N.div_lt.
    + rewrite trimEnd_cons, Hs. destruct s; [|done].
      by rewrite isWhiteSpace_digit.
    + by right.
Qed.

Lemma pretty_nat_trimEnd (n : nat) :
  trimEnd (pretty n) = pretty n /\ pretty n <> EmptyString.
Proof.
  unfold pretty, pretty_nat, pretty, pretty_N.
  case_decide; [done|]. apply pretty_N_go_trimEnd; [done | left; lia].
Qed.

(** A name is clean when it is not empty and [trim] leaves it as it is. *)
Lemma clean_app (x y : string) :
  truthy x = true -> trim x = x -> y <> EmptyString -> trimEnd y = y ->
  truthy (x +:+ y) = true /\ trim (x +:+ y) = x +:+ y.
Proof.
  intros Hx Htx Hy Hty. destruct x as [|c x]; [done|].
  split; [done|]. unfold trim. rewrite trimEnd_app_fixed by done.
  rewrite append_cons. simpl.
  unfold trim in Htx. apply trimStart_head in Htx. by rewrite Htx.
Qed.

Lemma baseName_clean (h : string) (idx : nat) :
  truthy (baseName h idx) = true /\ trim (baseName h idx) = baseName h idx.
Proof.
  unfold baseName. destruct (truthy (trim h)) eqn:Ht.
  - split; [done | apply trim_idem].
  - destruct (pretty_nat_trimEnd (idx + 1)) as [Hp Hne].
    by apply (clean_app "col").
Qed.

Lemma candidate_clean (base : string) (k : nat) :
  truthy base = true -> trim base = base ->
  truthy (candidate base k) = true
  /\ trim (candidate base k) = candidate base k.
Proof.
  intros Hb Ht. destruct k as [|k]; [done|].
  unfold candidate. destruct (pretty_nat_trimEnd (S k)) as [Hp Hne].
  apply clean_app; [done..| |].
  - by destruct (pretty (S k)).
  - change ("_" +:+ pretty (S k)) with (String "_" (pretty (S k))).
    rewrite trimEnd_cons, Hp. by destruct (pretty (S k)).
Qed.

(** The renaming loop returns the first candidate that is free. *)
Lemma freshName_first (fuel : nat) (used : gset string) (base n : string)
    (k : nat) :
  freshName fuel used base (candidate base k) (S k) = Some n ->
  exists j, k <= j /\ n = candidate base j
            /\ (toLowerCase n ∉ used)
            /\ forall j', k <= j' < j -> toLowerCase (candidate base j') ∈ used.
Proof.
  revert k. induction fuel as [|fuel IH]; intros k; simpl.
  - case_decide as Hin; [done|]. intros [= <-].
    exists k. repeat split; [lia | done | lia].
  - case_decide as Hin.
    + intros Hn. destruct (IH (S k) Hn) as (j & Hj & -> & Hfree & Hmin).
      exists j. repeat split; [lia | done..|].
      intros j' Hj'. destruct (decide (j' = k)) as [->|]; [done|].
      apply Hmin. lia.
    + intros [= <-]. exists k. repeat split; [lia | done | lia].
Qed.

Lemma sanitizeFrom_names (headers names : list string) (idx : nat)
    (used : gset string) :
  sanitizeFrom idx used headers = Some names ->
  Forall (fun n => truthy n = true /\ trim n = n) names
  /\ forall (i : nat) (h n : string),
       headers !! i = Some h -> names !! i = Some n ->
       exists k, n = candidate (baseName h (idx + i)) k
                 /\ forall j, j < k ->
                      toLowerCase (candidate (baseName h (idx + i)) j)
                      ∈ used ∪ list_to_set (toLowerCase <$> (take i names)).
Proof.
  revert names idx used. induction headers as [|h rest IH];
    intros names idx used; simpl.
  - intros [= <-]. split; [constructor | by intros i h n].
  - destruct (freshName _ _ _ _ _) as [name|] eqn:Hname; [|done]. simpl.
    destruct (sanitizeFrom _ _ rest) as [names'|] eqn:Hrest; [|done]. simpl.
    intros [= <-].
    apply (freshName_first _ _ _ _ 0) in Hname
      as (j & _ & -> & Hfree & Hmin).
    destruct (IH _ _ _ Hrest) as [Hclean Hnames].
    destruct (baseName_clean h idx) as [Hb Ht].
    split; [constructor; [by apply candidate_clean | done]|].
    intros [|i] h' n; simpl.
    + intros [= <-] [= <-]. rewrite Nat.add_0_r. exists j. split; [done|].
      intros j' Hj'. apply elem_of_union_l, Hmin. lia.
    + intros Hh' Hn. destruct (Hnames i h' n Hh' Hn) as (k & -> & Hk).
      replace (idx + S i) with (S idx + i) by lia.
      exists k. split; [done|]. intros j' Hj'.
      specialize (Hk j' Hj'). cbn [take fmap list_fmap list_to_set].
      apply elem_of_union in Hk as [Hk|Hk];
        [apply elem_of_union in Hk as [Hk|Hk]|].
      * by apply elem_of_union_r, elem_of_union_l.
      * by apply elem_of_union_l.
      * by apply elem_of_union_r, elem_of_union_r.
Qed.

(** X6.  Sanitized names.  [sanitizeHeaders] returns as many names as it is
    given cells, each of them not empty and free of surrounding white
    space: the trimmed cell, or [col] and its position for a blank cell,
    with the first suffix [_1], [_2], ... under which it differs, up to
    case, from every name before it. *)
Theorem sanitizeHeaders_names (headers : list string) :
  exists names : list string,
    sanitizeHeaders headers = Some names
    /\ length names = length headers
    /\ Forall (fun n => truthy n = true /\ trim n = n) names
    /\ forall (i : nat) (h n : string),
         headers !! i = Some h -> names !! i = Some n ->
         exists k : nat,
           n = candidate (baseName h i) k
           /\ (toLowerCase n ∉ (toLowerCase <$> take i names))
           /\ forall j, j < k ->
                toLowerCase (candidate (baseName h i) j)
                ∈ (toLowerCase <$> take i names).
Proof.
  unfold sanitizeHeaders.
  destruct (sanitizeFrom_spec headers 0 ∅) as (names & Hs & Hlen & Hnd & _).
  exists names. split; [done|]. split; [done|].
  destruct (sanitizeFrom_names _ _ _ _ Hs) as [Hclean Hnames].
  split; [done|]. intros i h n Hh Hn.
  destruct (Hnames i h n Hh Hn) as (k & -> & Hk). exists k.
  split; [done|]. split.
  - intros Hin. apply list_elem_of_fmap in Hin as (m & Hm & Hin).
    apply list_elem_of_lookup in Hin as (i' & Hi').
    apply lookup_take_Some in Hi' as [Hi' Hlt].
    assert (Hl1 : (toLowerCase <$> names) !! i' = Some (toLowerCase m))
      by (by rewrite list_lookup_fmap, Hi').
    assert (Hl2 : (toLowerCase <$> names) !! i
                  = Some (toLowerCase (candidate (baseName h i) k)))
      by (by rewrite list_lookup_fmap, Hn).
    rewrite <- Hm in Hl1.
    pose proof (NoDup_lookup _ _ _ _ Hnd Hl1 Hl2). lia.
  - intros j Hj. specialize (Hk j Hj). simpl in Hk.
    apply elem_of_union in Hk as [Hk|Hk]; [by apply elem_of_empty in Hk|].
    by apply elem_of_list_to_set in Hk.
Qed.

Lemma freshName_free (fuel : nat) (used : gset string) (base : string)
    (attempt : nat) :
  toLowerCase base ∉ used ->
  freshName fuel used base base attempt = Some base.
Proof. intros Hfree. destruct fuel; simpl; by rewrite decide_False. Qed.

Lemma sanitizeFrom_clean (headers : list string) (idx : nat)
    (used : gset string) :
  Forall (fun h => isBlank h = false) headers ->
  NoDup (map (fun h => toLowerCase (trim h)) headers) ->
  Forall (fun h => toLowerCase (trim h) ∉ used) headers ->
  sanitizeFrom idx used headers = Some (map trim headers).
Proof.
  revert idx used. induction headers as [|h rest IH];
    intros idx used Hblank Hnd Hused; [done|].
  apply Forall_cons in Hblank as [Hh Hblank].
  apply Forall_cons in Hused as [Hu Hused].
  cbn [map] in Hnd. apply NoDup_cons in Hnd as [Hnew Hnd].
  cbn [sanitizeFrom]. cbv zeta.
  assert (Hbase : baseName h idx = trim h).
  { unfold baseName, truthy. unfold isBlank in Hh. by rewrite Hh. }
  rewrite Hbase, freshName_free by done. simpl.
  rewrite IH; [done..|].
  apply Forall_forall. intros h' Hin Hel.
  rewrite Forall_forall in Hused.
  apply elem_of_union in Hel as [Hel|Hel]; [|by apply (Hused h')].
  apply elem_of_singleton in Hel. apply Hnew.
  rewrite <- Hel. apply list_elem_of_In, in_map_iff. exists h'.
  split; [done|]. by apply list_elem_of_In.
Qed.

(** X7.  Clean headers are kept.  Header cells that are not blank and differ
    from one another up to case and surrounding white space are only
    trimmed; [sanitizeHeaders] returns its own result unchanged. *)
Theorem sanitizeHeaders_clean (headers : list string)
    (Hblank : Forall (fun h => isBlank h = false) headers)
    (Hnd : NoDup (map (fun h => toLowerCase (trim h)) headers)) :
  sanitizeHeaders headers = Some (map trim headers)
  /\ sanitizeHeaders (map trim headers) = Some (map trim headers).
Proof.
  assert (Hempty : forall l : list string,
            Forall (fun h => toLowerCase (trim h) ∉ (∅ : gset string)) l).
  { intros l. apply Forall_forall. intros h _. apply not_elem_of_empty. }
  unfold sanitizeHeaders. split; [by apply sanitizeFrom_clean|].
  rewrite sanitizeFrom_clean; [|..|done].
  - f_equal. rewrite map_map. apply map_ext. intros h. apply trim_idem.
  - apply Forall_forall. intros h Hin.
    apply list_elem_of_In, in_map_iff in Hin as (h' & <- & Hin).
    rewrite Forall_forall in Hblank. unfold isBlank in *.
    rewrite trim_idem. apply Hblank. by apply list_elem_of_In.
  - rewrite map_map.
    erewrite map_ext; [exact Hnd|]. intros h. simpl. by rewrite trim_idem.
Qed.

Lemma sanitizeHeaders_clean_witness :
  let headers := [" Product"; "Branch "; "Value"] in
  Forall (fun h => isBlank h = false) headers
  /\ NoDup (map (fun h => toLowerCase (trim h)) headers)
  /\ sanitizeHeaders headers = Some (map trim headers)
  /\ sanitizeHeaders (map trim headers) = Some (map trim headers).
Proof.
  intros headers.
  assert (Hblank : Forall (fun h => isBlank h = false) headers)
    by (repeat constructor).
  assert (Hnd : NoDup (map (fun h => toLowerCase (trim h)) headers)).
  { apply NoDup_ListNoDup. repeat constructor; simpl; intuition discriminate. }
  exact (conj Hblank (conj Hnd (sanitizeHeaders_clean headers Hblank Hnd))).
Defined.

(** X8.  Sanitizing twice.  The names that [sanitizeHeaders] returns are
    returned unchanged when they are sanitized again. *)
Theorem sanitizeHeaders_idempotent (headers names : list string)
    (Hnames : sanitizeHeaders headers = Some names) :
  sanitizeHeaders names = Some names.
Proof.
  unfold sanitizeHeaders in *.
  destruct (sanitizeFrom_spec headers 0 ∅) as (names' & Hs & _ & Hnd & _).
  rewrite Hnames in Hs. injection Hs as <-.
  destruct (sanitizeFrom_names _ _ _ _ Hnames) as [Hclean _].
  assert (Htrim : map trim names = names).
  { clear -Hclean. induction Hclean as [|n names [_ Hn] _ IH]; [done|].
    simpl. by rewrite Hn, IH. }
  rewrite <- Htrim at 2. apply sanitizeFrom_clean.
  - eapply Forall_impl; [exact Hclean|]. intros n [Ht Hn].
    unfold isBlank. rewrite Hn. by destruct n.
  - rewrite <- (map_map trim toLowerCase), Htrim. exact Hnd.
  - apply Forall_forall. intros h _. apply not_elem_of_empty.
Qed.

Lemma sanitizeHeaders_idempotent_witness :
  let headers := ["Total"; " total "; EmptyString; "COL3"] in
  let names := ["Total"; "total_1"; "col3"; "COL3_1"] in
  sanitizeHeaders headers = Some names /\ sanitizeHeaders names = Some names.
Proof.
  intros headers names.
  assert (H : sanitizeHeaders headers = Some names)
    by (vm_compute; reflexivity).
  exact (conj H (sanitizeHeaders_idempotent headers names H)).
Defined.

(** X9.  The headers of a table.  In every table that [parseCsv] returns the
    headers are the sanitized raw headers, one for one, and each header is
    not empty and has no white space around it. *)
Theorem parseCsv_headers (text : string) :
  exists t : Parsed.t,
    parseCsv text = Some t
    /\ sanitizeHeaders (Parsed.rawHeaders t) = Some (Parsed.headers t)
    /\ length (Parsed.headers t) = length (Parsed.rawHeaders t)
    /\ Forall (fun h => truthy h = true /\ trim h = h) (Parsed.headers t).
Proof.
  destruct (toLines text) as [|l ls] eqn:Hlines.
  - exists emptyTable. unfold parseCsv. rewrite Hlines.
    repeat split; constructor.
  - destruct (parseCsv_lines text) as (headers & Hs & Hlen & Hp);
      [by rewrite Hlines|].
    eexists. split; [exact Hp|]. cbn [Parsed.headers Parsed.rawHeaders].
    split; [exact Hs|]. split; [exact Hlen|].
    by destruct (sanitizeFrom_names _ _ _ _ Hs) as [Hclean _].
Qed.

(** ** Schema inferencer: role keys *)

Lemma arrayIncludes_In (arr : list string) (x : string) :
  arrayIncludes arr x = true <-> In x arr.
Proof.
  unfold arrayIncludes. rewrite existsb_exists. split.
  - intros (y & Hy & Heq). apply String.eqb_eq in Heq. by subst.
  - intros Hin. exists x. split; [done | apply String.eqb_refl].
Qed.

(** X10.  Role keys by name.  A role is given to the first header that, in
    lower case, is one of the role's candidate names, and to none when no
    header is. *)
Theorem findHeader_first (headers candidates : list string) :
  match findHeader headers candidates with
  | Some h =>
      exists i : nat,
        headers !! i = Some h
        /\ In (toLowerCase h) candidates
        /\ Forall (fun h' => ~ In (toLowerCase h') candidates)
                  (take i headers)
  | None => Forall (fun h' => ~ In (toLowerCase h') candidates) headers
  end.
Proof.
  unfold findHeader.
  destruct (findIndex _ (map toLowerCase headers)) as [i|] eqn:Hfind.
  - apply findIndex_Some in Hfind as [(l & Hl & Hinc) Hbefore].
    apply list_lookup_fmap_Some in Hl as (h & -> & Hh).
    rewrite Hh. exists i. split; [done|].
    split; [by apply arrayIncludes_In|].
    change (map toLowerCase headers) with (toLowerCase <$> headers) in Hbefore.
    rewrite <- fmap_take in Hbefore. apply Forall_fmap in Hbefore.
    eapply Forall_impl; [exact Hbefore|]. simpl. intros h' Hh' Hin.
    apply arrayIncludes_In in Hin. congruence.
  - apply findIndex_None in Hfind.
    change (map toLowerCase headers) with (toLowerCase <$> headers) in Hfind.
    apply Forall_fmap in Hfind.
    eapply Forall_impl; [exact Hfind|]. simpl. intros h' Hh' Hin.
    apply arrayIncludes_In in Hin. congruence.
Qed.

Lemma findHeader_In (headers candidates : list string) (h : string) :
  findHeader headers candidates = Some h -> In h headers.
Proof.
  unfold findHeader. destruct (findIndex _ _) as [i|]; [|done].
  intros Hh. apply list_elem_of_In. by eapply list_elem_of_lookup_2.
Qed.

Lemma areaFallback_In (headers : list string) (rows : list row)
    (branchKey areaKey : option string) (h : string) :
  (forall a, areaKey = Some a -> In a headers) ->
  areaFallback headers rows branchKey areaKey = Some h -> In h headers.
Proof.
  intros Harea. unfold areaFallback.
  destruct (negb (keySet areaKey) && keySet branchKey); [|apply Harea].
  destruct (_ && _); [|apply Harea].
  intros Hh. apply list_elem_of_In. by eapply list_elem_of_lookup_2.
Qed.

Lemma slice_In {A : Type} (from to : nat) (l : list A) (x : A) :
  In x (slice from to l) -> In x l.
Proof.
  unfold slice. rewrite <- !list_elem_of_In. intros Hin.
  by apply (subseteq_drop from l), (subseteq_take (to - from)).
Qed.

Lemma detectProductColumns_In (headers computed : list string) (col : string) :
  (forall c, In c computed -> In c headers) ->
  In col (detectProductColumns headers computed) -> In col headers.
Proof.
  intros Hcomputed. unfold detectProductColumns.
  repeat case_match; try apply Hcomputed.
  - intros Hin. apply filter_In in Hin as [Hin _].
    apply filter_In in Hin as [Hin _]. by eapply slice_In.
  - intros Hin. apply filter_In in Hin as [Hin _]. by eapply slice_In.
Qed.

Lemma syntheticLabel_truthy (rawHeaders : list string)
    (finalMetricKey : option string) :
  truthy (syntheticLabel rawHeaders finalMetricKey) = true.
Proof.
  unfold syntheticLabel.
  destruct (List.find isProductish _) as [p|]; [|done].
  by destruct (truthy p) eqn:Hp; simpl; rewrite ?Hp.
Qed.

(** X11.  The inferred schema names headers only.  Every role key that
    [detectColumns] sets and every product column is one of the headers;
    the product is synthetic exactly when there is neither a product key
    nor a product column, and the synthetic label is never empty. *)
Theorem detectColumns_keys (headers : list string) (rows : list row)
    (rawHeaders : list string) :
  let detected := detectColumns headers rows rawHeaders in
  Meta.headers detected = headers
  /\ Meta.rawHeaders detected = rawHeaders
  /\ (forall (key : option string) (h : string),
        In key [Meta.productKey detected; Meta.branchKey detected;
                Meta.areaKey detected; Meta.itemKey detected;
                Meta.metricKey detected] ->
        key = Some h -> In h headers)
  /\ (forall col, In col (Meta.productColumns detected) -> In col headers)
  /\ (Meta.syntheticProduct detected = true <->
      keySet (Meta.productKey detected) = false
      /\ Meta.productColumns detected = [])
  /\ truthy (Meta.syntheticProductLabel detected) = true.
Proof.
  unfold detectColumns. cbv zeta.
  cbn [Meta.headers Meta.rawHeaders Meta.productKey Meta.branchKey
       Meta.areaKey Meta.itemKey Meta.metricKey Meta.productColumns
       Meta.syntheticProduct Meta.syntheticProductLabel].
  set (computed := List.filter _ (numericHeaders headers rows)).
  assert (Hcols : forall col,
            In col (detectProductColumns headers computed) -> In col headers).
  { intros col. apply detectProductColumns_In. intros c Hc.
    apply filter_In in Hc as [Hc _]. unfold numericHeaders in Hc.
    by apply filter_In in Hc as [Hc _]. }
  assert (Harea : forall h,
            areaFallback headers rows (findHeader headers branchCandidates)
                         (findHeader headers areaCandidates) = Some h ->
            In h headers).
  { intros h. apply areaFallback_In. intros a. apply findHeader_In. }
  split; [done|]. split; [done|]. split; [|split; [done|split]].
  - intros key h Hkey ->.
    destruct Hkey as [Hk|[Hk|[Hk|[Hk|[Hk|[]]]]]];
      try (by eapply findHeader_In); try (by apply Harea).
    destruct (keySet (findHeader headers metricCandidates));
      [by eapply findHeader_In|].
    destruct (length _ =? 1); [|done].
    apply Hcols, list_elem_of_In. by eapply list_elem_of_lookup_2.
  - rewrite andb_true_iff, negb_true_iff, Nat.eqb_eq.
    split; intros [H1 H2]; (split; [done|]).
    + by apply length_zero_iff_nil.
    + by rewrite H2.
  - case_match; [apply syntheticLabel_truthy | done].
Qed.

Lemma findHeader_lower (headers candidates : list string) (h : string) :
  findHeader headers candidates = Some h -> In (toLowerCase h) candidates.
Proof.
  unfold findHeader.
  destruct (findIndex _ (map toLowerCase headers)) as [i|] eqn:Hfind; [|done].
  apply findIndex_Some in Hfind as [(l & Hl & Hinc) _].
  apply list_lookup_fmap_Some in Hl as (h' & -> & Hh'). rewrite Hh'.
  intros [= <-]. by apply arrayIncludes_In.
Qed.

(** X12.  Area and branch.  The area key and the branch key of an inferred
    schema are never the same header, whether the area key was found by
    name or taken from the first column. *)
Theorem detectColumns_area_branch (headers : list string) (rows : list row)
    (rawHeaders : list string) (a b : string) :
  Meta.areaKey (detectColumns headers rows rawHeaders) = Some a ->
  Meta.branchKey (detectColumns headers rows rawHeaders) = Some b ->
  a <> b.
Proof.
  unfold detectColumns. cbv zeta. cbn [Meta.areaKey Meta.branchKey].
  intros Ha Hb. rewrite Hb in Ha.
  assert (Hnamed : findHeader headers areaCandidates = Some a -> a <> b).
  { intros Hfa ->. apply findHeader_lower in Hfa, Hb.
    simpl in Hfa, Hb.
    destruct Hfa as [Hfa|[Hfa|[Hfa|[Hfa|[]]]]]; rewrite <- Hfa in Hb;
      destruct Hb as [Hb|[Hb|[Hb|[Hb|[]]]]]; discriminate. }
  unfold areaFallback in Ha.
  destruct (negb (keySet (findHeader headers areaCandidates))
            && keySet (Some b)); [|by apply Hnamed].
  match type of Ha with
  | (if ?guard then _ else _) = _ => destruct guard eqn:Hguard
  end; [|by apply Hnamed].
  apply andb_true_iff in Hguard as [Hguard _].
  apply andb_true_iff in Hguard as [Hguard _].
  apply negb_true_iff, bool_decide_eq_false in Hguard.
  intros ->. by rewrite Ha in Hguard.
Qed.

Lemma detectColumns_area_branch_witness :
  let headers := ["Region"; "Store"; "Total"] in
  let rows : list row :=
    [{["Region" := "North"; "Store" := "East"; "Total" := "10"]}] in
  Meta.areaKey (detectColumns headers rows headers) = Some "Region"
  /\ Meta.branchKey (detectColumns headers rows headers) = Some "Store"
  /\ "Region" <> "Store".
Proof.
  intros headers rows.
  assert (Ha : Meta.areaKey (detectColumns headers rows headers)
               = Some "Region") by (vm_compute; reflexivity).
  assert (Hb : Meta.branchKey (detectColumns headers rows headers)
               = Some "Store") by (vm_compute; reflexivity).
  exact (conj Ha (conj Hb
           (detectColumns_area_branch headers rows headers _ _ Ha Hb))).
Defined.

(** ** Ingestion: what a load delivers *)

Lemma expandRows_length (rows : list row) (meta : Meta.t) :
  length (expandRows rows meta)
  = length rows * Nat.max 1 (length (Meta.productColumns meta)).
Proof.
  destruct (Meta.productColumns meta) as [|c cs] eqn:Hpc.
  - rewrite expandRows_long by done. rewrite length_map. simpl. lia.
  - rewrite expandRows_wide by (by rewrite Hpc).
    rewrite (flat_map_length_block _ (length (Meta.productColumns meta)))
      by (intros a; by rewrite length_map).
    rewrite Hpc. simpl. lia.
Qed.

(** X13.  A load.  When ingestion loads a file, the schema is the one
    inferred from the parsed table and the records are its expansion: one
    record per row, or per row and product column, and at least one.  The
    default group is [branch] when a branch key was found, else [area] when
    an area key was found, else [product]; it is one of the group options,
    and the chart is grouped by it. *)
Theorem ingest_loaded (text : string) (recs : list Rec.t) (meta : Meta.t)
    (group : string) (Hload : ingest text = Some (Loaded recs meta group)) :
  exists t : Parsed.t,
    parseCsv text = Some t
    /\ meta = detectColumns (Parsed.headers t) (Parsed.rows t)
                            (Parsed.rawHeaders t)
    /\ recs = expandRows (Parsed.rows t) meta
    /\ length recs
       = length (Parsed.rows t)
         * Nat.max 1 (length (Meta.productColumns meta))
    /\ recs <> []
    /\ In group (map fst (groupOptions meta))
    /\ groupFallback meta (loadedFilters group) = loadedFilters group
    /\ groupDimension meta (loadedFilters group) = group.
Proof.
  unfold ingest in Hload.
  destruct (parseCsv text) as [t|] eqn:Hp; [|done]. simpl in Hload.
  injection Hload as Hload. unfold ingestParsed in Hload.
  destruct (length (Parsed.rows t) =? 0) eqn:Hrows; [done|].
  cbv zeta in Hload.
  remember (detectColumns (Parsed.headers t) (Parsed.rows t)
                          (Parsed.rawHeaders t)) as detected eqn:Hd.
  destruct (insufficient detected); [done|].
  injection Hload as <- <- <-.
  exists t. split; [done|]. split; [done|]. split; [done|].
  split; [apply expandRows_length|]. split.
  - intros Hnil. apply (f_equal length) in Hnil.
    rewrite expandRows_length in Hnil. simpl in Hnil.
    apply Nat.eqb_neq in Hrows. nia.
  - unfold groupFallback, groupDimension, loadedFilters, groupOptions.
    cbn [Filters.group Filters.branch].
    destruct (keySet (Meta.branchKey detected)),
             (keySet (Meta.areaKey detected));
      simpl; repeat split; auto 10.
Qed.

Lemma ingest_loaded_witness :
  let text := "Branch,Total" +:+ str1 LF +:+ "East,10" in
  exists recs meta group,
    ingest text = Some (Loaded recs meta group)
    /\ exists t : Parsed.t,
         parseCsv text = Some t
         /\ meta = detectColumns (Parsed.headers t) (Parsed.rows t)
                                 (Parsed.rawHeaders t)
         /\ recs = expandRows (Parsed.rows t) meta
         /\ length recs
            = length (Parsed.rows t)
              * Nat.max 1 (length (Meta.productColumns meta))
         /\ recs <> []
         /\ In group (map fst (groupOptions meta))
         /\ groupFallback meta (loadedFilters group) = loadedFilters group
         /\ groupDimension meta (loadedFilters group) = group.
Proof.
  intros text. eexists _, _, _.
  assert (H : ingest text = Some (Loaded _ _ _)) by (vm_compute; reflexivity).
  exact (conj H (ingest_loaded text _ _ _ H)).
Defined.

(** ** Numeric coercion *)

Lemma numeric_not_looking (value : option string) :
  looksNumeric value = false -> numeric (toStr value) = num0.
Proof.
  destruct value as [v|]; [|by vm_compute].
  cbn [looksNumeric toStr]. fold (cleanNumber v).
  rewrite numeric_cleanNumber.
  destruct (isEmpty (cleanNumber v)) eqn:Hempty.
  - destruct (cleanNumber v); [by vm_compute | done].
  - intros Hnan. apply negb_false_iff in Hnan. by rewrite Hnan.
Qed.

(** X14.  The two numeric readings agree.  [looksNumeric] and [numeric] read
    the same cleaned text.  A cell that does not look numeric, or a missing
    one, has the metric 0; a cell that looks numeric has the number that
    [Number] reads from the cleaned text, which is not NaN. *)
Theorem numeric_looksNumeric (value : option string) :
  if looksNumeric value
  then exists v, value = Some v
                 /\ numeric v = Number (cleanNumber v)
                 /\ isNaN (numeric v) = false
                 /\ isEmpty (cleanNumber v) = false
  else numeric (toStr value) = num0.
Proof.
  destruct (looksNumeric value) eqn:Hlooks;
    [|by apply numeric_not_looking].
  destruct value as [v|]; [|done].
  cbn [looksNumeric] in Hlooks. fold (cleanNumber v) in Hlooks.
  destruct (isEmpty (cleanNumber v)) eqn:Hempty; [done|].
  apply negb_true_iff in Hlooks.
  exists v. by rewrite numeric_cleanNumber, Hlooks.
Qed.

(** X15.  Columns without numbers.  A header that [numericHeaders] leaves
    out has the metric 0 in every row. *)
Theorem numericHeaders_complement (headers : list string) (rows : list row)
    (h : string) (r : row)
    (Hh : In h headers) (Hnot : ~ In h (numericHeaders headers rows))
    (Hr : In r rows) :
  numeric (toStr (getProp r h)) = num0.
Proof.
  apply numeric_not_looking.
  destruct (looksNumeric (getProp r h)) eqn:Hlooks; [|done].
  exfalso. apply Hnot. unfold numericHeaders. apply filter_In.
  split; [done|]. apply existsb_exists. by exists r.
Qed.

Lemma numericHeaders_complement_witness :
  let headers := ["Branch"; "Total"] in
  let r : row := {["Branch" := "East"; "Total" := "10"]} in
  In "Branch" headers
  /\ ~ In "Branch" (numericHeaders headers [r])
  /\ In r [r]
  /\ numeric (toStr (getProp r "Branch")) = num0.
Proof.
  intros headers r.
  assert (Hh : In "Branch" headers) by (left; reflexivity).
  assert (Hnot : ~ In "Branch" (numericHeaders headers [r]))
    by (vm_compute; intuition discriminate).
  assert (Hr : In r [r]) by (left; reflexivity).
  exact (conj Hh (conj Hnot (conj Hr
           (numericHeaders_complement headers [r] "Branch" r Hh Hnot Hr)))).
Defined.

(** ** Numeric coercion: whole numbers *)

Lemma isDigit_pretty_char (x : N) : isDigit (pretty_N_char x) = true.
Proof. unfold pretty_N_char. repeat case_match; reflexivity. Qed.

Lemma digitValue_pretty_char (x : N) :
  (x < 10)%N -> digitValue (pretty_N_char x) = Z.of_N x.
Proof.
  intros Hx.
  assert (x = 0 \/ x = 1 \/ x = 2 \/ x = 3 \/ x = 4 \/ x = 5 \/ x = 6
          \/ x = 7 \/ x = 8 \/ x = 9)%N as Hcases by lia.
  repeat (destruct Hcases as [->|Hcases]; [reflexivity|]).
  by subst.
Qed.

Lemma spanChars_cons (ok : ascii -> bool) (c : ascii) (s : string) :
  spanChars ok (String c s)
  = if ok c then let '(d, r) := spanChars ok s in (String c d, r)
    else (EmptyString, String c s).
Proof. reflexivity. Qed.

Lemma pretty_N_go_digits (x : N) (s : string) :
  spanChars isDigit s = (s, EmptyString) ->
  spanChars isDigit (pretty_N_go x s) = (pretty_N_go x s, EmptyString).
Proof.
  revert s. induction (N.lt_wf_0 x) as [x _ IH]; intros s Hs.
  assert (x = 0 \/ 0 < x)%N as [->|Hpos] by lia.
  - by rewrite pretty_N_go_0.
  - rewrite pretty_N_go_step by done. apply IH; [by apply N.div_lt|].
    by rewrite spanChars_cons, isDigit_pretty_char, Hs.
Qed.

Lemma pretty_N_go_value (x : N) (s : string) :
  digitsValue 10 0 (pretty_N_go x s) = digitsValue 10 (Z.of_N x) s.
Proof.
  revert s. induction (N.lt_wf_0 x) as [x _ IH]; intros s.
  assert (x = 0 \/ 0 < x)%N as [->|Hpos] by lia.
  - by rewrite pretty_N_go_0.
  - rewrite pretty_N_go_step by done. rewrite IH by (by apply N.div_lt).
    cbn [digitsValue]. f_equal.
    rewrite digitValue_pretty_char by (apply N.mod_lt; lia).
    rewrite (N.div_mod x 10) at 3 by lia. lia.
Qed.

Lemma pretty_N_go_head (x : N) (s : string) :
  (0 < x)%N \/ (exists c t, s = String c t /\ isDigit c = true) ->
  exists c t, pretty_N_go x s = String c t /\ isDigit c = true.
Proof.
  revert s. induction (N.lt_wf_0 x) as [x _ IH]; intros s Hs.
  assert (x = 0 \/ 0 < x)%N as [->|Hpos] by lia.
  - rewrite pretty_N_go_0. destruct Hs as [?|?]; [lia | done].
  - rewrite pretty_N_go_step by done. apply IH; [by apply N.div_lt|].
    right. eexists _, _. split; [done | apply isDigit_pretty_char].
Qed.

(** The decimal numeral of a natural number: digits only, with the number
    as its value. *)
Lemma pretty_nat_digits (n : nat) :
  spanChars isDigit (pretty n) = (pretty n, EmptyString)
  /\ digitsValue 10 0 (pretty n) = Z.of_nat n
  /\ exists c s, pretty n = String c s /\ isDigit c = true.
Proof.
  unfold pretty, pretty_nat, pretty, pretty_N.
  case_decide as Hz.
  - split; [done|].
    split; [change (digitsValue 10 0 "0") with 0%Z; lia|].
    by exists "0"%char, EmptyString.
  - split; [by apply pretty_N_go_digits|].
    split; [rewrite pretty_N_go_value; simpl; lia|].
    apply pretty_N_go_head. left. lia.
Qed.

Lemma isDigit_chars (c : ascii) :
  isDigit c = true ->
  isWhiteSpace c = false
  /\ stripSign (String c EmptyString) = (false, String c EmptyString)
  /\ Ascii.eqb c "I" = false
  /\ Ascii.eqb c "x" = false /\ Ascii.eqb c "X" = false
  /\ Ascii.eqb c "o" = false /\ Ascii.eqb c "O" = false
  /\ Ascii.eqb c "b" = false /\ Ascii.eqb c "B" = false.
Proof.
  destruct c as [[] [] [] [] [] [] [] []]; try discriminate; intros _;
    repeat split; reflexivity.
Qed.

Lemma ofZ_not_NaN (z : Z) : isNaN (ofZ z) = false.
Proof.
  unfold ofZ. pose proof (binary_normalize_cases z 0) as H.
  destruct (binary_normalize prec emax z 0 false); try done.
  exfalso. apply H. by vm_compute.
Qed.

Lemma Number_pretty (n : nat) : Number (pretty n) = ofZ (Z.of_nat n).
Proof.
  destruct (pretty_nat_digits n) as (Hspan & Hval & c & s & Hp & Hc).
  destruct (pretty_nat_trimEnd n) as [Htrim _].
  destruct (isDigit_chars c Hc)
    as (Hws & Hsign & HI & Hx & HX & Ho & HO & Hb & HB).
  unfold Number, trim. rewrite Htrim, Hp. cbn [trimStart]. rewrite Hws.
  cbn [isEmpty].
  assert (Hradix : parseRadix (String c s) = None).
  { rewrite Hp in Hspan. destruct s as [|x ds].
    - by destruct c as [[] [] [] [] [] [] [] []].
    - rewrite spanChars_cons, Hc, spanChars_cons in Hspan.
      destruct (isDigit x) eqn:Hdx.
      + destruct (isDigit_chars x Hdx)
          as (_ & _ & _ & Hx' & HX' & Ho' & HO' & Hb' & HB').
        destruct c as [[] [] [] [] [] [] [] []]; try reflexivity.
        cbn [parseRadix]. by rewrite Hx', HX', Ho', HO', Hb', HB'.
      + discriminate. }
  rewrite Hradix. unfold parseDecimal.
  assert (Hstrip : stripSign (String c s) = (false, String c s)).
  { clear -Hsign. by destruct c as [[] [] [] [] [] [] [] []]. }
  rewrite Hstrip.
  assert (Hinf : String.eqb (String c s) "Infinity" = false)
    by (cbn [String.eqb]; by rewrite HI).
  rewrite Hinf, <- Hp, Hspan. cbn [isEmpty]. rewrite Hp at 1.
  cbn [isEmpty andb].
  cbn [parseExponent]. rewrite append_nil_r, Hval.
  change (0 - Z.of_nat (String.length EmptyString))%Z with 0%Z.
  unfold ofDecimal, ofZ. by destruct (Z.of_nat n) eqn:Hn; [..|lia].
Qed.

(** X16.  Whole numbers.  A cell that, without its commas, percent signs and
    surrounding white space, is the decimal numeral of a natural number has
    that number as its metric (rounded to binary64 when it needs more than
    53 bits), and it looks numeric. *)
Theorem numeric_digits (v : string) (n : nat)
    (Hv : cleanNumber v = pretty n) :
  numeric v = ofZ (Z.of_nat n) /\ looksNumeric (Some v) = true.
Proof.
  assert (Hnum : Number (cleanNumber v) = ofZ (Z.of_nat n))
    by (rewrite Hv; apply Number_pretty).
  split.
  - by rewrite numeric_cleanNumber, Hnum, ofZ_not_NaN.
  - cbn [looksNumeric]. fold (cleanNumber v). rewrite Hnum, ofZ_not_NaN.
    rewrite Hv. destruct (pretty_nat_digits n) as (_ & _ & c & s & -> & _).
    done.
Qed.

Lemma numeric_digits_witness :
  cleanNumber " 1,234% " = pretty 1234
  /\ numeric " 1,234% " = ofZ (Z.of_nat 1234)
  /\ looksNumeric (Some " 1,234% ") = true.
Proof.
  assert (H : cleanNumber " 1,234% " = pretty 1234)
    by (vm_compute; reflexivity).
  exact (conj H (numeric_digits " 1,234% " 1234 H)).
Defined.

(** ** Row expander: the long path *)

(** X17.  The long path.  Without product columns every row gives one
    record, in row order.  Its product is the trimmed cell of the row at
    the product key, or the synthetic label ("All Products" when that is
    empty) when there is no product key; its item, branch and area are
    the trimmed cells at the role keys, empty when a key is unset; its
    metric is the number that the cell at the metric key spells once
    commas and percent signs are removed and the rest trimmed, 0 when it
    spells none, and 0 when there is no metric key. *)
Theorem expandRows_long_spec (rows : list row) (meta : Meta.t)
    (Hlong : Meta.productColumns meta = []) :
  length (expandRows rows meta) = length rows
  /\ forall (i : nat) (r : row),
       rows !! i = Some r ->
       exists rec : Rec.t,
         expandRows rows meta !! i = Some rec
         /\ (unset (Meta.productKey meta) ->
             Rec.product rec
             = if isEmpty (Meta.syntheticProductLabel meta)
               then "All Products" else Meta.syntheticProductLabel meta)
         /\ (forall k v : string,
               Meta.productKey meta = Some k -> k <> EmptyString ->
               r !! k = Some v -> Rec.product rec = trim v)
         /\ textAt r (Meta.itemKey meta) (Rec.item rec)
         /\ textAt r (Meta.branchKey meta) (Rec.branch rec)
         /\ textAt r (Meta.areaKey meta) (Rec.area rec)
         /\ (unset (Meta.metricKey meta) -> Rec.metric rec = num0)
         /\ forall k : string,
              Meta.metricKey meta = Some k -> k <> EmptyString ->
              metricAt r k (Rec.metric rec).
Proof.
  rewrite expandRows_long by done. split; [apply length_map|].
  intros i r Hr. exists (normalizeRow r meta).
  split; [by rewrite list_lookup_fmap, Hr|].
  split; [|split; [|split; [|split; [|split]]]].
  - intros Hkey. apply keySet_false in Hkey.
    unfold normalizeRow. cbn [Rec.product]. rewrite Hkey. unfold truthy.
    by destruct (isEmpty (Meta.syntheticProductLabel meta)).
  - intros k v Hkey Hk Hv. unfold normalizeRow. cbn [Rec.product].
    rewrite Hkey. destruct k as [|c k]; [done|]. cbn [keySet truthy isEmpty negb].
    by apply cleanText_own.
  - apply cleanText_textAt.
  - apply cleanText_textAt.
  - apply cleanText_textAt.
  - apply normalizeRow_metric.
Qed.

Lemma expandRows_long_spec_witness :
  let rows : list row := [{["Branch" := " East "; "Total" := "1,250"]}] in
  let meta :=
    Meta.mk ["Branch"; "Total"] None (Some "Branch") None None (Some "Total")
            [] true defaultLabel ["Branch"; "Total"] in
  Meta.productColumns meta = []
  /\ (length (expandRows rows meta) = length rows
      /\ forall (i : nat) (r : row),
           rows !! i = Some r ->
           exists rec : Rec.t,
             expandRows rows meta !! i = Some rec
             /\ (unset (Meta.productKey meta) ->
                 Rec.product rec
                 = if isEmpty (Meta.syntheticProductLabel meta)
                   then "All Products" else Meta.syntheticProductLabel meta)
             /\ (forall k v : string,
                   Meta.productKey meta = Some k -> k <> EmptyString ->
                   r !! k = Some v -> Rec.product rec = trim v)
             /\ textAt r (Meta.itemKey meta) (Rec.item rec)
             /\ textAt r (Meta.branchKey meta) (Rec.branch rec)
             /\ textAt r (Meta.areaKey meta) (Rec.area rec)
             /\ (unset (Meta.metricKey meta) -> Rec.metric rec = num0)
             /\ forall k : string,
                  Meta.metricKey meta = Some k -> k <> EmptyString ->
                  metricAt r k (Rec.metric rec)).
Proof.
  intros rows meta.
  assert (H : Meta.productColumns meta = []) by reflexivity.
  exact (conj H (expandRows_long_spec rows meta H)).
Defined.

(** ** Record filter: composition *)

Lemma filter_sublist {A : Type} (p : A -> bool) (l : list A) :
  sublist (List.filter p l) l.
Proof.
  induction l as [|x l IH]; simpl; [constructor|].
  destruct (p x); by constructor.
Qed.

Lemma filter_idem {A : Type} (p : A -> bool) (l : list A) :
  List.filter p (List.filter p l) = List.filter p l.
Proof.
  induction l as [|x l IH]; simpl; [done|].
  destruct (p x) eqn:Hp; simpl; [|done]. by rewrite Hp, IH.
Qed.

Lemma filter_comm {A : Type} (p q : A -> bool) (l : list A) :
  List.filter p (List.filter q l) = List.filter q (List.filter p l).
Proof.
  induction l as [|x l IH]; simpl; [done|].
  destruct (p x) eqn:Hp, (q x) eqn:Hq; simpl; rewrite ?Hp, ?Hq, ?IH; done.
Qed.

(** X18.  Filtering.  The filtered records are the records that pass, in
    their order; filtering a second time with the same filters changes
    nothing, and two filter settings may be applied in either order. *)
Theorem filteredRows_compose (dataRows : list Rec.t) (meta : Meta.t)
    (filters filters' : Filters.t) :
  sublist (filteredRows dataRows meta filters) dataRows
  /\ (forall r, In r (filteredRows dataRows meta filters) <->
                In r dataRows /\ rowPasses meta filters r = true)
  /\ filteredRows (filteredRows dataRows meta filters) meta filters
     = filteredRows dataRows meta filters
  /\ filteredRows (filteredRows dataRows meta filters) meta filters'
     = filteredRows (filteredRows dataRows meta filters') meta filters.
Proof.
  unfold filteredRows. split; [apply filter_sublist|].
  split; [intros r; apply filter_In|].
  split; [apply filter_idem | apply filter_comm].
Qed.

(** ** Aggregator: labels of any record list *)

Lemma firstSeen_length (labels : list string) :
  length (firstSeen labels) <= length labels.
Proof.
  induction labels as [|l rest IH]; simpl; [done|].
  pose proof (List.filter_length_le (fun x => negb (String.eqb x l))
                                    (firstSeen rest)). lia.
Qed.

Lemma aggregate_labels (rows : list Rec.t) (dimension : string) :
  Permutation (map fst (aggregate rows dimension))
              (firstSeen (map (labelOf dimension) rows)).
Proof.
  unfold aggregate. rewrite sort_perm, accumulate_keyed. by rewrite keyed_fst.
Qed.

(** X19.  The groups of any record list.  Whatever the metrics are, the
    aggregate has one pair for each label of the records and no other: at
    most as many pairs as records, and none exactly when there is no
    record. *)
Theorem aggregate_groups (rows : list Rec.t) (dimension : string) :
  NoDup (map fst (aggregate rows dimension))
  /\ (forall l, In l (map fst (aggregate rows dimension)) <->
                exists r, In r rows /\ labelOf dimension r = l)
  /\ length (aggregate rows dimension) <= length rows
  /\ (aggregate rows dimension = [] <-> rows = []).
Proof.
  pose proof (aggregate_labels rows dimension) as Hperm.
  split; [|split; [|split]].
  - rewrite Hperm. apply firstSeen_NoDup.
  - intros l. rewrite <- !list_elem_of_In, Hperm, list_elem_of_In.
    rewrite firstSeen_In, in_map_iff.
    split; intros (r & H1 & H2); by exists r.
  - rewrite <- (length_map fst), Hperm.
    etransitivity; [apply firstSeen_length|]. by rewrite length_map.
  - split.
    + intros Hnil. rewrite Hnil in Hperm. simpl in Hperm.
      apply Permutation_nil in Hperm.
      destruct rows as [|r rows]; [done|]. simpl in Hperm. done.
    + by intros ->.
Qed.

(** ** Aggregator: totals of whole numbers *)

Lemma Forall_keyed (Q : string * number -> Prop) (f : string -> number)
    (keys : list string) :
  (forall l, In l keys -> Q (l, f l)) -> Forall Q (keyed f keys).
Proof.
  intros HQ. unfold keyed. apply Forall_forall. intros e He.
  apply list_elem_of_In, in_map_iff in He as (l & <- & Hl). by apply HQ.
Qed.

Lemma groupMetrics_ofZ (dimension : string) (rows : list Rec.t) (l : string) :
  Forall (fun r => Rec.metric r = ofZ (intValue (Rec.metric r))) rows ->
  groupMetrics dimension rows l
  = map ofZ (map (fun r => intValue (Rec.metric r))
                 (List.filter (fun r => String.eqb (labelOf dimension r) l)
                              rows)).
Proof.
  intros Hint. unfold groupMetrics. rewrite map_map.
  apply map_ext_in. intros r Hr. apply filter_In in Hr as [Hr _].
  rewrite Forall_forall in Hint. by apply Hint, list_elem_of_In.
Qed.

(** X20.  Exact group totals.  When every metric is a whole number and the
    absolute values of the metrics add up to less than 2^53, each total of
    the aggregate is exactly the sum of the metrics of its label, and so
    does not depend on the order of the records. *)
Theorem aggregate_totals_exact (rows : list Rec.t) (dimension : string)
    (Hint : Forall (fun r => Rec.metric r = ofZ (intValue (Rec.metric r)))
                   rows)
    (Hbound : (ZsumAbs (map (fun r => intValue (Rec.metric r)) rows)
               < 2 ^ 53)%Z) :
  Forall (fun e =>
            snd e
            = ofZ (Zsum (map (fun r => intValue (Rec.metric r))
                             (List.filter
                                (fun r => String.eqb (labelOf dimension r)
                                                     (fst e))
                                rows))))
         (aggregate rows dimension).
Proof.
  unfold aggregate.
  eapply Permutation_Forall; [symmetry; apply sort_perm|].
  rewrite accumulate_keyed. apply Forall_keyed. intros l _. simpl.
  rewrite groupMetrics_ofZ by done. apply runningTotal_ofZ.
  eapply Z.le_lt_trans; [apply ZsumAbs_filter_le | exact Hbound].
Qed.

Lemma aggregate_totals_exact_witness :
  let rows :=
    [ Rec.mk "A" EmptyString EmptyString EmptyString (ofZ 3);
      Rec.mk "B" EmptyString EmptyString EmptyString (ofZ (-5));
      Rec.mk "A" EmptyString EmptyString EmptyString (ofZ 2) ] in
  Forall (fun r => Rec.metric r = ofZ (intValue (Rec.metric r))) rows
  /\ (ZsumAbs (map (fun r => intValue (Rec.metric r)) rows) < 2 ^ 53)%Z
  /\ Forall (fun e =>
               snd e
               = ofZ (Zsum (map (fun r => intValue (Rec.metric r))
                                (List.filter
                                   (fun r => String.eqb (labelOf "product" r)
                                                        (fst e))
                                   rows))))
            (aggregate rows "product").
Proof.
  intros rows.
  assert (Hint : Forall (fun r => Rec.metric r = ofZ (intValue (Rec.metric r)))
                        rows) by (repeat constructor).
  assert (Hbound : (ZsumAbs (map (fun r => intValue (Rec.metric r)) rows)
                    < 2 ^ 53)%Z) by (vm_compute; reflexivity).
  exact (conj Hint (conj Hbound
           (aggregate_totals_exact rows "product" Hint Hbound))).
Defined.

(** X21.  The total of the summary.  Under the same conditions the total of
    the summary line is exactly the sum of the metrics, whatever the order
    of the records; it is 0 for no records. *)
Theorem sumMetric_exact (rows : list Rec.t)
    (Hint : Forall (fun r => Rec.metric r = ofZ (intValue (Rec.metric r)))
                   rows)
    (Hbound : (ZsumAbs (map (fun r => intValue (Rec.metric r)) rows)
               < 2 ^ 53)%Z) :
  sumMetric rows = ofZ (Zsum (map (fun r => intValue (Rec.metric r)) rows))
  /\ (forall rows', Permutation rows rows' -> sumMetric rows' = sumMetric rows)
  /\ sumMetric [] = num0.
Proof.
  assert (Hsum : forall rs,
            Forall (fun r => Rec.metric r = ofZ (intValue (Rec.metric r))) rs ->
            (ZsumAbs (map (fun r => intValue (Rec.metric r)) rs) < 2 ^ 53)%Z ->
            sumMetric rs
            = ofZ (Zsum (map (fun r => intValue (Rec.metric r)) rs))).
  { intros rs Hi Hb. rewrite sumMetric_jsSum.
    replace (map Rec.metric rs)
      with (map ofZ (map (fun r => intValue (Rec.metric r)) rs)).
    - by apply jsSum_ofZ.
    - rewrite map_map. apply map_ext_in. intros r Hr.
      rewrite Forall_forall in Hi. symmetry. by apply Hi, list_elem_of_In. }
  split; [by apply Hsum|]. split; [|done].
  intros rows' Hperm. rewrite !Hsum; try done.
  - f_equal. apply Zsum_perm. by apply Permutation_map, Permutation_sym.
  - by rewrite <- Hperm.
  - rewrite (ZsumAbs_perm _ (map (fun r => intValue (Rec.metric r)) rows));
      [done|]. by apply Permutation_map, Permutation_sym.
Qed.

Lemma sumMetric_exact_witness :
  let rows :=
    [ Rec.mk "A" EmptyString EmptyString EmptyString (ofZ 3);
      Rec.mk "B" EmptyString EmptyString EmptyString (ofZ (-5)) ] in
  Forall (fun r => Rec.metric r = ofZ (intValue (Rec.metric r))) rows
  /\ (ZsumAbs (map (fun r => intValue (Rec.metric r)) rows) < 2 ^ 53)%Z
  /\ sumMetric rows = ofZ (Zsum (map (fun r => intValue (Rec.metric r)) rows))
  /\ (forall rows', Permutation rows rows' -> sumMetric rows' = sumMetric rows)
  /\ sumMetric [] = num0.
Proof.
  intros rows.
  assert (Hint : Forall (fun r => Rec.metric r = ofZ (intValue (Rec.metric r)))
                        rows) by (repeat constructor).
  assert (Hbound : (ZsumAbs (map (fun r => intValue (Rec.metric r)) rows)
                    < 2 ^ 53)%Z) by (vm_compute; reflexivity).
  exact (conj Hint (conj Hbound (sumMetric_exact rows Hint Hbound))).
Defined.

(** ** Option lists *)

Lemma compare_lt_trans (a b c : string) :
  String.compare a b = Lt -> String.compare b c = Lt ->
  String.compare a c = Lt.
Proof.
  revert b c. induction a as [|x a IH]; intros [|y b] [|z c]; simpl; try done.
  unfold Ascii.compare.
  destruct (N.compare_spec (N_of_ascii x) (N_of_ascii y)) as [Hxy|Hxy|Hxy];
    destruct (N.compare_spec (N_of_ascii y) (N_of_ascii z)) as [Hyz|Hyz|Hyz];
    try done; intros Hab Hbc.
  - rewrite Hxy, Hyz, N.compare_refl. by eapply IH.
  - rewrite Hxy. by apply N.compare_lt_iff in Hyz as ->.
  - rewrite <- Hyz. by apply N.compare_lt_iff in Hxy as ->.
  - assert (N_of_ascii x < N_of_ascii z)%N as Hxz by lia.
    by apply N.compare_lt_iff in Hxz as ->.
Qed.

Lemma ltb_irrefl (a : string) : String.ltb a a = false.
Proof.
  unfold String.ltb. destruct (String.compare a a) eqn:Hc; try done.
  pose proof (String.compare_antisym a a) as H. by rewrite Hc in H.
Qed.

Lemma ltb_trans (a b c : string) :
  String.ltb a b = true -> String.ltb b c = true -> String.ltb a c = true.
Proof.
  unfold String.ltb.
  destruct (String.compare a b) eqn:Hab; try done.
  destruct (String.compare b c) eqn:Hbc; try done.
  by rewrite (compare_lt_trans a b c).
Qed.

Lemma ltb_total (a b : string) :
  String.ltb a b = true \/ a = b \/ String.ltb b a = true.
Proof.
  unfold String.ltb. rewrite (String.compare_antisym b a).
  destruct (String.compare a b) eqn:Hab; simpl; auto.
  right; left. by apply String.compare_eq_iff.
Qed.

Lemma ltb_cotrans (a b c : string) :
  String.ltb a c = true -> String.ltb a b = true \/ String.ltb b c = true.
Proof.
  intros Hac. destruct (ltb_total a b) as [H|[->|H]]; auto.
  right. by apply (ltb_trans b a c).
Qed.

Lemma defaultCompare_positive (a b : string) :
  isPositive (defaultCompare a b) = String.ltb b a.
Proof.
  unfold defaultCompare.
  destruct (String.ltb a b) eqn:Hab.
  - destruct (String.ltb b a) eqn:Hba; [|done].
    pose proof (ltb_trans a b a Hab Hba) as H. by rewrite ltb_irrefl in H.
  - by destruct (String.ltb b a).
Qed.

Lemma setAdd_In (set : list string) (x v : string) :
  In v (setAdd set x) <-> In v set \/ v = x.
Proof.
  unfold setAdd. destruct (existsb (String.eqb x) set) eqn:Hex.
  - apply existsb_exists in Hex as (y & Hy & Heq).
    apply String.eqb_eq in Heq as ->. split; [auto|]. by intros [H| ->].
  - rewrite in_app_iff. simpl.
    split; [intros [H|[H|[]]]; [by left | by right]
           | intros [H| ->]; [by left | right; by left]].
Qed.

Lemma setAdd_NoDup (set : list string) (x : string) :
  NoDup set -> NoDup (setAdd set x).
Proof.
  intros Hnd. unfold setAdd.
  destruct (existsb (String.eqb x) set) eqn:Hex; [done|].
  apply NoDup_app. split; [done|]. split; [|apply NoDup_singleton].
  intros y Hy Hyx. apply list_elem_of_singleton in Hyx as ->.
  assert (existsb (String.eqb x) set = true); [|congruence].
  apply existsb_exists. exists x.
  split; [by apply list_elem_of_In | apply String.eqb_refl].
Qed.

Lemma newSet_fold (values set : list string) :
  NoDup set ->
  NoDup (fold_left setAdd values set)
  /\ forall v, In v (fold_left setAdd values set) <-> In v set \/ In v values.
Proof.
  revert set. induction values as [|x values IH]; intros set Hnd; simpl.
  - split; [done|]. intros v. tauto.
  - destruct (IH (setAdd set x) (setAdd_NoDup set x Hnd)) as [Hnd' Hin].
    split; [done|]. intros v. rewrite Hin, setAdd_In. intuition.
Qed.

Lemma uniqueValues_In (rows : list Rec.t) (key : Rec.t -> string) (v : string) :
  In v (uniqueValues rows key) <->
  v <> EmptyString /\ exists r, In r rows /\ key r = v.
Proof.
  unfold uniqueValues.
  rewrite <- list_elem_of_In, sort_perm, list_elem_of_In.
  destruct (newSet_fold (List.filter truthy (map key rows)) [])
    as [_ Hin]; [constructor|].
  unfold newSet. rewrite Hin, filter_In, in_map_iff. simpl. split.
  - intros [[]|[(r & <- & Hr) Ht]]. split; [by destruct (key r)|by exists r].
  - intros [Hne (r & Hr & <-)]. right. split; [by exists r|].
    by destruct (key r).
Qed.

Lemma firstPos_cons (x l : string) (rest : list string) :
  firstPos l (x :: rest) = if String.eqb x l then 0 else S (firstPos l rest).
Proof. reflexivity. Qed.

Lemma NoDup_firstPos (l : list string) :
  NoDup l -> StronglySorted (fun a b => firstPos a l < firstPos b l) l.
Proof.
  induction 1 as [|x rest Hx Hnd IH]; [constructor|].
  constructor.
  - apply (StronglySorted_weaken
             (fun a b => firstPos a rest < firstPos b rest) _
             (fun a => a <> x)); [| |done].
    + intros a b Ha Hb Hab. rewrite !firstPos_cons.
      apply not_eq_sym, String.eqb_neq in Ha, Hb. rewrite Ha, Hb. lia.
    + apply Forall_forall. by intros a Ha ->.
  - apply Forall_forall. intros y Hy. rewrite !firstPos_cons.
    rewrite String.eqb_refl.
    destruct (String.eqb_spec x y) as [->|_]; [done | lia].
Qed.

Lemma uniqueValues_sorted (rows : list Rec.t) (key : Rec.t -> string) :
  StronglySorted (fun a b => String.ltb a b = true) (uniqueValues rows key).
Proof.
  unfold uniqueValues.
  set (vs := newSet (List.filter truthy (map key rows))).
  assert (Hnd : NoDup vs)
    by (apply (newSet_fold _ []); constructor).
  pose proof (sort_sorted defaultCompare (fun a b => String.ltb b a)
                (fun v => firstPos v vs) (fun _ => True)
                (fun a b _ _ => defaultCompare_positive a b)
                ltb_irrefl
                (fun a b c Hab Hbc => ltb_trans c b a Hbc Hab)
                (fun a b c Hac =>
                   match ltb_cotrans c b a Hac with
                   | or_introl H => or_intror H
                   | or_intror H => or_introl H
                   end)
                vs) as Hsorted.
  assert (Hperm : Permutation (sort defaultCompare vs) vs) by apply sort_perm.
  assert (Hnd' : NoDup (sort defaultCompare vs)) by (by rewrite Hperm).
  revert Hnd'.
  assert (Hs : StronglySorted
                 (fun a b => String.ltb b a = false
                             /\ (String.ltb a b = true
                                 \/ firstPos a vs < firstPos b vs))
                 (sort defaultCompare vs)).
  { apply Hsorted; [by apply Forall_forall | by apply NoDup_firstPos]. }
  clear -Hs. induction Hs as [|x l Hs IH Hall]; intros Hnd; [constructor|].
  apply NoDup_cons in Hnd as [Hx Hnd]. constructor; [by apply IH|].
  apply Forall_forall. intros y Hy.
  rewrite Forall_forall in Hall. destruct (Hall y Hy) as [Hyx _].
  destruct (ltb_total x y) as [H|[->|H]]; [done| |congruence].
  by destruct Hx.
Qed.

(** X22.  Option lists.  [uniqueValues] lists, in strictly ascending order
    of their code units, the values of the field that are not empty: each
    once, and no other string. *)
Theorem uniqueValues_spec (rows : list Rec.t) (key : Rec.t -> string) :
  StronglySorted (fun a b => String.ltb a b = true) (uniqueValues rows key)
  /\ forall v, In v (uniqueValues rows key) <->
               v <> EmptyString /\ exists r, In r rows /\ key r = v.
Proof. split; [apply uniqueValues_sorted | apply uniqueValues_In]. Qed.

Lemma filteredRows_nonempty (dataRows : list Rec.t) (meta : Meta.t)
    (filters : Filters.t) (r : Rec.t) :
  In r dataRows -> rowPasses meta filters r = true ->
  filteredRows dataRows meta filters <> [].
Proof.
  intros Hr Hpass Hnil.
  assert (In r (filteredRows dataRows meta filters)) as Hin
    by (by apply filter_In).
  by rewrite Hnil in Hin.
Qed.

(** X23.  Every option selects records.  With the other filters
    unconstrained, choosing any product option, any area option, or any
    branch option (offered for the area that the filters hold) leaves at
    least one record; the branch options are among the branches of all
    records. *)
Theorem options_select_records (dataRows : list Rec.t) (meta : Meta.t)
    (filters : Filters.t) (group : string) :
  (forall p, In p (productOptions dataRows) ->
             filteredRows dataRows meta (Filters.mk p ALL ALL group) <> [])
  /\ (forall a, In a (areaOptions dataRows meta) ->
                filteredRows dataRows meta (Filters.mk ALL ALL a group) <> [])
  /\ (forall b, In b (branchOptions dataRows meta filters) ->
                filteredRows dataRows meta
                  (Filters.mk ALL b (Filters.area filters) group) <> []
                /\ In b (uniqueValues dataRows Rec.branch)).
Proof.
  split; [|split].
  - intros p Hp. apply uniqueValues_In in Hp as (_ & r & Hr & <-).
    apply (filteredRows_nonempty _ _ _ r Hr). unfold rowPasses. simpl.
    by rewrite String.eqb_refl, !orb_true_r.
  - intros a Ha. unfold areaOptions in Ha.
    destruct (keySet (Meta.areaKey meta)); [|done].
    apply uniqueValues_In in Ha as (_ & r & Hr & <-).
    apply (filteredRows_nonempty _ _ _ r Hr). unfold rowPasses. simpl.
    by rewrite String.eqb_refl, !orb_true_r.
  - intros b Hb. unfold branchOptions in Hb.
    destruct (keySet (Meta.branchKey meta)) eqn:Hbk; [|done].
    cbn [negb] in Hb. cbv zeta in Hb.
    apply uniqueValues_In in Hb as (Hne & r & Hr & <-).
    destruct (String.eqb (Filters.area filters) ALL
              || negb (keySet (Meta.areaKey meta))) eqn:Hscope.
    + split; [|apply uniqueValues_In; split; [done | by exists r]].
      apply (filteredRows_nonempty _ _ _ r Hr). unfold rowPasses.
      cbn [Filters.product Filters.branch Filters.area].
      rewrite !String.eqb_refl, !orb_true_r. cbn [andb].
      apply orb_true_iff in Hscope as [->| ->];
        by rewrite ?orb_true_r, ?orb_true_l.
    + apply filter_In in Hr as [Hr Harea].
      split; [|apply uniqueValues_In; split; [done | by exists r]].
      apply (filteredRows_nonempty _ _ _ r Hr). unfold rowPasses.
      cbn [Filters.product Filters.branch Filters.area].
      by rewrite !String.eqb_refl, Harea, !orb_true_r.
Qed.

Lemma newSet_constant (l : string) (n : nat) :
  newSet (replicate (S n) l) = [l].
Proof.
  unfold newSet. simpl. unfold setAdd at 2. simpl.
  induction n as [|n IH]; [done|]. simpl. unfold setAdd at 2. simpl.
  by rewrite String.eqb_refl.
Qed.

(** X24.  The product options of a load.  On the wide path the product
    options are the product columns that are not empty; on the long path
    without a product key there is exactly one product option, the
    synthetic label. *)
Theorem productOptions_expandRows (rows : list row) (meta : Meta.t)
    (Hrows : rows <> []) :
  (Meta.productColumns meta <> [] ->
   forall p, In p (productOptions (expandRows rows meta)) <->
             In p (Meta.productColumns meta) /\ p <> EmptyString)
  /\ (Meta.productColumns meta = [] -> keySet (Meta.productKey meta) = false ->
      productOptions (expandRows rows meta)
      = [if truthy (Meta.syntheticProductLabel meta)
         then Meta.syntheticProductLabel meta else defaultLabel]).
Proof.
  split.
  - intros Hwide p. unfold productOptions. rewrite uniqueValues_In.
    rewrite expandRows_wide by done. split.
    + intros (Hne & rec & Hrec & <-). split; [|done].
      apply in_flat_map in Hrec as (r & _ & Hrec).
      apply in_map_iff in Hrec as (col & <- & Hcol). done.
    + intros [Hp Hne]. split; [done|].
      destruct rows as [|r rows]; [done|].
      exists (wideRecord meta r p). split; [|done].
      apply in_flat_map. exists r. split; [by left|].
      apply in_map_iff. by exists p.
  - intros Hlong Hkey. unfold productOptions, uniqueValues.
    rewrite expandRows_long by done.
    set (label := if truthy (Meta.syntheticProductLabel meta)
                  then Meta.syntheticProductLabel meta else defaultLabel).
    assert (Hmap : map Rec.product (map (fun r => normalizeRow r meta) rows)
                   = replicate (length rows) label).
    { clear Hrows. induction rows as [|r rows IH]; [done|]. simpl.
      rewrite IH. f_equal. by rewrite Hkey. }
    rewrite Hmap. destruct rows as [|r rows]; [done|].
    assert (Hlabel : truthy label = true).
    { unfold label.
      by destruct (truthy (Meta.syntheticProductLabel meta)) eqn:H. }
    assert (Hfilter : List.filter truthy (replicate (length (r :: rows)) label)
                      = replicate (length (r :: rows)) label).
    { generalize (length (r :: rows)). intros n.
      induction n as [|n IH]; [done|]. simpl. by rewrite Hlabel, IH. }
    rewrite Hfilter. simpl length. by rewrite newSet_constant.
Qed.

Lemma productOptions_expandRows_witness :
  let rows : list row :=
    [ <["Branch" := "East"]> (<["Spareribs" := "5"]> {["Backribs" := "10"]}) ] in
  let meta :=
    Meta.mk ["Branch"; "Backribs"; "Spareribs"] None (Some "Branch") None None
            None ["Backribs"; "Spareribs"] false defaultLabel
            ["Branch"; "Backribs"; "Spareribs"] in
  rows <> []
  /\ ((Meta.productColumns meta <> [] ->
       forall p, In p (productOptions (expandRows rows meta)) <->
                 In p (Meta.productColumns meta) /\ p <> EmptyString)
      /\ (Meta.productColumns meta = [] ->
          keySet (Meta.productKey meta) = false ->
          productOptions (expandRows rows meta)
          = [if truthy (Meta.syntheticProductLabel meta)
             then Meta.syntheticProductLabel meta else defaultLabel])).
Proof.
  intros rows meta.
  assert (H : rows <> []) by discriminate.
  exact (conj H (productOptions_expandRows rows meta H)).
Defined.

(** ** Selectors and captions *)

(** X25.  The chart dimension.  Once the fallback effect has run, the group
    of the filters is one of the group options, running the effect again
    changes nothing, and the dimension by which the chart is grouped is one
    of the group options as well. *)
Theorem groupFallback_valid (meta : Meta.t) (filters : Filters.t) :
  let fixed := groupFallback meta filters in
  In (Filters.group fixed) (map fst (groupOptions meta))
  /\ groupFallback meta fixed = fixed
  /\ (Filters.product fixed, Filters.branch fixed, Filters.area fixed)
     = (Filters.product filters, Filters.branch filters, Filters.area filters)
  /\ In (groupDimension meta fixed) (map fst (groupOptions meta)).
Proof.
  cbv zeta.
  assert (Hin : In (Filters.group (groupFallback meta filters))
                   (map fst (groupOptions meta))).
  { unfold groupFallback.
    destruct (existsb _ (groupOptions meta)) eqn:Hex.
    - apply existsb_exists in Hex as (opt & Hopt & Heq).
      apply String.eqb_eq in Heq as <-. by apply in_map.
    - unfold groupOptions. simpl. by left. }
  assert (Hex : existsb
                  (fun opt => String.eqb (fst opt)
                                (Filters.group (groupFallback meta filters)))
                  (groupOptions meta) = true).
  { apply existsb_exists. apply in_map_iff in Hin as (opt & Heq & Hopt).
    exists opt. split; [done|]. by apply String.eqb_eq. }
  split; [done|]. split; [|split].
  - unfold groupFallback at 1. by rewrite Hex.
  - clear Hin Hex. unfold groupFallback. destruct (existsb _ _); reflexivity.
  - clear Hex. unfold groupDimension.
    destruct (_ && _); [unfold groupOptions; simpl; by left|].
    destruct (truthy _); [done | unfold groupOptions; simpl; by left].
Qed.

Lemma join_caption (sep pre x : string) (rest : list string) (c : ascii)
    (s : string) :
  pre = String c s -> c <> "N"%char ->
  join sep ((pre +:+ x) :: rest) <> "No filters".
Proof.
  intros -> Hc. rewrite append_cons.
  destruct rest as [|y rest]; [|rewrite join_cons, append_cons];
    intros [= Heq _]; done.
Qed.

Lemma filterState_parts (meta : Meta.t) (filters : Filters.t) :
  filterState meta filters = "No filters" <->
  String.eqb (Filters.product filters) ALL = true
  /\ (keySet (Meta.branchKey meta) = false
      \/ String.eqb (Filters.branch filters) ALL = true)
  /\ (keySet (Meta.areaKey meta) = false
      \/ String.eqb (Filters.area filters) ALL = true).
Proof.
  unfold filterState.
  set (byProduct := negb (String.eqb (Filters.product filters) ALL)).
  set (byBranch := keySet (Meta.branchKey meta)
                   && negb (String.eqb (Filters.branch filters) ALL)).
  set (byArea := keySet (Meta.areaKey meta)
                 && negb (String.eqb (Filters.area filters) ALL)).
  assert (Hnone : byProduct = false /\ byBranch = false /\ byArea = false <->
                  String.eqb (Filters.product filters) ALL = true
                  /\ (keySet (Meta.branchKey meta) = false
                      \/ String.eqb (Filters.branch filters) ALL = true)
                  /\ (keySet (Meta.areaKey meta) = false
                      \/ String.eqb (Filters.area filters) ALL = true)).
  { unfold byProduct, byBranch, byArea.
    rewrite !andb_false_iff, !negb_false_iff. tauto. }
  rewrite <- Hnone. clearbody byProduct byBranch byArea. clear Hnone.
  destruct byProduct, byBranch, byArea; cbv zeta;
    cbn [app length Nat.ltb Nat.leb];
    first
      [ split; [done | by intros _]
      | split; [|by intros (? & ? & ?)];
        intros Hcap; exfalso; revert Hcap;
        eapply join_caption; [reflexivity | discriminate] ].
Qed.

Lemma append_neq (s : string) : String.eqb (s +:+ "x") s = false.
Proof.
  apply String.eqb_neq. intros Heq. apply (f_equal String.length) in Heq.
  rewrite append_length in Heq. simpl in Heq. lia.
Qed.

(** X26.  The caption of the filters.  The caption reads "No filters"
    exactly when the filters let every record pass; the filtered records
    are then all the records. *)
Theorem filterState_no_filters (meta : Meta.t) (filters : Filters.t) :
  (filterState meta filters = "No filters" <->
   forall r : Rec.t, rowPasses meta filters r = true)
  /\ (filterState meta filters = "No filters" ->
      forall dataRows, filteredRows dataRows meta filters = dataRows).
Proof.
  assert (Hpass : filterState meta filters = "No filters" ->
                  forall r : Rec.t, rowPasses meta filters r = true).
  { intros Hcap r. apply filterState_parts in Hcap as (Hp & Hb & Ha).
    unfold rowPasses. rewrite Hp. cbn [orb andb].
    apply andb_true_iff. split.
    - destruct Hb as [-> | ->]; by rewrite ?orb_true_r.
    - destruct Ha as [-> | ->]; by rewrite ?orb_true_r. }
  split; [split; [exact Hpass|]|].
  - intros Hall. apply filterState_parts.
    set (p := Filters.product filters +:+ "x").
    set (b := Filters.branch filters +:+ "x").
    set (a := Filters.area filters +:+ "x").
    pose proof (Hall (Rec.mk p EmptyString b a num0)) as Hr.
    unfold rowPasses in Hr. cbn [Rec.product Rec.branch Rec.area] in Hr.
    unfold p, b, a in Hr. rewrite !append_neq, !orb_false_r in Hr.
    apply andb_true_iff in Hr as [Hr Harea].
    apply andb_true_iff in Hr as [Hprod Hbranch].
    split; [done|]. split.
    + apply orb_true_iff in Hbranch as [H|H]; [left | by right].
      by apply negb_true_iff.
    + apply orb_true_iff in Harea as [H|H]; [left | by right].
      by apply negb_true_iff.
  - intros Hcap dataRows. unfold filteredRows.
    induction dataRows as [|r rows IH]; [done|]. simpl.
    by rewrite (Hpass Hcap r), IH.
Qed.

(** X27.  Colours.  Every bar has a colour of the palette, and bars eight
    places apart have the same one. *)
Theorem pickColor_palette (index : nat) :
  (exists c, pickColor index = Some c /\ In c palette)
  /\ pickColor (index + 8) = pickColor index
  /\ (index < 8 -> pickColor index = palette !! index).
Proof.
  unfold pickColor. change (length palette) with 8.
  split; [|split].
  - destruct (lookup_lt_is_Some_2 palette (index mod 8)) as [c Hc].
    { change (length palette) with 8. apply Nat.mod_upper_bound. lia. }
    exists c. split; [done|]. apply list_elem_of_In.
    by eapply list_elem_of_lookup_2.
  - f_equal. replace (index + 8) with (index + 1 * 8) by lia.
    apply Nat.Div0.mod_add.
  - intros Hlt. by rewrite Nat.mod_small.
Qed.

(** X28.  The caption of the metric.  After a load the caption of the
    metric names the product columns or the metric key that was found: its
    fallback text, for a schema with neither, is never shown. *)
Theorem metricLabel_loaded (text : string) (recs : list Rec.t) (meta : Meta.t)
    (group : string) (Hload : ingest text = Some (Loaded recs meta group)) :
  (Meta.productColumns meta <> []
   /\ metricLabel meta = "Metric: product column values")
  \/ (Meta.productColumns meta = []
      /\ exists k, Meta.metricKey meta = Some k /\ truthy k = true
                   /\ metricLabel meta = "Metric: " +:+ k).
Proof.
  unfold ingest in Hload.
  destruct (parseCsv text) as [t|] eqn:Hp; [|done]. simpl in Hload.
  injection Hload as Hload. unfold ingestParsed in Hload.
  destruct (length (Parsed.rows t) =? 0); [done|].
  cbv zeta in Hload.
  remember (detectColumns (Parsed.headers t) (Parsed.rows t)
                          (Parsed.rawHeaders t)) as detected eqn:Hd.
  destruct (insufficient detected) eqn:Hins; [done|].
  injection Hload as _ <- _. clear Hd.
  unfold insufficient in Hins. unfold metricLabel.
  destruct (Meta.productColumns detected) as [|c cs]; [right | by left].
  simpl in Hins. rewrite andb_true_r in Hins.
  apply negb_false_iff in Hins. split; [done|].
  destruct (Meta.metricKey detected) as [k|]; [|done]. simpl in Hins.
  exists k. simpl. by rewrite Hins.
Qed.

Lemma metricLabel_loaded_witness :
  let text := "Branch,Total" +:+ str1 LF +:+ "East,10" in
  exists recs meta group,
    ingest text = Some (Loaded recs meta group)
    /\ ((Meta.productColumns meta <> []
         /\ metricLabel meta = "Metric: product column values")
        \/ (Meta.productColumns meta = []
            /\ exists k, Meta.metricKey meta = Some k /\ truthy k = true
                         /\ metricLabel meta = "Metric: " +:+ k)).
Proof.
  intros text. eexists _, _, _.
  assert (H : ingest text = Some (Loaded _ _ _)) by (vm_compute; reflexivity).
  exact (conj H (metricLabel_loaded text _ _ _ H)).
Defined.

(** ** Tokenizer: reading back a written table *)

Lemma plainCell_spec (c : string) :
  plainCell c = true ->
  countChar COMMA c = 0 /\ countChar DQUOTE c = 0 /\ countChar LF c = 0
  /\ countChar TAB c = 0 /\ trim c = c.
Proof.
  unfold plainCell. rewrite !andb_true_iff, !Nat.eqb_eq, String.eqb_eq. tauto.
Qed.

Lemma trim_fixed (x : string) :
  trim x = x -> trimEnd x = x /\ trimStart x = x.
Proof.
  unfold trim. intros Hx. split.
  - rewrite <- Hx at 1. rewrite trimEnd_trimStart by apply trimEnd_idem. done.
  - rewrite <- Hx at 1. by rewrite trimStart_idem.
Qed.

Lemma countChar_join (d : ascii) (sep : string) (cells : list string) :
  countChar d sep = 0 -> Forall (fun c => countChar d c = 0) cells ->
  countChar d (join sep cells) = 0.
Proof.
  intros Hsep. induction 1 as [|x rest Hx Hrest IH]; [done|].
  destruct rest as [|y rest]; [done|].
  rewrite join_cons, !countChar_app, Hx, Hsep, IH. done.
Qed.

Lemma trimEnd_join (cells : list string) :
  Forall (fun c => trim c = c) cells ->
  trimEnd (join (str1 COMMA) cells) = join (str1 COMMA) cells.
Proof.
  induction 1 as [|x rest Hx Hrest IH]; [done|].
  destruct rest as [|y rest]; [by apply trim_fixed|].
  rewrite join_cons. apply trimEnd_app_fixed; [done|].
  change (str1 COMMA +:+ join (str1 COMMA) (y :: rest))
    with (String COMMA (join (str1 COMMA) (y :: rest))).
  rewrite trimEnd_cons, IH. by destruct (join (str1 COMMA) (y :: rest)).
Qed.

Lemma trimStart_join (cells : list string) :
  Forall (fun c => trim c = c) cells ->
  trimStart (join (str1 COMMA) cells) = join (str1 COMMA) cells.
Proof.
  intros Hcells. destruct cells as [|x rest]; [done|].
  apply Forall_cons in Hcells as [Hx _]. apply trim_fixed in Hx as [_ Hx].
  destruct rest as [|y rest]; [done|]. rewrite join_cons.
  destruct x as [|c x]; [done|].
  rewrite append_cons. simpl. by rewrite (trimStart_head _ _ _ Hx).
Qed.

Lemma join_not_blank (cells : list string) :
  Forall (fun c => trim c = c) cells -> existsb truthy cells = true ->
  isBlank (join (str1 COMMA) cells) = false.
Proof.
  intros Hcells Hink. unfold isBlank, trim.
  rewrite trimEnd_join, trimStart_join by done.
  destruct cells as [|x rest]; [done|].
  destruct rest as [|y rest].
  - simpl in *. rewrite orb_false_r in Hink. by destruct x.
  - rewrite join_cons. by destruct x.
Qed.

Lemma splitCsvLine_join (cells : list string) :
  cells <> [] -> Forall (fun c => plainCell c = true) cells ->
  splitCsvLine (join (str1 COMMA) cells) COMMA = cells.
Proof.
  intros Hne Hcells. unfold splitCsvLine.
  change (Ascii.eqb COMMA TAB) with false. cbv iota.
  rewrite splitQuoted_plain.
  - rewrite split_join; [by destruct cells|done|].
    eapply Forall_impl; [exact Hcells|]. intros c Hc.
    by apply plainCell_spec in Hc as (? & _).
  - apply countChar_join; [done|].
    eapply Forall_impl; [exact Hcells|]. intros c Hc.
    by apply plainCell_spec in Hc as (_ & ? & _).
Qed.

Lemma filter_all {A : Type} (p : A -> bool) (l : list A) :
  Forall (fun x => p x = true) l -> List.filter p l = l.
Proof.
  induction 1 as [|x l Hx Hl IH]; [done|]. simpl. by rewrite Hx, IH.
Qed.

(** X29.  Reading back a written table.  A table whose cells are plain,
    whose headers are not empty, differ up to case and make a header row,
    and whose rows have as many cells as there are headers, one of them not
    empty, is parsed from its text as it was written: the same headers, and
    one row object per row, which holds at each header other than
    [__proto__] the cell of its column. *)
Theorem parseCsv_writeCsv (headers : list string) (rows : list (list string))
    (Hplain : Forall (fun c => plainCell c = true) headers)
    (Hnames : Forall (fun h => truthy h = true) headers)
    (Hdistinct : NoDup (map toLowerCase headers))
    (Hheader : isHeaderRow headers = true)
    (Hrows : Forall (fun cells =>
                       Forall (fun c => plainCell c = true) cells
                       /\ length cells = length headers
                       /\ existsb truthy cells = true) rows) :
  parseCsv (writeCsv headers rows)
  = Some (Parsed.mk headers (map (mkRow headers) rows) headers)
  /\ forall (cells : list string) (j : nat) (h c : string),
       In cells rows -> headers !! j = Some h -> cells !! j = Some c ->
       h <> PROTO -> mkRow headers cells !! h = Some c.
Proof.
  split.
  2:{ intros cells j h c _ Hh Hc Hp.
      rewrite (mkRow_lookup headers cells j h); [by rewrite Hc| |done..].
      by eapply NoDup_fmap_1. }
  assert (Hhne : headers <> []) by (by destruct headers).
  assert (Htrim : Forall (fun c => trim c = c) headers).
  { eapply Forall_impl; [exact Hplain|]. intros c Hc.
    by apply plainCell_spec in Hc as (_ & _ & _ & _ & ?). }
  assert (Hink : existsb truthy headers = true).
  { destruct headers as [|h hs]; [done|].
    apply Forall_cons in Hnames as [Hh _]. simpl. by rewrite Hh. }
  set (table := headers :: rows).
  assert (Htable : Forall (fun cells =>
                             Forall (fun c => plainCell c = true) cells
                             /\ length cells = length headers
                             /\ existsb truthy cells = true) table)
    by (by constructor).
  set (lines := map (join (str1 COMMA)) table).
  assert (Hlf : Forall (fun l => countChar LF l = 0) lines).
  { unfold lines. apply Forall_forall. intros l Hl.
    apply list_elem_of_In, in_map_iff in Hl as (cells & <- & Hcells).
    rewrite Forall_forall in Htable.
    destruct (Htable cells) as (Hc & _); [by apply list_elem_of_In|].
    apply countChar_join; [done|].
    eapply Forall_impl; [exact Hc|]. intros c Hp.
    by apply plainCell_spec in Hp as (_ & _ & ? & _). }
  assert (Hlines : toLines (writeCsv headers rows) = lines).
  { unfold writeCsv. fold table. fold lines. unfold toLines.
    rewrite lines_joined by done.
    assert (Hte : map trimEnd lines = lines).
    { unfold lines. rewrite map_map. apply map_ext_in. intros cells Hcells.
      rewrite Forall_forall in Htable.
      destruct (Htable cells) as (Hc & _); [by apply list_elem_of_In|].
      apply trimEnd_join. eapply Forall_impl; [exact Hc|]. intros c Hp.
      by apply plainCell_spec in Hp as (_ & _ & _ & _ & ?). }
    rewrite Hte. apply filter_all. unfold lines.
    apply Forall_forall. intros l Hl.
    apply list_elem_of_In, in_map_iff in Hl as (cells & <- & Hcells).
    rewrite Forall_forall in Htable.
    destruct (Htable cells) as (Hc & _ & Hi); [by apply list_elem_of_In|].
    rewrite join_not_blank; [done| |done].
    eapply Forall_impl; [exact Hc|]. intros c Hp.
    by apply plainCell_spec in Hp as (_ & _ & _ & _ & ?). }
  assert (Hdelim : detectDelimiter lines = COMMA).
  { unfold detectDelimiter, lines, table. cbn [map List.find].
    rewrite join_not_blank by done. cbn [negb].
    rewrite (countChar_join TAB); [done..|].
    eapply Forall_impl; [exact Hplain|]. intros c Hp.
    by apply plainCell_spec in Hp as (_ & _ & _ & ? & _). }
  assert (Hcells : map (fun l => splitCsvLine l (detectDelimiter lines)) lines
                   = table).
  { rewrite Hdelim. unfold lines. rewrite map_map.
    rewrite <- (map_id table) at 2. apply map_ext_in. intros cells Hin.
    rewrite Forall_forall in Htable.
    destruct (Htable cells) as (Hc & Hlen & _); [by apply list_elem_of_In|].
    apply splitCsvLine_join; [|done].
    destruct cells; [|done]. destruct headers; done. }
  destruct (parseCsv_lines (writeCsv headers rows))
    as (names & Hs & _ & Hp); [by rewrite Hlines|].
  rewrite Hp. clear Hp. cbv zeta in Hs. revert Hs.
  rewrite Hlines, Hcells.
  assert (Hscan : scanHeader table 0 0 0 = (0, length headers))
    by (unfold table; cbn [scanHeader]; by rewrite Hheader).
  rewrite Hscan. unfold table. cbn [fst snd nth skipn].
  assert (Hrepair : forall fdc,
            length fdc <= length headers ->
            repairHeader headers fdc (length headers) = headers).
  { intros fdc Hfdc. unfold repairHeader.
    replace (length fdc =? length headers + 1) with false
      by (symmetry; apply Nat.eqb_neq; lia).
    rewrite andb_false_r. by rewrite Nat.ltb_irrefl. }
  assert (Hfdc : length (default [] (List.find
                           (existsb (fun v => negb (isBlank v))) rows))
                 <= length headers).
  { destruct (List.find _ rows) as [cells|] eqn:Hfind; simpl; [|lia].
    apply find_some in Hfind as [Hin _].
    rewrite Forall_forall in Hrows.
    destruct (Hrows cells) as (_ & -> & _); [by apply list_elem_of_In|done]. }
  change (drop 0 rows) with rows. rewrite (Hrepair _ Hfdc).
  assert (Hclean : sanitizeHeaders headers = Some headers).
  { unfold sanitizeHeaders.
    rewrite sanitizeFrom_clean.
    - f_equal. rewrite <- (map_id headers) at 2. apply map_ext_in.
      intros h Hh. rewrite Forall_forall in Htrim.
      by apply Htrim, list_elem_of_In.
    - apply Forall_forall. intros h Hh. unfold isBlank.
      rewrite Forall_forall in Htrim, Hnames.
      rewrite (Htrim h Hh). specialize (Hnames h Hh). by destruct h.
    - erewrite map_ext_in; [exact Hdistinct|]. intros h Hh. simpl.
      rewrite Forall_forall in Htrim. f_equal.
      by apply Htrim, list_elem_of_In.
    - apply Forall_forall. intros h _. apply not_elem_of_empty. }
  rewrite Hclean. intros [= <-]. do 3 f_equal.
  apply filter_all. apply Forall_forall. intros cells Hin.
  rewrite Forall_forall in Hrows.
  destruct (Hrows cells Hin) as (Hc & _ & Hi).
  apply negb_true_iff. apply not_true_iff_false. intros Hall.
  apply existsb_exists in Hi as (c & Hcin & Hct).
  rewrite forallb_forall in Hall. specialize (Hall c Hcin).
  rewrite Forall_forall in Hc.
  assert (Hp : plainCell c = true) by (by apply Hc, list_elem_of_In).
  apply plainCell_spec in Hp as (_ & _ & _ & _ & Htc).
  unfold isBlank in Hall. rewrite Htc in Hall. by destruct c.
Qed.

Lemma parseCsv_writeCsv_witness :
  let headers := ["Product"; "Branch"; "Value"] in
  let rows := [["Widgets"; "East"; "10"]; ["Gadgets"; EmptyString; "7"]] in
  Forall (fun c => plainCell c = true) headers
  /\ Forall (fun h => truthy h = true) headers
  /\ NoDup (map toLowerCase headers)
  /\ isHeaderRow headers = true
  /\ Forall (fun cells =>
               Forall (fun c => plainCell c = true) cells
               /\ length cells = length headers
               /\ existsb truthy cells = true) rows
  /\ parseCsv (writeCsv headers rows)
     = Some (Parsed.mk headers (map (mkRow headers) rows) headers)
  /\ forall (cells : list string) (j : nat) (h c : string),
       In cells rows -> headers !! j = Some h -> cells !! j = Some c ->
       h <> PROTO -> mkRow headers cells !! h = Some c.
Proof.
  intros headers rows.
  assert (H1 : Forall (fun c => plainCell c = true) headers)
    by (repeat constructor).
  assert (H2 : Forall (fun h => truthy h = true) headers)
    by (repeat constructor).
  assert (H3 : NoDup (map toLowerCase headers)).
  { apply NoDup_ListNoDup. repeat constructor; simpl; intuition discriminate. }
  assert (H4 : isHeaderRow headers = true) by reflexivity.
  assert (H5 : Forall (fun cells =>
                         Forall (fun c => plainCell c = true) cells
                         /\ length cells = length headers
                         /\ existsb truthy cells = true) rows)
    by (repeat constructor).
  exact (conj H1 (conj H2 (conj H3 (conj H4 (conj H5
           (parseCsv_writeCsv headers rows H1 H2 H3 H4 H5)))))).
Defined.
